(** * Technical indicators and signal scoring (server/indicators.ts)

    A shallow embedding of the indicator engine: [calculateSMA],
    [calculateEMA], [calculateRSI], [calculateMACD], [calculateIndicators],
    [analyzeStock] and [getSMAArrays].

    JavaScript numbers are IEEE 754 binary64 values.  The functions are
    written once over an interface [JSNumber] of the operations the source
    uses on numbers, and the interface is instantiated twice:

    - [binary64]: the numbers of the running program, through the
      executable specification of IEEE 754 arithmetic of the Standard
      Library ([SpecFloat], precision 53, emax 1024, round to nearest even);
    - [exact]: rationals with a not-a-number element, the arithmetic the
      indicator formulas are stated in on paper.  It is not the arithmetic
      of the program: it has no rounding, no overflow and no infinities,
      and serves only to say what a formula gives without rounding.

    What the program computes is stated on [binary64]; the rounding errors
    of its operations are bounded through the rational value of a double
    ([toQ]).

    Periods, indices and lengths are integers; the source only ever uses
    integer periods far below 2^53, where index arithmetic on doubles and on
    integers agree. *)

From Stdlib Require Import String.
From Stdlib Require Import ZArith List Bool Lia.
From Stdlib Require Import QArith Qpower Qcanon Qround Field Lqa.
From Stdlib Require Import SpecFloat.
Import ListNotations.

Set Implicit Arguments.

(** ** Arrays *)

Module JSArray.

Section Ops.
Context {A : Type}.

(** [arr.push(x)] on the array being built. *)
Definition push (arr : list A) (x : A) : list A := arr ++ [x].

(** [arr[i]]: [undefined] (here [None]) outside [0 .. length-1]. *)
Definition at_ (arr : list A) (i : Z) : option A :=
  if (i <? 0)%Z then None else nth_error arr (Z.to_nat i).

(** Relative index of [Array.prototype.slice]: negative counts from the
    end, and the result is clamped to [0 .. len]. *)
Definition relIndex (len k : Z) : Z :=
  if (k <? 0)%Z then Z.max (len + k) 0 else Z.min k len.

(** [arr.slice(start, end)]. *)
Definition slice (arr : list A) (start end_ : Z) : list A :=
  let len := Z.of_nat (length arr) in
  let k := relIndex len start in
  let final := relIndex len end_ in
  firstn (Z.to_nat (final - k)) (skipn (Z.to_nat k) arr).

(** [arr.slice(start)]. *)
Definition sliceFrom (arr : list A) (start : Z) : list A :=
  slice arr start (Z.of_nat (length arr)).

(** [arr.reduce(f, init)]. *)
Definition reduce {B : Type} (f : B -> A -> B) (arr : list A) (init : B) : B :=
  fold_left f arr init.

(** [for (let i = start; i < stop; i++) body], threading the state. *)
Definition forRange {S : Type} (start stop : nat) (body : nat -> S -> S)
           (s : S) : S :=
  fold_left (fun st i => body i st) (seq start (stop - start)) s.
End Ops.

End JSArray.
Import JSArray.

(** ** Numbers *)

(** The operations of JavaScript numbers that the indicator code uses. *)
Class JSNumber (num : Type) : Type := {
  NaN : num;
  of_Z : Z -> num;                 (* an integer literal or integer value *)
  add : num -> num -> num;         (* a + b *)
  sub : num -> num -> num;         (* a - b *)
  mul : num -> num -> num;         (* a * b *)
  div : num -> num -> num;         (* a / b *)
  ltb : num -> num -> bool;        (* a < b *)
  eqb : num -> num -> bool;        (* a === b *)
  isNaN : num -> bool;
  Math_abs : num -> num;
  Math_max : num -> num -> num;
  Math_min : num -> num -> num;
  Math_round : num -> num;
  isNaN_NaN : isNaN NaN = true
}.

Section Coercions.
Context {num : Type} `{JSNumber num}.

(** [a > b]. *)
Definition gtb (a b : num) : bool := ltb b a.

(** [a >= b]. *)
Definition geb (a b : num) : bool := ltb b a || eqb a b.

(** ToNumber on a possibly [undefined] number. *)
Definition toNumber (v : option num) : num :=
  match v with Some x => x | None => NaN end.

(** ToBoolean on a number: [NaN], [+0] and [-0] are falsy. *)
Definition truthy (x : num) : bool := negb (isNaN x || eqb x (of_Z 0)).

(** ToBoolean on a possibly [undefined] number. *)
Definition truthyO (v : option num) : bool :=
  match v with Some x => truthy x | None => false end.

(** [v || 0]. *)
Definition orZero (v : option num) : num :=
  match v with
  | Some x => if truthy x then x else of_Z 0
  | None => of_Z 0
  end.

(** [arr[i]] used as an operand of arithmetic. *)
Definition get (arr : list num) (i : Z) : num := toNumber (at_ arr i).
End Coercions.

(** ** Records and labels *)

(** One stored row of the [stock_prices] table. *)
Record StockPrice (num : Type) : Type := {
  id : Z;
  stockId : Z;
  date : Z;
  open : num;
  high : num;
  low : num;
  close : num;
  volume : option Z
}.

(** The snapshot: every field is optional ([sma20?: number], ...). *)
Record TechnicalIndicators (num : Type) : Type := {
  sma20 : option num;
  sma50 : option num;
  sma200 : option num;
  ema12 : option num;
  ema26 : option num;
  rsi : option num;
  macd : option num;
  macdSignal : option num;
  macdHistogram : option num
}.

(** The object literal [{}]. *)
Definition emptyIndicators {num : Type} : TechnicalIndicators num :=
  {| sma20 := None; sma50 := None; sma200 := None; ema12 := None;
     ema26 := None; rsi := None; macd := None; macdSignal := None;
     macdHistogram := None |}.

(** The result of [calculateMACD]. *)
Module MACD.
Record t (num : Type) : Type := { macd : num; signal : num; histogram : num }.
End MACD.

Inductive Trend : Type := bullish | bearish | neutralTrend.
Inductive RsiSignal : Type := oversold | overbought | neutralRsi.
Inductive MacdSignal : Type := buy | sell | neutralMacd.

(** The result of [analyzeStock]. *)
Module Signals.
Record t (num : Type) : Type := {
  trend : Trend;
  rsiSignal : RsiSignal;
  macdSignal : MacdSignal;
  overallScore : num
}.
End Signals.

(** The result of [getSMAArrays]. *)
Module SMAArrays.
Record t (num : Type) : Type := { sma20 : list num; sma50 : list num }.
End SMAArrays.

(** ** The indicator functions *)

Section Indicators.
Context {num : Type} `{JSNumber num}.

Definition calculateSMA (prices : list num) (period : Z) : list num :=
  forRange 0 (length prices) (fun i result =>
    let i := Z.of_nat i in
    if (i <? period - 1)%Z then push result NaN
    else
      let sum := reduce add (slice prices (i - period + 1) (i + 1)) (of_Z 0) in
      push result (div sum (of_Z period)))
  [].

Definition calculateEMA (prices : list num) (period : Z) : list num :=
  let multiplier := div (of_Z 2) (add (of_Z period) (of_Z 1)) in
  forRange 0 (length prices) (fun i result =>
    let i := Z.of_nat i in
    if (i <? period - 1)%Z then push result NaN
    else if (i =? period - 1)%Z then
      let sum := reduce add (slice prices 0 period) (of_Z 0) in
      push result (div sum (of_Z period))
    else
      let ema := add (mul (sub (get prices i) (get result (i - 1))) multiplier)
                     (get result (i - 1)) in
      push result ema)
  [].

(** [period] is optional in the source and defaults to 14. *)
Definition rsiPeriod (period : option Z) : Z :=
  match period with Some p => p | None => 14%Z end.

Definition calculateRSI (prices : list num) (period : option Z) : num :=
  let period := rsiPeriod period in
  if (Z.of_nat (length prices) <? period + 1)%Z then of_Z 50
  else
    let changes :=
      forRange 1 (length prices) (fun i changes =>
        let i := Z.of_nat i in
        push changes (sub (get prices i) (get prices (i - 1))))
      [] in
    let recentChanges := sliceFrom changes (- period) in
    let '(gains, losses) :=
      fold_left (fun acc change =>
        let '(gains, losses) := acc in
        if gtb change (of_Z 0) then (add gains change, losses)
        else (gains, add losses (Math_abs change)))
      recentChanges (of_Z 0, of_Z 0) in
    let avgGain := div gains (of_Z period) in
    let avgLoss := div losses (of_Z period) in
    if eqb avgLoss (of_Z 0) then of_Z 100
    else
      let rs := div avgGain avgLoss in
      sub (of_Z 100) (div (of_Z 100) (add (of_Z 1) rs)).

(** The three arrays [calculateMACD] builds before it reads their ends. *)
Definition macdLineOf (prices : list num) : list num :=
  let ema12 := calculateEMA prices 12 in
  let ema26 := calculateEMA prices 26 in
  forRange 0 (length prices) (fun i macdLine =>
    let i := Z.of_nat i in
    if isNaN (get ema12 i) || isNaN (get ema26 i) then push macdLine NaN
    else push macdLine (sub (get ema12 i) (get ema26 i)))
  [].

Definition validMacdOf (prices : list num) : list num :=
  filter (fun v => negb (isNaN v)) (macdLineOf prices).

Definition signalLineOf (prices : list num) : list num :=
  calculateEMA (validMacdOf prices) 9.

Definition calculateMACD (prices : list num) : MACD.t num :=
  let validMacd := validMacdOf prices in
  let signalLine := signalLineOf prices in
  let macd := orZero (at_ validMacd (Z.of_nat (length validMacd) - 1)) in
  let signal := orZero (at_ signalLine (Z.of_nat (length signalLine) - 1)) in
  let histogram := sub macd signal in
  {| MACD.macd := macd; MACD.signal := signal; MACD.histogram := histogram |}.

Definition calculateIndicators (prices : list (StockPrice num))
  : TechnicalIndicators num :=
  if (length prices =? 0)%nat then emptyIndicators
  else
    let closePrices := map (@close num) prices in
    let sma20Arr := calculateSMA closePrices 20 in
    let sma50Arr := calculateSMA closePrices 50 in
    let sma200Arr := calculateSMA closePrices 200 in
    let ema12Arr := calculateEMA closePrices 12 in
    let ema26Arr := calculateEMA closePrices 26 in
    let rsi := calculateRSI closePrices (Some 14%Z) in
    let macdResult := calculateMACD closePrices in
    let last arr := at_ arr (Z.of_nat (length arr) - 1) in
    {| sma20 := last sma20Arr;
       sma50 := last sma50Arr;
       sma200 := last sma200Arr;
       ema12 := last ema12Arr;
       ema26 := last ema26Arr;
       rsi := Some rsi;
       macd := Some (MACD.macd macdResult);
       macdSignal := Some (MACD.signal macdResult);
       macdHistogram := Some (MACD.histogram macdResult) |}.

(** Lines 131-176 of [analyzeStock]: the score and the three labels as
    they stand just before the clamp. *)
Definition scoreAndLabels (currentPrice : num)
           (indicators : TechnicalIndicators num)
  : num * Trend * RsiSignal * MacdSignal :=
  let score := of_Z 50 in
  let trend := neutralTrend in
  let '(score, trend) :=
    if truthyO (sma20 indicators) && truthyO (sma50 indicators)
       && truthyO (sma200 indicators)
    then
      let i_sma20 := toNumber (sma20 indicators) in
      let i_sma50 := toNumber (sma50 indicators) in
      let i_sma200 := toNumber (sma200 indicators) in
      let '(score, trend) :=
        if gtb currentPrice i_sma20 && gtb i_sma20 i_sma50
        then (add score (of_Z 15), bullish)
        else if ltb currentPrice i_sma20 && ltb i_sma20 i_sma50
        then (sub score (of_Z 15), bearish)
        else (score, trend) in
      if gtb currentPrice i_sma200
      then (add score (of_Z 10), trend)
      else (sub score (of_Z 10), trend)
    else (score, trend) in
  let rsiSignal := neutralRsi in
  let '(score, rsiSignal) :=
    match rsi indicators with
    | Some i_rsi =>
        if ltb i_rsi (of_Z 30) then (add score (of_Z 10), oversold)
        else if gtb i_rsi (of_Z 70) then (sub score (of_Z 10), overbought)
        else (score, rsiSignal)
    | None => (score, rsiSignal)
    end in
  let macdSignal' := neutralMacd in
  let '(score, macdSignal') :=
    match macd indicators, macdSignal indicators with
    | Some i_macd, Some i_macdSignal =>
        let i_macdHistogram := toNumber (macdHistogram indicators) in
        if gtb i_macd i_macdSignal && gtb i_macdHistogram (of_Z 0)
        then (add score (of_Z 10), buy)
        else if ltb i_macd i_macdSignal && ltb i_macdHistogram (of_Z 0)
        then (sub score (of_Z 10), sell)
        else (score, macdSignal')
    | _, _ => (score, macdSignal')
    end in
  (score, trend, rsiSignal, macdSignal').

(** The score before the clamp. *)
Definition rawScore (currentPrice : num)
           (indicators : TechnicalIndicators num) : num :=
  let '(score, _, _, _) := scoreAndLabels currentPrice indicators in score.

Definition analyzeStock (currentPrice : num)
           (indicators : TechnicalIndicators num) : Signals.t num :=
  let '(score, trend, rsiSignal, macdSignal) :=
    scoreAndLabels currentPrice indicators in
  let score := Math_max (of_Z 0) (Math_min (of_Z 100) score) in
  {| Signals.trend := trend;
     Signals.rsiSignal := rsiSignal;
     Signals.macdSignal := macdSignal;
     Signals.overallScore := Math_round score |}.

Definition getSMAArrays (prices : list (StockPrice num)) : SMAArrays.t num :=
  let closePrices := map (@close num) prices in
  {| SMAArrays.sma20 := calculateSMA closePrices 20;
     SMAArrays.sma50 := calculateSMA closePrices 50 |}.

End Indicators.

(** ** Reference definitions, in the words of the specification *)

Section Reference.
Context {num : Type} `{JSNumber num}.

(** The arithmetic mean of a sequence: its sum, taken from left to right,
    over its number of elements. *)
Definition mean (xs : list num) : num :=
  div (fold_left add xs (of_Z 0)) (of_Z (Z.of_nat (length xs))).

(** [prices[i-W+1 .. i]], both ends included. *)
Definition window (prices : list num) (i W : Z) : list num :=
  firstn (Z.to_nat W) (skipn (Z.to_nat (i - W + 1)) prices).

(** The multiplier [k = 2/(W+1)] and one step of the EMA recurrence. *)
Definition emaMultiplier (W : Z) : num :=
  div (of_Z 2) (add (of_Z W) (of_Z 1)).

Definition emaStep (W : Z) (price previous : num) : num :=
  add (mul (sub price previous) (emaMultiplier W)) previous.

(** The MACD line: [EMA12[i] - EMA26[i]] where both are defined, not
    applicable elsewhere. *)
Definition macdLineSpec (prices : list num) : list num :=
  map (fun '(e12, e26) => if isNaN e12 || isNaN e26 then NaN else sub e12 e26)
      (combine (calculateEMA prices 12) (calculateEMA prices 26)).

(** Dropping the not-applicable entries. *)
Definition compact (xs : list num) : list num :=
  filter (fun v => negb (isNaN v)) xs.

(** The last value of a sequence, 0 if it is empty. *)
Definition lastOrZero (xs : list num) : num :=
  match rev xs with
  | [] => of_Z 0
  | x :: _ => x
  end.

(** MACD as the specification words it. *)
Definition macdSpec (prices : list num) : MACD.t num :=
  let line := compact (macdLineSpec prices) in
  let signalLine := calculateEMA line 9 in
  let m := lastOrZero line in
  let s := lastOrZero signalLine in
  {| MACD.macd := m; MACD.signal := s; MACD.histogram := sub m s |}.

(** The last value of a sequence when it is a number other than zero,
    0 in every other case: empty, not applicable, or zero. *)
Definition lastNumberOrZero (xs : list num) : num :=
  match rev xs with
  | [] => of_Z 0
  | x :: _ => if isNaN x || eqb x (of_Z 0) then of_Z 0 else x
  end.

(** MACD with the fallback the source applies. *)
Definition macdFallback (prices : list num) : MACD.t num :=
  let line := compact (macdLineSpec prices) in
  let signalLine := calculateEMA line 9 in
  let m := lastNumberOrZero line in
  let s := lastNumberOrZero signalLine in
  {| MACD.macd := m; MACD.signal := s; MACD.histogram := sub m s |}.

(** What [calculateSMA] pushes at index [i]. *)
Definition smaEntry (prices : list num) (period : Z) (i : nat) : num :=
  if (Z.of_nat i <? period - 1)%Z then NaN
  else div (reduce add (slice prices (Z.of_nat i - period + 1) (Z.of_nat i + 1))
                   (of_Z 0))
           (of_Z period).

(** What [calculateEMA] pushes at index [i], given the array so far. *)
Definition emaEntry (prices : list num) (period : Z) (i : nat)
           (result : list num) : num :=
  if (Z.of_nat i <? period - 1)%Z then NaN
  else if (Z.of_nat i =? period - 1)%Z then
    div (reduce add (slice prices 0 period) (of_Z 0)) (of_Z period)
  else emaStep period (get prices (Z.of_nat i)) (get result (Z.of_nat i - 1)).

(** A sequence whose first [n] elements are all [v]. *)
Definition startsConstant (prices : list num) (n : Z) (v : num) : Prop :=
  forall j, (0 <= j < n)%Z -> at_ prices j = Some v.

(** The adjustment that goes with each label. *)
Definition applyTrend (t : Trend) (score : num) : num :=
  match t with
  | bullish => add score (of_Z 15)
  | bearish => sub score (of_Z 15)
  | neutralTrend => score
  end.

Definition applySma200 (above : bool) (score : num) : num :=
  if above then add score (of_Z 10) else sub score (of_Z 10).

Definition applyRsi (r : RsiSignal) (score : num) : num :=
  match r with
  | oversold => add score (of_Z 10)
  | overbought => sub score (of_Z 10)
  | neutralRsi => score
  end.

Definition applyMacd (m : MacdSignal) (score : num) : num :=
  match m with
  | buy => add score (of_Z 10)
  | sell => sub score (of_Z 10)
  | neutralMacd => score
  end.

(** The guard of the moving-average block: all three values are truthy. *)
Definition smaGuard (indicators : TechnicalIndicators num) : bool :=
  truthyO (sma20 indicators) && truthyO (sma50 indicators)
  && truthyO (sma200 indicators).

(** The score after the moving-average block, as a function of the trend
    label the block chose. *)
Definition afterSmaBlock (currentPrice : num)
           (indicators : TechnicalIndicators num) (t : Trend) : num :=
  if smaGuard indicators
  then applySma200 (gtb currentPrice (toNumber (sma200 indicators)))
                   (applyTrend t (of_Z 50))
  else of_Z 50.

(** The day-over-day difference at index [i]. *)
Definition change (prices : list num) (i : Z) : num :=
  sub (get prices i) (get prices (i - 1)).

(** One iteration of the gains and losses loop of [calculateRSI]. *)
Definition tally (acc : num * num) (c : num) : num * num :=
  let '(gains, losses) := acc in
  if gtb c (of_Z 0) then (add gains c, losses)
  else (gains, add losses (Math_abs c)).

(** The linear sequence [prices[i] = a + b * i] of [n] prices. *)
Definition linearPrices (a b : num) (n : nat) : list num :=
  map (fun i => add a (mul b (of_Z (Z.of_nat i)))) (seq 0 n).

(** Each price is strictly below the next one. *)
Fixpoint strictlyIncreasing (prices : list num) : bool :=
  match prices with
  | p :: (q :: _) as rest => ltb p q && strictlyIncreasing rest
  | _ => true
  end.

(** The fallback leaves the last value alone: the sequence is empty or its
    last value is a number other than zero. *)
Definition keepsLast (xs : list num) : Prop :=
  xs = [] \/ truthy (lastOrZero xs) = true.
End Reference.

(** ** IEEE 754 binary64 *)

Module F64.
Definition prec : Z := 53.
Definition emax : Z := 1024.

Definition float : Type := spec_float.

Definition zero : float := S754_zero false.
Definition ofZ (z : Z) : float := binary_normalize prec emax z 0 false.

Definition isNaNb (x : float) : bool :=
  match x with S754_nan => true | _ => false end.

Definition isNegZero (x : float) : bool :=
  match x with S754_zero true => true | _ => false end.

(** [Math.max(a, b)]: [NaN] if either is, and [+0] is larger than [-0]. *)
Definition max (a b : float) : float :=
  match SFcompare a b with
  | None => S754_nan
  | Some Lt => b
  | Some Gt => a
  | Some Eq => if isNegZero a then b else a
  end.

(** [Math.min(a, b)]: [NaN] if either is, and [-0] is smaller than [+0]. *)
Definition min (a b : float) : float :=
  match SFcompare a b with
  | None => S754_nan
  | Some Lt => a
  | Some Gt => b
  | Some Eq => if isNegZero a then a else b
  end.

(** [Math.round(x)]: the integer nearest to [x], ties towards +infinity;
    the sign of [x] is kept when the result is zero. *)
Definition round (x : float) : float :=
  match x with
  | S754_finite s m e =>
      if (0 <=? e)%Z then x
      else
        let k := (- e)%Z in
        let n := cond_Zopp s (Zpos m) in
        let z := ((2 * n + 2 ^ k) / 2 ^ (k + 1))%Z in
        if (z =? 0)%Z then S754_zero s else ofZ z
  | _ => x
  end.

(** The same double, bit for bit. *)
Definition same (x y : float) : bool :=
  match x, y with
  | S754_zero s, S754_zero s' => Bool.eqb s s'
  | S754_infinity s, S754_infinity s' => Bool.eqb s s'
  | S754_nan, S754_nan => true
  | S754_finite s m e, S754_finite s' m' e' =>
      Bool.eqb s s' && Pos.eqb m m' && Z.eqb e e'
  | _, _ => false
  end.

(** A finite number: neither NaN nor an infinity. *)
Definition isFinite (x : float) : bool :=
  match x with
  | S754_zero _ | S754_finite _ _ _ => true
  | _ => false
  end.

(** Strictly positive: a positive finite number or +infinity. *)
Definition isPositive (x : float) : bool :=
  match x with
  | S754_finite false _ _ | S754_infinity false => true
  | _ => false
  end.

(** The integer part of a finite number (0 for the others). *)
Definition toZ (x : float) : Z :=
  match x with
  | S754_finite s m e =>
      cond_Zopp s (if (0 <=? e)%Z then Zpos m * 2 ^ e
                   else Z.quot (Zpos m) (2 ^ (- e)))%Z
  | _ => 0%Z
  end.
End F64.

#[export] Instance binary64 : JSNumber F64.float := {|
  NaN := S754_nan;
  of_Z := F64.ofZ;
  add := SFadd F64.prec F64.emax;
  sub := SFsub F64.prec F64.emax;
  mul := SFmul F64.prec F64.emax;
  div := SFdiv F64.prec F64.emax;
  ltb := SFltb;
  eqb := SFeqb;
  isNaN := F64.isNaNb;
  Math_abs := SFabs;
  Math_max := F64.max;
  Math_min := F64.min;
  Math_round := F64.round;
  isNaN_NaN := eq_refl
|}.

(** ** Exact arithmetic

    Rationals without rounding.  The program does not run on them; they
    state the value a formula has on paper. *)

Module Exact.
(** A rational, or not a number. *)
Inductive t : Type := XNaN | XVal (q : Qc).

Definition qz (z : Z) : Qc := Q2Qc (inject_Z z).

Definition ofZ (z : Z) : t := XVal (qz z).

Definition lift2 (op : Qc -> Qc -> Qc) (a b : t) : t :=
  match a, b with
  | XVal x, XVal y => XVal (op x y)
  | _, _ => XNaN
  end.

(** Division by zero has no rational value. *)
Definition divide (a b : t) : t :=
  match a, b with
  | XVal x, XVal y => if Qc_eq_dec y (Q2Qc 0) then XNaN else XVal (x / y)%Qc
  | _, _ => XNaN
  end.

Definition lt (a b : t) : bool :=
  match a, b with
  | XVal x, XVal y => match (x ?= y)%Qc with Lt => true | _ => false end
  | _, _ => false
  end.

Definition eq (a b : t) : bool :=
  match a, b with
  | XVal x, XVal y => if Qc_eq_dec x y then true else false
  | _, _ => false
  end.

Definition isNaNb (a : t) : bool :=
  match a with XNaN => true | XVal _ => false end.

Definition abs (a : t) : t :=
  match a with
  | XVal x => XVal (if lt a (ofZ 0) then (- x)%Qc else x)
  | XNaN => XNaN
  end.

Definition max (a b : t) : t :=
  match a, b with
  | XVal _, XVal _ => if lt a b then b else a
  | _, _ => XNaN
  end.

Definition min (a b : t) : t :=
  match a, b with
  | XVal _, XVal _ => if lt b a then b else a
  | _, _ => XNaN
  end.

Definition round (a : t) : t :=
  match a with
  | XVal x => ofZ (Qfloor (x + Q2Qc (1 # 2))%Qc)
  | XNaN => XNaN
  end.
End Exact.

#[export] Instance exact : JSNumber Exact.t := {|
  NaN := Exact.XNaN;
  of_Z := Exact.ofZ;
  add := Exact.lift2 Qcplus;
  sub := Exact.lift2 Qcminus;
  mul := Exact.lift2 Qcmult;
  div := Exact.divide;
  ltb := Exact.lt;
  eqb := Exact.eq;
  isNaN := Exact.isNaNb;
  Math_abs := Exact.abs;
  Math_max := Exact.max;
  Math_min := Exact.min;
  Math_round := Exact.round;
  isNaN_NaN := eq_refl
|}.

(** ** Definitions on doubles *)

(** The double nearest to 0.1. *)
Definition tenth : F64.float := div (of_Z 1) (of_Z 10).

(** The prices 1, 2, ..., 26. *)
Definition oneTo26 : list F64.float :=
  map (fun i => of_Z (Z.of_nat i)) (seq 1 26).

(** Forty prices on the line [2^1017 * i]: finite and strictly increasing,
    the largest being [39 * 2^1017 < 2^1023]. *)
Definition steepLine : list F64.float :=
  linearPrices (of_Z 0) (of_Z (2 ^ 1017)) 40.

(** The whole prices 1 to 300 and the three EMA windows of the source. *)
Definition wholePrices : list Z := map Z.of_nat (seq 1 300).

Definition emaWindows : list nat := [9; 12; 26]%nat.

(** The average of [W] copies of the whole price [v] is [v]. *)
Definition seedIsExact (v : Z) (W : nat) : bool :=
  F64.same (mean (repeat (of_Z v) W)) (of_Z v).

(** The points each label stands for. *)
Definition trendPoints (t : Trend) : Z :=
  match t with bullish => 15 | bearish => -15 | neutralTrend => 0 end.

Definition sma200Points (above : bool) : Z := if above then 10 else -10.

Definition rsiPoints (r : RsiSignal) : Z :=
  match r with oversold => 10 | overbought => -10 | neutralRsi => 0 end.

Definition macdPoints (m : MacdSignal) : Z :=
  match m with buy => 10 | sell => -10 | neutralMacd => 0 end.

(** The clamp of line 179. *)
Definition clamp (score : F64.float) : F64.float :=
  Math_max (of_Z 0) (Math_min (of_Z 100) score).

(** What "the sma200 adjustment is applied" means for the score: it is the
    baseline, the points of the three labels, and 10 points up or down
    according to the price standing above sma200 or not. *)
Definition sma200Adjusted (currentPrice : F64.float)
           (indicators : TechnicalIndicators F64.float) : Prop :=
  let r := analyzeStock currentPrice indicators in
  rawScore currentPrice indicators
  = of_Z (50 + trendPoints (Signals.trend r)
          + sma200Points (gtb currentPrice (toNumber (sma200 indicators)))
          + rsiPoints (Signals.rsiSignal r)
          + macdPoints (Signals.macdSignal r)).

(** A bar that closes at [c]. *)
Definition barAt (c : F64.float) : StockPrice F64.float :=
  {| id := 0; stockId := 0; date := 0; open := c; high := c; low := c;
     close := c; volume := None |}.

(** Flat prices: 250 days at 100. *)
Definition flatBars : list (StockPrice F64.float) :=
  repeat (barAt (of_Z 100)) 250.

(** A snapshot and a price on which every rule votes up, and one on which
    every rule votes down. *)
Definition snapshotOf (s20 s50 s200 r m ms mh : Z)
  : TechnicalIndicators F64.float :=
  {| sma20 := Some (of_Z s20); sma50 := Some (of_Z s50);
     sma200 := Some (of_Z s200); ema12 := None; ema26 := None;
     rsi := Some (of_Z r); macd := Some (of_Z m);
     macdSignal := Some (of_Z ms); macdHistogram := Some (of_Z mh) |}.

Definition allBullish : TechnicalIndicators F64.float :=
  snapshotOf 105 100 90 25 2 1 1.

Definition allBearish : TechnicalIndicators F64.float :=
  snapshotOf 90 100 110 75 (-2) (-1) (-1).

(** The snapshot of a short history: 60 days at 100, too few for sma200. *)
Definition shortHistory : TechnicalIndicators F64.float :=
  calculateIndicators (repeat (barAt (of_Z 100)) 60).

(** Three moving averages that are present, the first of them zero. *)
Definition zeroSma20 : TechnicalIndicators F64.float :=
  {| sma20 := Some (of_Z 0); sma50 := Some (of_Z 5); sma200 := Some (of_Z 5);
     ema12 := None; ema26 := None; rsi := None; macd := None;
     macdSignal := None; macdHistogram := None |}.

Definition allVotes (t : Trend) (r : RsiSignal) (m : MacdSignal)
           (s : Signals.t F64.float) : Prop :=
  Signals.trend s = t /\ Signals.rsiSignal s = r /\ Signals.macdSignal s = m.

(** ** Doubles as rational numbers

    Every finite double is a rational number [m * 2^e].  The definitions
    below give that number, and the vocabulary in which the rounding error of
    the four operations is stated. *)

Section Values.
Local Open Scope Q_scope.

Definition pow2 (e : Z) : Q := 2 ^ e.

Definition signQ (s : bool) : Q := if s then -1 else 1.

(** The value of a finite double (0 for NaN and the infinities). *)
Definition toQ (x : F64.float) : Q :=
  match x with
  | S754_finite s m e => signQ s * (inject_Z (Zpos m) * pow2 e)
  | _ => 0
  end.

(** A double as the machine holds it: finite, with the mantissa and the
    exponent in the range of binary64. *)
Definition isDouble (x : F64.float) : bool :=
  F64.isFinite x && valid_binary F64.prec F64.emax x.

(** A mantissa with its round and sticky bits stands for the number [Y],
    counted in units of the last place. *)
Definition rec_inb (mrs : shr_record) (Y : Q) : Prop :=
  (0 <= shr_m mrs)%Z
  /\ match shr_r mrs, shr_s mrs with
     | false, false => Y == inject_Z (shr_m mrs)
     | false, true =>
         inject_Z (shr_m mrs) < Y /\ Y < inject_Z (shr_m mrs) + (1 # 2)
     | true, false => Y == inject_Z (shr_m mrs) + (1 # 2)
     | true, true =>
         inject_Z (shr_m mrs) + (1 # 2) < Y /\ Y < inject_Z (shr_m mrs) + 1
     end.

(** The unit round-off [2^-53] and half the smallest positive double. *)
Definition unitRoundoff : Q := 1 # 9007199254740992.
Definition tiny : Q := pow2 (-1075).

(** The exact sum of the values of a sequence of doubles. *)
Definition sumQ (xs : list F64.float) : Q :=
  fold_right (fun x s => toQ x + s) 0 xs.

(** The line [a + b * i] and the sum of [n] of its values from index [s]. *)
Definition lineAt (a b : Q) (i : nat) : Q := a + b * inject_Z (Z.of_nat i).

Fixpoint sumLine (a b : Q) (s n : nat) : Q :=
  match n with
  | O => 0
  | S n' => lineAt a b s + sumLine a b (S s) n'
  end.

(** [x] is a double within [E] of the number [X]. *)
Definition near (x : F64.float) (X E : Q) : Prop :=
  isDouble x = true /\ X - E <= toQ x /\ toQ x <= X + E.

(** The largest ratio of a price to the slope of its line: 2^48. *)
Definition ratio : Q := 281474976710656.

(** How far a price may be from the line: the rounding error of a number
    up to [ratio * b]. *)
Definition tolerance (b : Q) : Q := (1 # 32) * b + tiny.

(** A price sequence that follows the line [a + b * i] within the
    tolerance, the line staying within [P] of zero. *)
Definition followsLine (a b P : Q) (prices : list F64.float) : Prop :=
  forall i, (i < length prices)%nat ->
    (exists p, nth_error prices i = Some p
               /\ isDouble p = true
               /\ lineAt a b i - tolerance b <= toQ p
               /\ toQ p <= lineAt a b i + tolerance b)
    /\ - P <= lineAt a b i /\ lineAt a b i <= P.

(** A price sequence along the line [a + b * i]: every price is a double
    within [b / 32 + 2^-1075] of the line, and the line stays within
    [2^48 * b] and within [2^1017] of zero. *)
Definition nearLine (a b : Q) (prices : list F64.float) : Prop :=
  forall (i : nat) (p : F64.float),
    nth_error prices i = Some p ->
    isDouble p = true
    /\ (lineAt a b i - tolerance b <= toQ p
        /\ toQ p <= lineAt a b i + tolerance b)
    /\ (- (ratio * b) <= lineAt a b i /\ lineAt a b i <= ratio * b)
    /\ (- pow2 1017 <= lineAt a b i /\ lineAt a b i <= pow2 1017).

(** The prices 0.1 + 0.3 * i as the program computes them, i = 0, ..., 39. *)
Definition tenthsLine : list F64.float :=
  linearPrices (div (of_Z 1) (of_Z 10)) (div (of_Z 3) (of_Z 10)) 40.
End Values.

(** ** The market-data module (server/yahoo.ts)

    The provider's answers and the clock are inputs: a lookup is a function
    from a symbol to what the provider call did, and [getMarketStatus]
    takes the reading of the New York clock.  Logging is left out. *)

(** A quote as the provider returns it; every field but the symbol may be
    missing. *)
Module Quote.
Record t (num : Type) : Type := {
  symbol : string;
  shortName : option string;
  longName : option string;
  sector : option string;
  marketCap : option num;
  trailingPE : option num;
  dividendYield : option num;
  fiftyTwoWeekHigh : option num;
  fiftyTwoWeekLow : option num;
  regularMarketPrice : option num;
  regularMarketChange : option num;
  regularMarketChangePercent : option num;
  regularMarketPreviousClose : option num
}.
End Quote.

(** What [await yahooFinance.quote(symbol)] does: it throws, or it returns
    a quote or nothing. *)
Inductive QuoteReply (num : Type) : Type :=
| Threw
| Replied (quote : option (Quote.t num)).
Arguments Threw {num}.

(** A row to insert into the [stocks] table. *)
Module InsertStock.
Record t (num : Type) : Type := {
  symbol : string;
  name : string;
  sector : option string;
  marketCap : option num;
  peRatio : option num;
  dividendYield : option num;
  fiftyTwoWeekHigh : option num;
  fiftyTwoWeekLow : option num
}.
End InsertStock.

(** The result of [fetchStockQuote]. *)
Module StockQuote.
Record t (num : Type) : Type := {
  stock : InsertStock.t num;
  currentPrice : num;
  priceChange : num;
  priceChangePercent : num
}.
End StockQuote.

(** One entry of the result of [fetchMarketIndices]. *)
Module IndexQuote.
Record t (num : Type) : Type := {
  symbol : string;
  name : string;
  value : num;
  change : num;
  changePercent : num;
  previousClose : num
}.
End IndexQuote.

Inductive MarketStatus : Type :=
| marketOpen | marketClosed | preMarket | afterHours.

(** A row of the [portfolio_holdings] table. *)
Module Holding.
Record t (num : Type) : Type := {
  id : Z;
  stockId : Z;
  shares : num;
  averageCost : num;
  targetPrice : option num;
  stopLoss : option num;
  notes : option string
}.
End Holding.

(** The body of a POST to /api/transactions. *)
Module TransactionData.
Record t (num : Type) : Type := {
  stockId : Z;
  type : string;
  shares : num;
  price : num;
  fees : option num;
  date : Z;
  notes : option string
}.
End TransactionData.

(** The write the transaction handler makes to the holdings table. *)
Inductive HoldingWrite (num : Type) : Type :=
| UpdateHolding (id : Z) (shares : num) (averageCost : option num)
| CreateHolding (stockId : Z) (shares averageCost : num)
| DeleteHolding (id : Z)
| NoWrite.
Arguments NoWrite {num}.
Arguments DeleteHolding {num} id.

(** The figures the dashboard and the portfolio page add to a holding
    (type [HoldingWithStock]). *)
Module HoldingWithStock.
Record t (num : Type) : Type := {
  currentPrice : num;
  totalValue : num;
  gainLoss : num;
  gainLossPercent : num
}.
End HoldingWithStock.

Section MarketData.
Context {num : Type} `{JSNumber num}.

(** [a <= b]. *)
Definition leb (a b : num) : bool := ltb a b || eqb a b.

(** [v || null] on a number. *)
Definition orNull (v : option num) : option num :=
  match v with
  | Some x => if truthy x then Some x else None
  | None => None
  end.

(** ToBoolean on a possibly missing string: the empty string is falsy. *)
Definition truthyS (v : option string) : bool :=
  match v with
  | Some s => negb (String.eqb s EmptyString)
  | None => false
  end.

(** [v || null] on a string. *)
Definition orNullS (v : option string) : option string :=
  if truthyS v then v else None.

(** [a || b] where [b] is a string. *)
Definition orElseS (a : option string) (b : string) : string :=
  match a with
  | Some s => if truthyS a then s else b
  | None => b
  end.

Definition fetchStockQuote (lookup : string -> QuoteReply num)
           (symbol : string) : option (StockQuote.t num) :=
  match lookup symbol with
  | Threw => None
  | Replied None => None
  | Replied (Some quote) =>
      if negb (truthyO (Quote.regularMarketPrice quote)) then None
      else
        let stock :=
          {| InsertStock.symbol := Quote.symbol quote;
             InsertStock.name :=
               orElseS (Quote.shortName quote)
                       (orElseS (Quote.longName quote) (Quote.symbol quote));
             InsertStock.sector := orNullS (Quote.sector quote);
             InsertStock.marketCap := orNull (Quote.marketCap quote);
             InsertStock.peRatio := orNull (Quote.trailingPE quote);
             InsertStock.dividendYield := orNull (Quote.dividendYield quote);
             InsertStock.fiftyTwoWeekHigh :=
               orNull (Quote.fiftyTwoWeekHigh quote);
             InsertStock.fiftyTwoWeekLow :=
               orNull (Quote.fiftyTwoWeekLow quote) |} in
        Some {| StockQuote.stock := stock;
                StockQuote.currentPrice :=
                  toNumber (Quote.regularMarketPrice quote);
                StockQuote.priceChange :=
                  orZero (Quote.regularMarketChange quote);
                StockQuote.priceChangePercent :=
                  orZero (Quote.regularMarketChangePercent quote) |}
  end.

Definition indexSymbols : list (string * string) :=
  [ ("^GSPC", "S&P 500");
    ("^IXIC", "NASDAQ Composite");
    ("^DJI", "Dow Jones Industrial Average");
    ("^RUT", "Russell 2000");
    ("^VIX", "CBOE Volatility Index");
    ("^TNX", "10-Year Treasury Yield") ]%string.

(** Reading a field of a missing quote throws, which the handler of the
    entry catches like a failed lookup. *)
Definition fetchMarketIndices (lookup : string -> QuoteReply num)
  : list (IndexQuote.t num) :=
  map (fun '(symbol, name) =>
         match lookup symbol with
         | Replied (Some quote) =>
             {| IndexQuote.symbol := symbol;
                IndexQuote.name := name;
                IndexQuote.value := orZero (Quote.regularMarketPrice quote);
                IndexQuote.change := orZero (Quote.regularMarketChange quote);
                IndexQuote.changePercent :=
                  orZero (Quote.regularMarketChangePercent quote);
                IndexQuote.previousClose :=
                  orZero (Quote.regularMarketPreviousClose quote) |}
         | _ =>
             {| IndexQuote.symbol := symbol;
                IndexQuote.name := name;
                IndexQuote.value := of_Z 0;
                IndexQuote.change := of_Z 0;
                IndexQuote.changePercent := of_Z 0;
                IndexQuote.previousClose := of_Z 0 |}
         end)
      indexSymbols.

(** [day], [hours] and [minutes] are [getDay()], [getHours()] and
    [getMinutes()] of the New York time. *)
Definition getMarketStatus (day hours minutes : Z) : MarketStatus :=
  let time := (hours * 60 + minutes)%Z in
  if (day =? 0)%Z || (day =? 6)%Z then marketClosed
  else if (240 <=? time)%Z && (time <? 570)%Z then preMarket
  else if (570 <=? time)%Z && (time <? 960)%Z then marketOpen
  else if (960 <=? time)%Z && (time <? 1200)%Z then afterHours
  else marketClosed.

(** ** The callers (server/routes.ts, client/src/pages/analysis.tsx) *)

(** The holdings write of POST /api/transactions (routes.ts, lines
    301-333), given what [getHoldingByStock] returned.  The handler has
    inserted the transaction row before (line 299), whatever the type of
    the transaction; that insert is not part of this function. *)
Definition holdingWrite (existingHolding : option (Holding.t num))
           (data : TransactionData.t num) : HoldingWrite num :=
  if String.eqb (TransactionData.type data) "buy" then
    match existingHolding with
    | Some existing =>
        let newTotalShares :=
          add (Holding.shares existing) (TransactionData.shares data) in
        let newTotalCost :=
          add (mul (Holding.shares existing) (Holding.averageCost existing))
              (mul (TransactionData.shares data) (TransactionData.price data)) in
        let newAverageCost := div newTotalCost newTotalShares in
        UpdateHolding (Holding.id existing) newTotalShares
                      (Some newAverageCost)
    | None =>
        CreateHolding (TransactionData.stockId data)
                      (TransactionData.shares data)
                      (TransactionData.price data)
    end
  else
    match String.eqb (TransactionData.type data) "sell", existingHolding with
    | true, Some existing =>
        let newShares :=
          sub (Holding.shares existing) (TransactionData.shares data) in
        if leb newShares (of_Z 0) then DeleteHolding (Holding.id existing)
        else UpdateHolding (Holding.id existing) newShares None
    | _, _ => NoWrite
    end.

(** [isNaN(x) ? 0 : x]. *)
Definition nanToZero (x : num) : num := if isNaN x then of_Z 0 else x.

(** The figures of one holding whose stock was found, in GET /api/dashboard
    (routes.ts, lines 25-46) and GET /api/portfolio (lines 220-241):
    [latestClose] is [latestPrice?.close], and [quote] is what
    [fetchStockQuote(stock.symbol).catch(() => null)] gives when the
    handler asks for it, which it does only without a stored price. *)
Definition holdingWithStock (holding : Holding.t num)
           (latestClose : option num) (quote : option (StockQuote.t num))
  : HoldingWithStock.t num :=
  let currentPrice :=
    match latestClose with
    | Some close => close
    | None =>
        let quotePrice := option_map (@StockQuote.currentPrice num) quote in
        if truthyO quotePrice then toNumber quotePrice
        else Holding.averageCost holding
    end in
  let totalValue := mul (Holding.shares holding) currentPrice in
  let totalCost :=
    mul (Holding.shares holding) (Holding.averageCost holding) in
  let gainLoss := sub totalValue totalCost in
  let gainLossPercent :=
    if gtb totalCost (of_Z 0) then mul (div gainLoss totalCost) (of_Z 100)
    else of_Z 0 in
  {| HoldingWithStock.currentPrice := orZero (Some currentPrice);
     HoldingWithStock.totalValue := nanToZero totalValue;
     HoldingWithStock.gainLoss := nanToZero gainLoss;
     HoldingWithStock.gainLossPercent := nanToZero gainLossPercent |}.

(** The current price of GET /api/analysis/:symbol (routes.ts, line 457):
    [quote?.currentPrice || prices[0]?.close || 0], the stored prices
    coming newest first. *)
Definition analysisPrice (quote : option (StockQuote.t num))
           (prices : list (StockPrice num)) : num :=
  let quotePrice := option_map (@StockQuote.currentPrice num) quote in
  let storedPrice := option_map (@close num) (at_ prices 0) in
  if truthyO quotePrice then toNumber quotePrice
  else if truthyO storedPrice then toNumber storedPrice
  else of_Z 0.

(** What the handler computes from the quote and the stored prices (lines
    452-459): the chronological prices, the snapshot, the signals and the
    two chart series. *)
Definition analysisOf (quote : option (StockQuote.t num))
           (prices : list (StockPrice num))
  : list (StockPrice num) * TechnicalIndicators num * Signals.t num
    * SMAArrays.t num :=
  let chronologicalPrices := rev prices in
  let indicators := calculateIndicators chronologicalPrices in
  let currentPrice := analysisPrice quote prices in
  let signals := analyzeStock currentPrice indicators in
  let smaArrays := getSMAArrays chronologicalPrices in
  (chronologicalPrices, indicators, signals, smaArrays).

(** The line under the score on the analysis page (analysis.tsx, lines
    274-280) and the title of the recommendation card (lines 409-413). *)
Definition signalHeadline (overallScore : num) : string :=
  if geb overallScore (of_Z 70) then "Strong Buy Signal"
  else if geb overallScore (of_Z 50) then "Moderate Buy Signal"
  else if geb overallScore (of_Z 40) then "Hold / Neutral"
  else "Caution Advised".

Definition recommendation (overallScore : num) : string :=
  if geb overallScore (of_Z 60) then "Consider Buying"
  else if geb overallScore (of_Z 40) then "Hold / Monitor"
  else "Exercise Caution".
End MarketData.

(** A holding of 10 shares bought at 5, and the sale of some of its
    shares. *)
Definition tenShares : Holding.t F64.float :=
  {| Holding.id := 1; Holding.stockId := 2; Holding.shares := of_Z 10;
     Holding.averageCost := of_Z 5; Holding.targetPrice := None;
     Holding.stopLoss := None; Holding.notes := None |}.

Definition sellOf (shares : F64.float) : TransactionData.t F64.float :=
  {| TransactionData.stockId := 2; TransactionData.type := "sell";
     TransactionData.shares := shares; TransactionData.price := of_Z 6;
     TransactionData.fees := None; TransactionData.date := 0;
     TransactionData.notes := None |}.

(** ** Loops that push one element per iteration *)

Section PushLoops.
Context {A : Type}.
Variable g : nat -> list A -> A.
Variable body : nat -> list A -> list A.
Hypothesis body_pushes : forall i r, body i r = push r (g i r).

Lemma forRange_succ {St : Type} (b : nat -> St -> St) (n : nat) (s : St) :
  forRange 0 (S n) b s = b n (forRange 0 n b s).
Proof.
  unfold forRange. rewrite !Nat.sub_0_r, seq_S, fold_left_app. reflexivity.
Qed.

Lemma pushLoop_length (n : nat) : length (forRange 0 n body []) = n.
Proof.
  induction n as [|n IH]; [reflexivity|].
  rewrite forRange_succ, body_pushes. unfold push.
  rewrite length_app, IH. simpl. lia.
Qed.

Lemma pushLoop_prefix (n m : nat) :
  (m <= n)%nat -> firstn m (forRange 0 n body []) = forRange 0 m body [].
Proof.
  induction n as [|n IH]; intros Hm.
  - replace m with 0%nat by lia. reflexivity.
  - destruct (Nat.eq_dec m (S n)) as [->|Hne].
    + apply firstn_all2. rewrite pushLoop_length. lia.
    + rewrite forRange_succ, body_pushes. unfold push.
      rewrite firstn_app, pushLoop_length.
      replace (m - n)%nat with 0%nat by lia.
      rewrite firstn_O, app_nil_r. apply IH. lia.
Qed.

Lemma pushLoop_nth (n i : nat) :
  (i < n)%nat ->
  nth_error (forRange 0 n body []) i = Some (g i (forRange 0 i body [])).
Proof.
  induction n as [|n IH]; intros Hi; [lia|].
  rewrite forRange_succ, body_pushes. unfold push.
  destruct (Nat.eq_dec i n) as [->|Hne].
  - rewrite nth_error_app2; rewrite pushLoop_length; [|lia].
    rewrite Nat.sub_diag. reflexivity.
  - rewrite nth_error_app1 by (rewrite pushLoop_length; lia).
    apply IH. lia.
Qed.
End PushLoops.

(** ** Array facts *)

Section ArrayFacts.
Context {A : Type}.

Lemma at_nth (arr : list A) (i : nat) :
  at_ arr (Z.of_nat i) = nth_error arr i.
Proof.
  unfold at_. destruct (Z.ltb_spec (Z.of_nat i) 0); [lia|].
  now rewrite Nat2Z.id.
Qed.

Lemma at_prefix (arr : list A) (n : nat) (i : Z) :
  (i < Z.of_nat n)%Z -> at_ (firstn n arr) i = at_ arr i.
Proof.
  intros Hi. unfold at_. destruct (Z.ltb_spec i 0); [reflexivity|].
  rewrite nth_error_firstn.
  destruct (Nat.ltb_spec (Z.to_nat i) n); [reflexivity|lia].
Qed.

Lemma at_outside (arr : list A) (i : Z) :
  (i < 0 \/ Z.of_nat (length arr) <= i)%Z -> at_ arr i = None.
Proof.
  intros Hi. unfold at_. destruct (Z.ltb_spec i 0); [reflexivity|].
  apply nth_error_None. lia.
Qed.

Lemma slice_inside (arr : list A) (a b : Z) :
  (0 <= a <= b)%Z -> (b <= Z.of_nat (length arr))%Z ->
  slice arr a b = firstn (Z.to_nat (b - a)) (skipn (Z.to_nat a) arr).
Proof.
  intros Ha Hb. unfold slice, relIndex.
  destruct (Z.ltb_spec a 0); [lia|]. destruct (Z.ltb_spec b 0); [lia|].
  now rewrite !Z.min_l by lia.
Qed.

Lemma length_firstn_skipn (arr : list A) (k n : nat) :
  (k + n <= length arr)%nat -> length (firstn n (skipn k arr)) = n.
Proof. intros Hk. rewrite length_firstn, length_skipn. lia. Qed.
End ArrayFacts.

(** ** The moving averages, index by index *)

Section MovingAverages.
Context {num : Type} `{JSNumber num}.

Lemma calculateSMA_length (prices : list num) (period : Z) :
  length (calculateSMA prices period) = length prices.
Proof.
  unfold calculateSMA.
  apply pushLoop_length with (g := fun i _ => smaEntry prices period i).
  intros i r. unfold smaEntry. now destruct (_ <? _)%Z.
Qed.

Lemma calculateSMA_nth (prices : list num) (period : Z) (i : nat) :
  (i < length prices)%nat ->
  nth_error (calculateSMA prices period) i = Some (smaEntry prices period i).
Proof.
  intros Hi. unfold calculateSMA.
  rewrite pushLoop_nth with (g := fun i _ => smaEntry prices period i);
    [reflexivity| |assumption].
  intros j r. unfold smaEntry. now destruct (_ <? _)%Z.
Qed.

Lemma calculateEMA_pushes (prices : list num) (period : Z) (i : nat)
      (r : list num) :
  (let i := Z.of_nat i in
   if (i <? period - 1)%Z then push r NaN
   else if (i =? period - 1)%Z then
     let sum := reduce add (slice prices 0 period) (of_Z 0) in
     push r (div sum (of_Z period))
   else
     let ema :=
       add (mul (sub (get prices i) (get r (i - 1)))
                (div (of_Z 2) (add (of_Z period) (of_Z 1))))
           (get r (i - 1)) in
     push r ema)
  = push r (emaEntry prices period i r).
Proof.
  unfold emaEntry, emaStep, emaMultiplier. cbv zeta.
  destruct (_ <? _)%Z; [reflexivity|]. now destruct (_ =? _)%Z.
Qed.

Lemma calculateEMA_length (prices : list num) (period : Z) :
  length (calculateEMA prices period) = length prices.
Proof.
  unfold calculateEMA.
  apply pushLoop_length with (g := emaEntry prices period).
  apply calculateEMA_pushes.
Qed.

Lemma calculateEMA_nth (prices : list num) (period : Z) (i : nat) :
  (i < length prices)%nat ->
  nth_error (calculateEMA prices period) i
  = Some (emaEntry prices period i (calculateEMA prices period)).
Proof.
  intros Hi. unfold calculateEMA. cbv zeta.
  rewrite pushLoop_nth with (g := emaEntry prices period);
    [|apply calculateEMA_pushes|assumption].
  rewrite <- pushLoop_prefix
    with (n := length prices) (g := emaEntry prices period);
    [|apply calculateEMA_pushes|lia].
  f_equal. unfold emaEntry.
  destruct (_ <? _)%Z; [reflexivity|]. destruct (_ =? _)%Z; [reflexivity|].
  unfold get. now rewrite at_prefix by lia.
Qed.
End MovingAverages.

(** ** The moving averages against their description *)

Section MovingAveragesSpec.
Context {num : Type} `{JSNumber num}.

Lemma window_length (prices : list num) (i W : Z) :
  (1 <= W)%Z -> (W - 1 <= i < Z.of_nat (length prices))%Z ->
  Z.of_nat (length (window prices i W)) = W.
Proof.
  intros HW Hi. unfold window. rewrite length_firstn_skipn; lia.
Qed.

Lemma calculateSMA_before (prices : list num) (W i : Z) :
  (0 <= i < W - 1)%Z -> (i < Z.of_nat (length prices))%Z ->
  at_ (calculateSMA prices W) i = Some NaN.
Proof.
  intros Hi Hlen. rewrite <- (Z2Nat.id i) by lia.
  rewrite at_nth, calculateSMA_nth by lia. unfold smaEntry.
  rewrite Z2Nat.id by lia. now destruct (Z.ltb_spec i (W - 1)); [|lia].
Qed.

Lemma calculateSMA_mean (prices : list num) (W i : Z) :
  (1 <= W)%Z -> (W - 1 <= i < Z.of_nat (length prices))%Z ->
  at_ (calculateSMA prices W) i = Some (mean (window prices i W)).
Proof.
  intros HW Hi. unfold mean. rewrite window_length by assumption.
  rewrite <- (Z2Nat.id i) at 1 by lia.
  rewrite at_nth, calculateSMA_nth by lia. unfold smaEntry.
  rewrite Z2Nat.id by lia. destruct (Z.ltb_spec i (W - 1)); [lia|].
  rewrite slice_inside by lia. unfold reduce, window.
  now replace (i + 1 - (i - W + 1))%Z with W by lia.
Qed.

Lemma calculateEMA_before (prices : list num) (W i : Z) :
  (0 <= i < W - 1)%Z -> (i < Z.of_nat (length prices))%Z ->
  at_ (calculateEMA prices W) i = Some NaN.
Proof.
  intros Hi Hlen. rewrite <- (Z2Nat.id i) by lia.
  rewrite at_nth, calculateEMA_nth by lia. unfold emaEntry.
  rewrite Z2Nat.id by lia. now destruct (Z.ltb_spec i (W - 1)); [|lia].
Qed.

Lemma calculateEMA_seed (prices : list num) (W : Z) :
  (1 <= W <= Z.of_nat (length prices))%Z ->
  at_ (calculateEMA prices W) (W - 1)
  = Some (mean (firstn (Z.to_nat W) prices)).
Proof.
  intros HW. unfold mean. rewrite length_firstn, Nat.min_l, Z2Nat.id by lia.
  rewrite <- (Z2Nat.id (W - 1)) at 1 by lia.
  rewrite at_nth, calculateEMA_nth by lia. unfold emaEntry.
  rewrite Z2Nat.id by lia. destruct (Z.ltb_spec (W - 1) (W - 1)); [lia|].
  rewrite Z.eqb_refl, slice_inside by lia. unfold reduce. simpl skipn.
  now rewrite Z.sub_0_r.
Qed.

Lemma calculateEMA_step (prices : list num) (W i : Z) :
  (0 <= i)%Z -> (W - 1 < i < Z.of_nat (length prices))%Z ->
  at_ (calculateEMA prices W) i
  = Some (emaStep W (get prices i) (get (calculateEMA prices W) (i - 1))).
Proof.
  intros Hi0 Hi. rewrite <- (Z2Nat.id i) at 1 by lia.
  rewrite at_nth, calculateEMA_nth by lia. unfold emaEntry.
  rewrite Z2Nat.id by lia. destruct (Z.ltb_spec i (W - 1)); [lia|].
  now destruct (Z.eqb_spec i (W - 1)); [lia|].
Qed.

Lemma startsConstant_firstn (prices : list num) (n : nat) (v : num) :
  startsConstant prices (Z.of_nat n) v -> firstn n prices = repeat v n.
Proof.
  revert prices. induction n as [|n IH]; intros prices Hc; [reflexivity|].
  destruct prices as [|p prices].
  - specialize (Hc 0%Z ltac:(lia)). discriminate.
  - simpl. f_equal.
    + specialize (Hc 0%Z ltac:(lia)). now injection Hc.
    + apply IH. intros j Hj. specialize (Hc (j + 1)%Z ltac:(lia)).
      unfold at_ in *. destruct (Z.ltb_spec (j + 1) 0); [lia|].
      destruct (Z.ltb_spec j 0); [lia|].
      now replace (Z.to_nat (j + 1)) with (S (Z.to_nat j)) in Hc by lia.
Qed.

Lemma calculateEMA_constant_seed (prices : list num) (W : Z) (v : num) :
  (1 <= W <= Z.of_nat (length prices))%Z ->
  startsConstant prices W v ->
  at_ (calculateEMA prices W) (W - 1) = Some (mean (repeat v (Z.to_nat W))).
Proof.
  intros HW Hc. rewrite calculateEMA_seed by assumption.
  rewrite (@startsConstant_firstn prices (Z.to_nat W) v); [reflexivity|].
  now rewrite Z2Nat.id by lia.
Qed.
End MovingAveragesSpec.

(** ** MACD *)

Section Macd.
Context {num : Type} `{JSNumber num}.

Lemma at_last {A : Type} (arr : list A) :
  at_ arr (Z.of_nat (length arr) - 1)
  = match rev arr with [] => None | x :: _ => Some x end.
Proof.
  destruct arr as [|a arr] using rev_ind; [reflexivity|].
  rewrite rev_app_distr, length_app. simpl.
  replace (Z.of_nat (length arr + 1) - 1)%Z with (Z.of_nat (length arr)) by lia.
  rewrite at_nth, nth_error_app2, Nat.sub_diag by lia. reflexivity.
Qed.

Lemma orZero_last (arr : list num) :
  orZero (at_ arr (Z.of_nat (length arr) - 1)) = lastNumberOrZero arr.
Proof.
  rewrite at_last. unfold lastNumberOrZero, orZero, truthy.
  destruct (rev arr) as [|x l]; [reflexivity|].
  now destruct (isNaN x || eqb x (of_Z 0)).
Qed.

Lemma nth_error_combine {A B : Type} (xs : list A) (ys : list B) (i : nat)
      (x : A) (y : B) :
  nth_error xs i = Some x -> nth_error ys i = Some y ->
  nth_error (combine xs ys) i = Some (x, y).
Proof.
  revert ys i. induction xs as [|a xs IH]; intros [|b ys] [|i]; simpl;
    try discriminate.
  - now intros [= ->] [= ->].
  - apply IH.
Qed.

Lemma get_nth (arr : list num) (i : nat) (v : num) :
  nth_error arr i = Some v -> get arr (Z.of_nat i) = v.
Proof. intros Hv. unfold get. now rewrite at_nth, Hv. Qed.

Lemma macdLineOf_length (prices : list num) :
  length (macdLineOf prices) = length prices.
Proof.
  unfold macdLineOf. cbv zeta.
  apply pushLoop_length
    with (g := fun i (_ : list num) =>
                 let e12 := get (calculateEMA prices 12) (Z.of_nat i) in
                 let e26 := get (calculateEMA prices 26) (Z.of_nat i) in
                 if isNaN e12 || isNaN e26 then NaN else sub e12 e26).
  intros i r. cbv zeta. now destruct (_ || _).
Qed.

Lemma macdLineOf_nth (prices : list num) (i : nat) :
  (i < length prices)%nat ->
  nth_error (macdLineOf prices) i
  = Some (let e12 := get (calculateEMA prices 12) (Z.of_nat i) in
          let e26 := get (calculateEMA prices 26) (Z.of_nat i) in
          if isNaN e12 || isNaN e26 then NaN else sub e12 e26).
Proof.
  intros Hi. unfold macdLineOf. cbv zeta.
  rewrite pushLoop_nth
    with (g := fun i (_ : list num) =>
                 let e12 := get (calculateEMA prices 12) (Z.of_nat i) in
                 let e26 := get (calculateEMA prices 26) (Z.of_nat i) in
                 if isNaN e12 || isNaN e26 then NaN else sub e12 e26);
    [reflexivity| |assumption].
  intros j r. cbv zeta. now destruct (_ || _).
Qed.

(** The index loop of the source builds the line of the specification. *)
Lemma macdLineOf_spec (prices : list num) :
  macdLineOf prices = macdLineSpec prices.
Proof.
  apply nth_error_ext. intros i.
  destruct (Nat.lt_ge_cases i (length prices)) as [Hi|Hi].
  - rewrite macdLineOf_nth by assumption. unfold macdLineSpec.
    pose proof (calculateEMA_nth prices 12 Hi) as H12.
    pose proof (calculateEMA_nth prices 26 Hi) as H26.
    rewrite nth_error_map, (nth_error_combine _ _ _ H12 H26). simpl.
    now rewrite (get_nth _ _ H12), (get_nth _ _ H26).
  - transitivity (@None num); [|symmetry]; apply nth_error_None.
    + now rewrite macdLineOf_length.
    + unfold macdLineSpec.
      rewrite length_map, length_combine, !calculateEMA_length. lia.
Qed.

Lemma validMacdOf_spec (prices : list num) :
  validMacdOf prices = compact (macdLineSpec prices).
Proof. unfold validMacdOf, compact. now rewrite macdLineOf_spec. Qed.

(** The source computes MACD with the fallback on every falsy last value. *)
Lemma calculateMACD_fallback (prices : list num) :
  calculateMACD prices = macdFallback prices.
Proof.
  unfold calculateMACD, macdFallback, signalLineOf. cbv zeta.
  now rewrite !orZero_last, validMacdOf_spec.
Qed.

(** Below 26 prices no entry of the MACD line is defined. *)
Lemma validMacdOf_short (prices : list num) :
  (length prices < 26)%nat -> validMacdOf prices = [].
Proof.
  intros Hlen. unfold validMacdOf.
  assert (Hall : Forall (fun v => negb (isNaN v) = false) (macdLineOf prices)).
  { apply Forall_forall. intros v Hv.
    apply In_nth_error in Hv as [i Hi].
    assert (Hlt : (i < length prices)%nat).
    { rewrite <- macdLineOf_length. apply nth_error_Some. congruence. }
    rewrite macdLineOf_nth in Hi by assumption. injection Hi as <-. cbv zeta.
    rewrite (get_nth _ _ (calculateEMA_nth prices 26 Hlt)). unfold emaEntry.
    destruct (Z.ltb_spec (Z.of_nat i) (26 - 1)); [|lia].
    now rewrite isNaN_NaN, orb_true_r, isNaN_NaN. }
  induction Hall as [|v l Hv _ IH]; [reflexivity|].
  simpl. now rewrite Hv.
Qed.

Lemma calculateMACD_short (prices : list num) :
  (length prices < 26)%nat ->
  calculateMACD prices
  = {| MACD.macd := of_Z 0; MACD.signal := of_Z 0;
       MACD.histogram := sub (of_Z 0) (of_Z 0) |}.
Proof.
  intros Hlen. unfold calculateMACD, signalLineOf. cbv zeta.
  now rewrite validMacdOf_short.
Qed.
Lemma lastNumberOrZero_kept (xs : list num) :
  keepsLast xs -> lastNumberOrZero xs = lastOrZero xs.
Proof.
  unfold keepsLast, lastNumberOrZero, lastOrZero, truthy.
  intros [->|Hlast]; [reflexivity|].
  destruct (rev xs) as [|x l]; [reflexivity|].
  now destruct (isNaN x || eqb x (of_Z 0)).
Qed.

Lemma calculateMACD_spec_when_kept (prices : list num) :
  keepsLast (compact (macdLineSpec prices)) ->
  keepsLast (calculateEMA (compact (macdLineSpec prices)) 9) ->
  calculateMACD prices = macdSpec prices.
Proof.
  intros Hline Hsignal. rewrite calculateMACD_fallback.
  unfold macdFallback, macdSpec. cbv zeta.
  now rewrite !lastNumberOrZero_kept by assumption.
Qed.
End Macd.

(** ** The scorer, adjustment by adjustment *)

Section Scorer.
Context {num : Type} `{JSNumber num}.

Lemma scoreAndLabels_adjustments (currentPrice : num)
      (indicators : TechnicalIndicators num) :
  let '(score, t, r, m) := scoreAndLabels currentPrice indicators in
  score = applyMacd m (applyRsi r (afterSmaBlock currentPrice indicators t))
  /\ (smaGuard indicators = false -> t = neutralTrend).
Proof.
  unfold scoreAndLabels, afterSmaBlock, smaGuard.
  destruct indicators as [s20 s50 s200 e12 e26 r m ms mh].
  cbn [sma20 sma50 sma200 rsi macd macdSignal macdHistogram].
  set (guard := truthyO s20 && truthyO s50 && truthyO s200).
  set (above := gtb currentPrice (toNumber s200)).
  set (up := gtb currentPrice (toNumber s20)
             && gtb (toNumber s20) (toNumber s50)).
  set (down := ltb currentPrice (toNumber s20)
               && ltb (toNumber s20) (toNumber s50)).
  destruct guard, up, down, above, r as [r|], m as [m|], ms as [ms|];
    cbv zeta beta iota; unfold applySma200;
    repeat match goal with
           | |- context [if ?b then _ else _] => destruct b
           end;
    (split; [reflexivity | try reflexivity; discriminate]).
Qed.
End Scorer.

(** ** The scorer on doubles *)

Section ScorerBinary64.

(** Every sum of adjustments is a whole number from 5 to 95, which the
    clamp and the rounding leave alone. *)
Lemma adjustments_in_range (t : Trend) (r : RsiSignal) (m : MacdSignal)
      (above guard : bool) :
  let score : F64.float :=
    applyMacd m
      (applyRsi r (if guard then applySma200 above (applyTrend t (of_Z 50))
                   else of_Z 50)) in
  (5 <= F64.toZ score <= 95)%Z
  /\ score = of_Z (F64.toZ score)
  /\ F64.toZ score
     = (50 + (if guard then trendPoints t + sma200Points above else 0)
        + rsiPoints r + macdPoints m)%Z
  /\ clamp score = score
  /\ Math_round score = score
  /\ gtb score (of_Z 100) = false
  /\ ltb score (of_Z 0) = false.
Proof.
  destruct t, r, m, above, guard; vm_compute;
    repeat split; intros; discriminate.
Qed.

Lemma scorer_range (currentPrice : F64.float)
      (indicators : TechnicalIndicators F64.float) :
  exists n : Z,
    (5 <= n <= 95)%Z
    /\ rawScore currentPrice indicators = of_Z n
    /\ clamp (rawScore currentPrice indicators)
       = rawScore currentPrice indicators
    /\ Signals.overallScore (analyzeStock currentPrice indicators) = of_Z n
    /\ gtb (rawScore currentPrice indicators) (of_Z 100) = false
    /\ ltb (rawScore currentPrice indicators) (of_Z 0) = false.
Proof.
  unfold rawScore, analyzeStock.
  pose proof (scoreAndLabels_adjustments currentPrice indicators) as Hs.
  destruct (scoreAndLabels currentPrice indicators) as [[[score t] r] m].
  destruct Hs as [-> _]. unfold afterSmaBlock.
  pose proof (adjustments_in_range t r m
                (gtb currentPrice (toNumber (sma200 indicators)))
                (smaGuard indicators)) as Hr.
  cbv zeta in Hr. cbn [Signals.overallScore].
  set (score := applyMacd _ _) in *.
  destruct Hr as (Hn & Hz & _ & Hc & Hround & Hhi & Hlo).
  exists (F64.toZ score). fold (clamp score).
  rewrite Hc, Hround. auto 10.
Qed.
End ScorerBinary64.

(** ** RSI *)

Section Rsi.
Context {num : Type} `{JSNumber num}.

Lemma forRange_push_map {A : Type} (h : nat -> A) (start stop : nat)
      (acc : list A) :
  forRange start stop (fun i r => push r (h i)) acc
  = acc ++ map h (seq start (stop - start)).
Proof.
  unfold forRange. generalize (stop - start)%nat as n. intros n.
  revert start acc. induction n as [|n IH]; intros start acc; simpl.
  - now rewrite app_nil_r.
  - rewrite IH. unfold push. now rewrite <- app_assoc.
Qed.

Lemma sliceFrom_last {A : Type} (arr : list A) (p : Z) :
  (1 <= p <= Z.of_nat (length arr))%Z ->
  sliceFrom arr (- p) = skipn (length arr - Z.to_nat p) arr.
Proof.
  intros Hp. unfold sliceFrom, slice, relIndex.
  destruct (Z.ltb_spec (- p) 0); [|lia].
  destruct (Z.ltb_spec (Z.of_nat (length arr)) 0); [lia|].
  rewrite Z.min_id, Z.max_l by lia.
  replace (Z.to_nat (Z.of_nat (length arr) + - p))
    with (length arr - Z.to_nat p)%nat by lia.
  apply firstn_all2. rewrite length_skipn. lia.
Qed.

Lemma calculateRSI_recent (prices : list num) (period : option Z) :
  let P := rsiPeriod period in
  let n := length prices in
  (1 <= P)%Z -> (P + 1 <= Z.of_nat n)%Z ->
  calculateRSI prices period
  = let '(gains, losses) :=
      fold_left tally
        (map (fun i => change prices (Z.of_nat i))
             (seq (n - Z.to_nat P) (Z.to_nat P)))
        (of_Z 0, of_Z 0) in
    let avgGain := div gains (of_Z P) in
    let avgLoss := div losses (of_Z P) in
    if eqb avgLoss (of_Z 0) then of_Z 100
    else sub (of_Z 100) (div (of_Z 100) (add (of_Z 1) (div avgGain avgLoss))).
Proof.
  intros P n HP Hn. unfold calculateRSI. cbv zeta. fold P. fold n.
  destruct (Z.ltb_spec (Z.of_nat n) (P + 1)); [lia|].
  unfold change.
  rewrite forRange_push_map
    with (h := fun i => sub (get prices (Z.of_nat i))
                            (get prices (Z.of_nat i - 1))).
  cbn [app]. rewrite sliceFrom_last by (rewrite length_map, length_seq; lia).
  rewrite length_map, length_seq, skipn_map, skipn_seq.
  replace (1 + (n - 1 - Z.to_nat P))%nat with (n - Z.to_nat P)%nat by lia.
  replace (n - 1 - (n - 1 - Z.to_nat P))%nat with (Z.to_nat P) by lia.
  reflexivity.
Qed.
End Rsi.

(** ** Rounding an integer to a double *)

Section Binary64Facts.
Local Open Scope Z_scope.

Lemma digits2_pos_lower (m : positive) :
  2 ^ (Zpos (digits2_pos m) - 1) <= Zpos m.
Proof.
  induction m as [m IH|m IH|]; cbn [digits2_pos]; [| |simpl; lia];
    rewrite Pos2Z.inj_succ;
    replace (Z.succ (Zpos (digits2_pos m)) - 1)
      with (Z.succ (Zpos (digits2_pos m) - 1)) by lia;
    rewrite Z.pow_succ_r by lia; lia.
Qed.

Lemma shr_1_m (mrs : shr_record) :
  0 <= shr_m mrs -> shr_m (shr_1 mrs) = shr_m mrs / 2.
Proof.
  destruct mrs as [m r s]. cbn [shr_m]. intros Hm.
  destruct m as [|[p|p|]|p]; cbn [shr_1 shr_m]; try lia; try reflexivity.
  - rewrite Pos2Z.inj_xI. apply Z.div_unique with (r := 1); lia.
  - rewrite Pos2Z.inj_xO. apply Z.div_unique with (r := 0); lia.
Qed.

Lemma iter_shr_1_m (p : positive) (mrs : shr_record) :
  0 <= shr_m mrs ->
  shr_m (iter_pos shr_1 p mrs) = shr_m mrs / 2 ^ Zpos p.
Proof.
  revert mrs. induction p as [p IH|p IH|]; intros mrs Hm; cbn [iter_pos].
  - assert (H1 : 0 <= shr_m (shr_1 mrs))
      by (rewrite shr_1_m by assumption; apply Z.div_pos; lia).
    assert (H2 : 0 <= shr_m (iter_pos shr_1 p (shr_1 mrs)))
      by (rewrite IH by assumption; apply Z.div_pos; lia).
    rewrite (IH _ H2), (IH _ H1), shr_1_m by assumption.
    rewrite !Z.div_div by lia. f_equal.
    replace (Z.pos p~1) with (Z.pos p + Z.pos p + 1) by lia.
    rewrite !Z.pow_add_r, Z.pow_1_r by lia. ring.
  - assert (H2 : 0 <= shr_m (iter_pos shr_1 p mrs))
      by (rewrite IH by assumption; apply Z.div_pos; lia).
    rewrite (IH _ H2), (IH _ Hm).
    rewrite !Z.div_div by lia. f_equal.
    replace (Z.pos p~0) with (Z.pos p + Z.pos p) by lia.
    rewrite Z.pow_add_r by lia. ring.
  - rewrite shr_1_m by assumption. reflexivity.
Qed.

Lemma shr_record_of_loc_m (m : Z) (l : location) :
  shr_m (shr_record_of_loc m l) = m.
Proof. now destruct l as [|[]]. Qed.

(** One rounding shift keeps a positive mantissa positive when the
    exponent is not below the smallest one. *)
Lemma shr_fexp_positive (m e : Z) (l : location) :
  0 < m -> -1074 <= e ->
  0 < shr_m (fst (shr_fexp F64.prec F64.emax m e l))
  /\ -1074 <= snd (shr_fexp F64.prec F64.emax m e l).
Proof.
  intros Hm He. unfold shr_fexp, shr, fexp, emin, F64.prec, F64.emax.
  destruct m as [|p|p]; try lia. cbn [Zdigits2].
  pose proof (digits2_pos_lower p) as Hd.
  set (d := Z.pos (digits2_pos p)) in *.
  destruct (Z.max (d + e - 53) (3 - 1024 - 53) - e) as [|q|q] eqn:Hn;
    cbn [fst snd]; rewrite ?shr_record_of_loc_m; try lia.
  rewrite iter_shr_1_m by (rewrite shr_record_of_loc_m; lia).
  rewrite shr_record_of_loc_m. split; [|lia].
  apply Z.div_str_pos. split; [lia|].
  apply Z.le_trans with (2 ^ (d - 1)); [|assumption].
  apply Z.pow_le_mono_r; lia.
Qed.

Lemma round_nearest_even_positive (m : Z) (l : location) :
  0 < m -> 0 < round_nearest_even m l.
Proof.
  intros Hm. destruct l as [|[]]; cbn [round_nearest_even]; try lia.
  destruct (Z.even m); lia.
Qed.

Lemma binary_round_aux_positive (m e : Z) (l : location) :
  0 < m -> -1074 <= e ->
  F64.isPositive (binary_round_aux F64.prec F64.emax false m e l) = true.
Proof.
  intros Hm He. unfold binary_round_aux.
  destruct (shr_fexp_positive l Hm He) as [Hm1 He1].
  destruct (shr_fexp F64.prec F64.emax m e l) as [mrs1 e1].
  cbn [fst snd] in Hm1, He1.
  pose proof (round_nearest_even_positive (loc_of_shr_record mrs1) Hm1) as Hr.
  destruct (shr_fexp_positive loc_Exact Hr He1) as [Hm2 _].
  destruct (shr_fexp F64.prec F64.emax _ e1 loc_Exact) as [mrs2 e2].
  cbn [fst] in Hm2. destruct (shr_m mrs2); try lia.
  now destruct (_ <=? _).
Qed.

Lemma ofZ_positive (z : Z) : 0 < z -> F64.isPositive (F64.ofZ z) = true.
Proof.
  intros Hz. destruct z as [|p|p]; try lia.
  unfold F64.ofZ, binary_normalize, binary_round, shl_align.
  set (ex := fexp F64.prec F64.emax (Z.pos (digits2_pos p) + 0)).
  assert (Hex : -1074 <= ex)
    by (unfold ex, fexp, emin, F64.prec, F64.emax; lia).
  destruct (ex - 0) eqn:Hd; apply binary_round_aux_positive; lia.
Qed.

Lemma same_eq (x y : F64.float) : F64.same x y = true -> x = y.
Proof.
  destruct x as [s|s| |s m e], y as [s'|s'| |s' m' e']; cbn;
    try discriminate; try reflexivity.
  - intros Hs. now apply Bool.eqb_prop in Hs as ->.
  - intros Hs. now apply Bool.eqb_prop in Hs as ->.
  - intros Hs. apply andb_prop in Hs as [Hs He]. apply andb_prop in Hs as [Hs Hm].
    apply Bool.eqb_prop in Hs as ->. apply Pos.eqb_eq in Hm as ->.
    now apply Z.eqb_eq in He as ->.
Qed.

Lemma eqb_zero_is_zero (c : F64.float) :
  eqb c (of_Z 0) = true -> exists s, c = S754_zero s.
Proof.
  destruct c as [s|[]| |[] m e]; cbn; try discriminate. now exists s.
Qed.

Lemma tally_no_loss (cs : list F64.float) (gains : F64.float) :
  Forall (fun c => geb c (of_Z 0) = true) cs ->
  snd (fold_left tally cs (gains, F64.zero)) = F64.zero.
Proof.
  intros Hcs. revert gains.
  induction Hcs as [|c cs Hc _ IH]; intros gains; [reflexivity|].
  cbn [fold_left]. unfold tally at 2. unfold geb in Hc.
  fold (gtb c (of_Z 0)) in Hc.
  destruct (gtb c (of_Z 0)); [apply IH|].
  destruct (eqb_zero_is_zero c Hc) as [s ->]. apply IH.
Qed.

Lemma div_zero_positive (y : F64.float) :
  F64.isPositive y = true -> div F64.zero y = F64.zero.
Proof.
  destruct y as [s|[]| |[] m e]; cbn; intros; (discriminate || reflexivity).
Qed.

End Binary64Facts.

(** ** Exact arithmetic on constant prices *)

Section ExactFacts.
Import Exact.

Ltac qc_to_q :=
  apply Qc_is_canon;
  unfold Exact.qz, Qcdiv, Qcminus, Qcplus, Qcmult, Qcinv, Qcopp, Q2Qc;
  cbn [this];
  rewrite ?Qred_correct.

Lemma qz_add (x y : Z) : qz (x + y) = (qz x + qz y)%Qc.
Proof. qc_to_q. now rewrite inject_Z_plus. Qed.

Lemma qz_succ (n : nat) : qz (Z.of_nat (S n)) = (qz (Z.of_nat n) + qz 1)%Qc.
Proof. now rewrite Nat2Z.inj_succ, <- qz_add. Qed.

Lemma qz_nonzero (z : Z) : z <> 0%Z -> qz z <> Q2Qc 0.
Proof.
  intros Hz Heq. apply (f_equal this) in Heq. unfold qz in Heq.
  cbn [this Q2Qc] in Heq. apply Qred_eq_iff in Heq.
  unfold Qeq in Heq. simpl in Heq. lia.
Qed.

Lemma inject_Z_nonzero (z : Z) : z <> 0%Z -> ~ inject_Z z == 0.
Proof. intros Hz Heq. unfold Qeq in Heq. simpl in Heq. lia. Qed.

Lemma inject_Z_succ_nonzero (z : Z) : (0 <= z)%Z -> ~ inject_Z z + 1 == 0.
Proof.
  intros Hz Heq. unfold Qeq in Heq. simpl in Heq. lia.
Qed.

Lemma div_val (x y : Qc) :
  y <> Q2Qc 0 -> div (XVal x) (XVal y) = XVal (x / y)%Qc.
Proof.
  intros Hy. cbn. now destruct (Qc_eq_dec y (Q2Qc 0)).
Qed.

Lemma sum_repeat (v s : Qc) (n : nat) :
  fold_left add (repeat (XVal v) n) (XVal s)
  = XVal (s + qz (Z.of_nat n) * v)%Qc.
Proof.
  revert s. induction n as [|n IH]; intros s.
  - simpl. f_equal. qc_to_q. ring.
  - cbn [repeat fold_left].
    change (add (XVal s) (XVal v)) with (XVal (s + v)%Qc).
    rewrite IH, qz_succ. f_equal. qc_to_q. ring.
Qed.

Lemma mean_repeat (v : Qc) (n : nat) :
  (1 <= n)%nat -> mean (repeat (XVal v) n) = XVal v.
Proof.
  intros Hn. unfold mean. rewrite repeat_length.
  change (of_Z 0) with (XVal (qz 0)). rewrite sum_repeat.
  change (of_Z (Z.of_nat n)) with (XVal (qz (Z.of_nat n))).
  rewrite div_val by (apply qz_nonzero; lia).
  f_equal. qc_to_q. field. apply inject_Z_nonzero. lia.
Qed.

End ExactFacts.

(** ** The operations and the pipeline on sample values *)

Section Samples.

Example of_Z_100 :
  (of_Z 100 : F64.float) = S754_finite false (25 * 2 ^ 48) (-46).
Proof. reflexivity. Qed.

Example tenth_bits : tenth = S754_finite false 7205759403792794 (-56).
Proof. reflexivity. Qed.

(** [Math.round] rounds halves up, keeps the sign of a zero result and is
    exact just below one half. *)
Example round_samples :
  F64.round (div (of_Z 5) (of_Z 2)) = of_Z 3
  /\ F64.round (div (of_Z (-5)) (of_Z 2)) = of_Z (-2)
  /\ F64.round (div (of_Z (-1)) (of_Z 2)) = S754_zero true
  /\ F64.round (S754_finite false (2 ^ 53 - 1) (-54)) = S754_zero false
  /\ F64.round (of_Z 95) = of_Z 95
  /\ F64.round S754_nan = S754_nan.
Proof. repeat split. Qed.

Example max_min_samples :
  F64.max (S754_zero true) (S754_zero false) = S754_zero false
  /\ F64.min (S754_zero false) (S754_zero true) = S754_zero true
  /\ F64.max (of_Z 0) S754_nan = S754_nan
  /\ F64.min (of_Z 100) (of_Z 95) = of_Z 95
  /\ F64.max (of_Z 0) (of_Z (-3)) = of_Z 0.
Proof. repeat split. Qed.

(** Flat prices give equal averages, RSI 100 through the zero-loss branch,
    a zero MACD, and the score 50 - 10 - 10 = 30. *)
Example flat_prices :
  let snapshot := calculateIndicators flatBars in
  sma20 snapshot = Some (of_Z 100) /\ sma50 snapshot = Some (of_Z 100)
  /\ sma200 snapshot = Some (of_Z 100) /\ rsi snapshot = Some (of_Z 100)
  /\ macd snapshot = Some (of_Z 0)
  /\ analyzeStock (of_Z 100) snapshot
     = {| Signals.trend := neutralTrend; Signals.rsiSignal := overbought;
          Signals.macdSignal := neutralMacd; Signals.overallScore := of_Z 30 |}.
Proof. vm_compute. repeat split. Qed.

(** The same sample in both arithmetics. *)
Example sma_sample_exact :
  map Exact.isNaNb (calculateSMA (map of_Z [1; 2; 3; 4; 5]%Z) 3)
  = [true; true; false; false; false].
Proof. reflexivity. Qed.

End Samples.

(** ** The rounding error of the four operations

    The operations of [SpecFloat] round the exact result to the nearest
    double, ties to even.  For operands that are doubles and an exact result
    [X] below 2^1023 in magnitude, the result is a double within
    [2^-53 * |X| + 2^-1075] of [X]. *)

Section Rounding.
Local Open Scope Q_scope.

Lemma pow2_pos (e : Z) : 0 < pow2 e.
Proof. apply Qpower_0_lt. reflexivity. Qed.

Lemma pow2_add (a b : Z) : pow2 (a + b) == pow2 a * pow2 b.
Proof. apply Qpower_plus. discriminate. Qed.

Lemma pow2_0 : pow2 0 == 1.
Proof. reflexivity. Qed.

Lemma pow2_1 : pow2 1 == 2.
Proof. reflexivity. Qed.

Lemma pow2_m1 : pow2 (-1) == (1 # 2).
Proof. reflexivity. Qed.

Lemma pow2_succ (a : Z) : pow2 (a + 1) == 2 * pow2 a.
Proof. rewrite pow2_add, pow2_1. ring. Qed.

Lemma pow2_pred (a : Z) : pow2 (a - 1) == (1 # 2) * pow2 a.
Proof.
  replace (a - 1)%Z with (a + -1)%Z by lia. rewrite pow2_add, pow2_m1. ring.
Qed.

Lemma pow2_le (a b : Z) : (a <= b)%Z -> pow2 a <= pow2 b.
Proof. intros H. apply Qpower_le_compat_l; [assumption|]. lra. Qed.

Lemma pow2_lt (a b : Z) : (a < b)%Z -> pow2 a < pow2 b.
Proof. intros H. apply Qpower_lt_compat_l; [assumption|]. lra. Qed.

Lemma pow2_lt_inv (a b : Z) : pow2 a < pow2 b -> (a < b)%Z.
Proof. intros H. apply Qpower_lt_compat_l_inv with (q := 2); [assumption|lra]. Qed.

Lemma pow2_le_inv (a b : Z) : pow2 a <= pow2 b -> (a <= b)%Z.
Proof. intros H. apply Qpower_le_compat_l_inv with (q := 2); [assumption|lra]. Qed.

Lemma pow2_Z (a : Z) : (0 <= a)%Z -> pow2 a == inject_Z (2 ^ a).
Proof. intros H. unfold pow2. now rewrite Zpower_Qpower. Qed.

Lemma pow2_cancel (a : Z) : pow2 a * pow2 (- a) == 1.
Proof. rewrite <- pow2_add. now replace (a + - a)%Z with 0%Z by lia. Qed.

(** The number of binary digits. *)

Lemma digits2_pos_upper (m : positive) :
  (Zpos m < 2 ^ Zpos (digits2_pos m))%Z.
Proof.
  induction m as [m IH|m IH|]; cbn [digits2_pos]; [| |simpl; lia];
    rewrite Pos2Z.inj_succ, Z.pow_succ_r by lia; lia.
Qed.

Lemma Zdigits2_nonneg (m : Z) : (0 <= Zdigits2 m)%Z.
Proof. destruct m; simpl; lia. Qed.

Lemma Zdigits2_pos (m : Z) : (0 < m)%Z -> (1 <= Zdigits2 m)%Z.
Proof. destruct m; simpl; lia. Qed.

(** [2^(d-1) <= m < 2^d] for the number of digits [d] of [m > 0]. *)
Lemma Zdigits2_lower (m : Z) :
  (0 < m)%Z -> pow2 (Zdigits2 m - 1) <= inject_Z m.
Proof.
  intros Hm. destruct m as [|p|p]; try lia. cbn [Zdigits2].
  rewrite pow2_Z by lia. rewrite <- Zle_Qle. apply digits2_pos_lower.
Qed.

Lemma Zdigits2_upper (m : Z) :
  (0 <= m)%Z -> inject_Z m + 1 <= pow2 (Zdigits2 m).
Proof.
  intros Hm. destruct m as [|p|p]; try lia; cbn [Zdigits2].
  - rewrite pow2_0. unfold inject_Z. lra.
  - rewrite pow2_Z by lia.
    pose proof (digits2_pos_upper p) as Hu.
    assert (Hz : (Zpos p + 1 <= 2 ^ Zpos (digits2_pos p))%Z) by lia.
    rewrite Zle_Qle in Hz. now rewrite inject_Z_plus in Hz.
Qed.

Lemma Zdigits2_le (m d : Z) :
  (0 <= m)%Z -> (0 <= d)%Z -> inject_Z m < pow2 d -> (Zdigits2 m <= d)%Z.
Proof.
  intros Hm Hd Hlt. destruct (Z.eq_dec m 0) as [->|Hne]; [simpl; lia|].
  pose proof (@Zdigits2_lower m ltac:(lia)) as Hl.
  assert (Hp : pow2 (Zdigits2 m - 1) < pow2 d) by lra.
  apply pow2_lt_inv in Hp. lia.
Qed.

Lemma Zdigits2_ge (m d : Z) :
  (0 <= m)%Z -> pow2 (d - 1) <= inject_Z m -> (d <= Zdigits2 m)%Z.
Proof.
  intros Hm Hle. pose proof (Zdigits2_upper Hm) as Hu.
  assert (Hp : pow2 (d - 1) < pow2 (Zdigits2 m)) by lra.
  apply pow2_lt_inv in Hp. lia.
Qed.

(** Shifting a mantissa right keeps track of the digits it drops in a
    round bit and a sticky bit. *)

Lemma rec_inb_ext (mrs : shr_record) (Y Y' : Q) :
  Y == Y' -> rec_inb mrs Y -> rec_inb mrs Y'.
Proof.
  intros HY [Hm H]. split; [assumption|].
  destruct (shr_r mrs), (shr_s mrs); lra.
Qed.

Lemma rec_inb_bounds (mrs : shr_record) (Y : Q) :
  rec_inb mrs Y ->
  inject_Z (shr_m mrs) <= Y /\ Y < inject_Z (shr_m mrs) + 1.
Proof.
  intros [Hm H]. destruct (shr_r mrs), (shr_s mrs); lra.
Qed.

Lemma inject_Z_xO (p : positive) : inject_Z (Zpos p~0) == 2 * inject_Z (Zpos p).
Proof. unfold Qeq. simpl. lia. Qed.

Lemma inject_Z_xI (p : positive) :
  inject_Z (Zpos p~1) == 2 * inject_Z (Zpos p) + 1.
Proof. unfold Qeq. simpl. lia. Qed.

Lemma shr_1_inb (mrs : shr_record) (Y : Q) :
  rec_inb mrs Y -> rec_inb (shr_1 mrs) (Y * (1 # 2)).
Proof.
  destruct mrs as [m r s]. unfold rec_inb. cbn [shr_m shr_r shr_s].
  intros [Hm H].
  destruct m as [|p|p]; [| |lia].
  - destruct r, s; cbn; (split; [lia|]); change (inject_Z 0) with 0 in *; lra.
  - destruct p as [p|p|].
    + pose proof (inject_Z_xI p).
      destruct r, s; cbn; (split; [lia|]); lra.
    + pose proof (inject_Z_xO p).
      destruct r, s; cbn; (split; [lia|]); lra.
    + change (inject_Z 1) with 1 in *. change (inject_Z 0) with 0.
      destruct r, s; cbn; (split; [lia|]); change (inject_Z 0) with 0; lra.
Qed.

Lemma iter_shr_inb (p : positive) :
  forall (mrs : shr_record) (Y : Q),
    rec_inb mrs Y -> rec_inb (iter_pos shr_1 p mrs) (Y * pow2 (- Zpos p)).
Proof.
  induction p as [p IH|p IH|]; intros mrs Y HY; cbn [iter_pos].
  - apply rec_inb_ext
      with (Y := Y * (1 # 2) * pow2 (- Zpos p) * pow2 (- Zpos p)).
    + replace (- Zpos p~1)%Z with (- Zpos p + (- Zpos p + -1))%Z by lia.
      rewrite !pow2_add, pow2_m1. ring.
    + apply IH, IH. now apply shr_1_inb.
  - apply rec_inb_ext with (Y := Y * pow2 (- Zpos p) * pow2 (- Zpos p)).
    + replace (- Zpos p~0)%Z with (- Zpos p + - Zpos p)%Z by lia.
      rewrite !pow2_add. ring.
    + now apply IH, IH.
  - apply rec_inb_ext with (Y := Y * (1 # 2)).
    + cbn [Z.opp]. rewrite pow2_m1. reflexivity.
    + now apply shr_1_inb.
Qed.

Lemma shr_inb (mrs : shr_record) (e n : Z) (Y : Q) :
  (0 <= n)%Z -> rec_inb mrs Y ->
  rec_inb (fst (shr mrs e n)) (Y * pow2 (- n))
  /\ snd (shr mrs e n) = (e + n)%Z.
Proof.
  intros Hn HY. destruct n as [|p|p]; [| |lia]; cbn [shr fst snd].
  - split; [|lia]. apply rec_inb_ext with (Y := Y); [|assumption].
    change (- 0)%Z with 0%Z. rewrite pow2_0. ring.
  - split; [|reflexivity]. now apply iter_shr_inb.
Qed.

Lemma shr_noop (mrs : shr_record) (e n : Z) :
  (n <= 0)%Z -> shr mrs e n = (mrs, e).
Proof. destruct n as [|p|p]; try lia; reflexivity. Qed.

Lemma round_nearest_even_inb (mrs : shr_record) (Y : Q) :
  rec_inb mrs Y ->
  let m' := round_nearest_even (shr_m mrs) (loc_of_shr_record mrs) in
  (m' = shr_m mrs \/ m' = (shr_m mrs + 1)%Z)
  /\ inject_Z m' - (1 # 2) <= Y /\ Y <= inject_Z m' + (1 # 2).
Proof.
  destruct mrs as [m r s]. unfold rec_inb. cbn [shr_m shr_r shr_s].
  intros [Hm H].
  destruct r, s; cbn [loc_of_shr_record round_nearest_even];
    try (destruct (Z.even m));
    rewrite ?inject_Z_plus; change (inject_Z 1) with 1;
    (split; [auto|]); lra.
Qed.

(** Rounding to nearest, ties to even: the result is a double within half
    a unit in the last place. *)

Lemma fexp_eq (x : Z) :
  fexp F64.prec F64.emax x = Z.max (x - 53) (-1074).
Proof. reflexivity. Qed.

Lemma shr_m_of_loc (m : Z) (l : location) : shr_m (shr_record_of_loc m l) = m.
Proof. now destruct l as [|[]]. Qed.

Lemma loc_of_shr_record_of_loc (m : Z) (l : location) :
  loc_of_shr_record (shr_record_of_loc m l) = l.
Proof. now destruct l as [|[]]. Qed.

Lemma inject_Z_lt_pow2 (m d : Z) :
  (0 <= d)%Z -> inject_Z m < pow2 d -> (m < 2 ^ d)%Z.
Proof. intros Hd H. rewrite pow2_Z in H by assumption. now rewrite <- Zlt_Qlt in H. Qed.

Lemma pow2_le_inject_Z (m d : Z) :
  (0 <= d)%Z -> (2 ^ d <= m)%Z -> pow2 d <= inject_Z m.
Proof. intros Hd H. rewrite pow2_Z by assumption. now rewrite <- Zle_Qle. Qed.

Lemma binary_round_aux_spec (s : bool) (m0 e0 : Z) (l : location) (Y : Q) :
  rec_inb (shr_record_of_loc m0 l) Y ->
  (e0 <= fexp F64.prec F64.emax (Zdigits2 m0 + e0))%Z ->
  Y * pow2 e0 < pow2 1023 ->
  exists a : Q,
    isDouble (binary_round_aux F64.prec F64.emax s m0 e0 l) = true
    /\ toQ (binary_round_aux F64.prec F64.emax s m0 e0 l) == signQ s * a
    /\ Y * pow2 e0
       - (1 # 2) * pow2 (fexp F64.prec F64.emax (Zdigits2 m0 + e0)) <= a
    /\ a <= Y * pow2 e0
            + (1 # 2) * pow2 (fexp F64.prec F64.emax (Zdigits2 m0 + e0)).
Proof.
  intros HY Hn Hov.
  assert (Hm0 : (0 <= m0)%Z).
  { destruct HY as [Hm _]. now rewrite shr_m_of_loc in Hm. }
  set (D := (Zdigits2 m0 + e0)%Z) in *.
  set (e1 := fexp F64.prec F64.emax D) in *.
  assert (He1 : e1 = Z.max (D - 53) (-1074)) by apply fexp_eq.
  pose proof (Zdigits2_nonneg m0) as Hd0.
  (* the value lies below 2^D, and above 2^(D-1) when it is not below 1 unit *)
  pose proof (rec_inb_bounds HY) as [HYlo HYhi]. rewrite shr_m_of_loc in HYlo, HYhi.
  pose proof (Zdigits2_upper Hm0) as Hup.
  assert (HYD : Y * pow2 e0 < pow2 D).
  { unfold D. rewrite pow2_add. apply Qmult_lt_compat_r; [apply pow2_pos|lra]. }
  assert (HYD' : (0 < m0)%Z -> pow2 (D - 1) <= Y * pow2 e0).
  { intros Hpos. replace (D - 1)%Z with ((Zdigits2 m0 - 1) + e0)%Z by (unfold D; lia).
    rewrite pow2_add. apply Qmult_le_compat_r; [|apply Qlt_le_weak, pow2_pos].
    pose proof (Zdigits2_lower Hpos). lra. }
  assert (Hzero : m0 = 0%Z -> e1 = (-1074)%Z).
  { intros Hz. assert (HD : D = e0) by (unfold D; rewrite Hz; reflexivity). lia. }
  (* the first shift *)
  unfold binary_round_aux, shr_fexp. fold D e1.
  destruct (@shr_inb (shr_record_of_loc m0 l) e0 (e1 - e0) Y ltac:(lia) HY)
    as [H1 H1e].
  destruct (shr (shr_record_of_loc m0 l) e0 (e1 - e0)) as [mrs1 e1'].
  cbn [fst snd] in H1, H1e. subst e1'.
  replace (e0 + (e1 - e0))%Z with e1 by lia.
  set (Y1 := Y * pow2 (- (e1 - e0))) in *.
  assert (HY1 : Y1 * pow2 e1 == Y * pow2 e0).
  { unfold Y1. replace e1 with ((e1 - e0) + e0)%Z at 2 by lia.
    rewrite pow2_add. rewrite <- (Qmult_1_r (Y * pow2 e0)) at 1.
    rewrite <- (pow2_cancel (e1 - e0)). ring. }
  pose proof (round_nearest_even_inb H1) as (Hm' & Hlo & Hhi).
  set (m' := round_nearest_even (shr_m mrs1) (loc_of_shr_record mrs1)) in *.
  pose proof (rec_inb_bounds H1) as [H1lo H1hi].
  assert (Hm1 : (0 <= shr_m mrs1)%Z) by apply H1.
  assert (Hm'0 : (0 <= m')%Z) by lia.
  assert (HY1D : Y1 < pow2 (D - e1)).
  { apply Qmult_lt_r with (z := pow2 e1); [apply pow2_pos|].
    rewrite HY1, <- pow2_add. now replace (D - e1 + e1)%Z with D by lia. }
  assert (HY1D' : (0 < m0)%Z -> pow2 (D - 1 - e1) <= Y1).
  { intros Hpos. apply Qmult_le_r with (z := pow2 e1); [apply pow2_pos|].
    rewrite HY1, <- pow2_add. replace (D - 1 - e1 + e1)%Z with (D - 1)%Z by lia.
    auto. }
  (* the number of digits after rounding *)
  assert (Hd' : (Zdigits2 m' <= Z.max (D - e1 + 1) 1)%Z).
  { destruct (Z.le_gt_cases 0 (D - e1)) as [Hge|Hlt].
    - assert (Hlt1 : (shr_m mrs1 < 2 ^ (D - e1))%Z).
      { apply inject_Z_lt_pow2; [assumption|lra]. }
      assert (Hle' : (m' + 1 <= 2 ^ (D - e1 + 1))%Z).
      { rewrite Z.pow_add_r by lia. change (2 ^ 1)%Z with 2%Z. lia. }
      assert (Hq : inject_Z m' < pow2 (D - e1 + 1)).
      { rewrite pow2_Z by lia. rewrite <- Zlt_Qlt. lia. }
      apply Zdigits2_le in Hq; lia.
    - assert (Hone : pow2 (D - e1) <= pow2 0) by (apply pow2_le; lia).
      rewrite pow2_0 in Hone.
      assert (Hz : (shr_m mrs1 < 1)%Z).
      { rewrite Zlt_Qlt. change (inject_Z 1) with 1. lra. }
      assert (Hm'1 : (m' <= 1)%Z) by lia.
      assert (Hq : inject_Z m' < pow2 1).
      { rewrite pow2_1. rewrite Zle_Qle in Hm'1. change (inject_Z 1) with 1 in Hm'1.
        lra. }
      apply Zdigits2_le in Hq; lia. }
  assert (Hcarry : fexp F64.prec F64.emax (Zdigits2 m' + e1) = (e1 + 1)%Z ->
                   m' = 9007199254740992%Z).
  { rewrite fexp_eq. intros Hc.
    assert (Hd54 : Zdigits2 m' = 54%Z) by lia.
    assert (HDe : (D - e1 = 53)%Z) by lia.
    assert (Hlt1 : (shr_m mrs1 < 2 ^ (D - e1))%Z).
    { apply inject_Z_lt_pow2; [lia|lra]. }
    rewrite HDe in Hlt1.
    destruct (Z.eq_dec m' 0) as [Hz|Hnz]; [rewrite Hz in Hd54; discriminate|].
    pose proof (@Zdigits2_lower m' ltac:(lia)) as Hlow. rewrite Hd54 in Hlow.
    change (54 - 1)%Z with 53%Z in Hlow.
    change 9007199254740992%Z with (2 ^ 53)%Z.
    apply Z.le_antisymm; [lia|].
    rewrite pow2_Z in Hlow by lia. now rewrite <- Zle_Qle in Hlow. }
  assert (Hcanon : (0 < m')%Z ->
                   (e1 <= fexp F64.prec F64.emax (Zdigits2 m' + e1))%Z).
  { intros Hpos. rewrite fexp_eq.
    destruct (Z.eq_dec e1 (-1074)) as [He|He]; [lia|].
    assert (Hm0pos : (0 < m0)%Z) by (destruct (Z.eq_dec m0 0); [tauto|lia]).
    assert (HDe : (D - 1 - e1 = 52)%Z) by lia.
    specialize (HY1D' Hm0pos). rewrite HDe in HY1D'.
    assert (H52 : (2 ^ 52 <= shr_m mrs1)%Z).
    { rewrite pow2_Z in HY1D' by lia.
      assert (Hq : inject_Z (2 ^ 52) < inject_Z (shr_m mrs1 + 1)).
      { rewrite inject_Z_plus. change (inject_Z 1) with 1. lra. }
      rewrite <- Zlt_Qlt in Hq. lia. }
    assert (Hq : pow2 (53 - 1) <= inject_Z m').
    { change (53 - 1)%Z with 52%Z. apply pow2_le_inject_Z; lia. }
    apply Zdigits2_ge in Hq; lia. }
  assert (He970 : (e1 <= 970)%Z).
  { destruct (Z.eq_dec m0 0) as [Hz|Hnz]; [rewrite (Hzero Hz); lia|].
    assert (Hp : pow2 (D - 1) < pow2 1023).
    { eapply Qle_lt_trans; [apply HYD'; lia|assumption]. }
    apply pow2_lt_inv in Hp. lia. }
  (* the second shift *)
  pose proof (Zdigits2_nonneg m') as Hd'0.
  assert (Hn2 : (fexp F64.prec F64.emax (Zdigits2 m' + e1) - e1 <= 1)%Z).
  { rewrite fexp_eq. lia. }
  destruct (Z.eq_dec (fexp F64.prec F64.emax (Zdigits2 m' + e1) - e1) 1)
    as [Hone|Hnot].
  - (* a carry to 2^53 *)
    assert (Hm53 : m' = 9007199254740992%Z) by (apply Hcarry; lia).
    rewrite Hone. clearbody m'. subst m'.
    change (shr (shr_record_of_loc 9007199254740992 loc_Exact) e1 1)
      with ({| shr_m := 4503599627370496; shr_r := false; shr_s := false |},
            (e1 + 1)%Z).
    cbn [shr_m].
    destruct (Z.leb_spec (e1 + 1) (F64.emax - F64.prec)) as [_|Hbad];
      [|unfold F64.emax, F64.prec in Hbad; lia].
    exists (inject_Z 9007199254740992 * pow2 e1)%Q.
    assert (Hp := pow2_pos e1).
    split; [|split; [|split]].
    + unfold isDouble. cbn [F64.isFinite valid_binary andb bounded].
      unfold canonical_mantissa.
      apply andb_true_intro. split.
      * apply Z.eqb_eq. rewrite fexp_eq in Hone |- *.
        change (Zdigits2 9007199254740992) with 54%Z in Hone.
        change (Z.pos (digits2_pos 4503599627370496)) with 53%Z. lia.
      * apply Z.leb_le. unfold F64.emax, F64.prec. lia.
    + cbn [toQ]. rewrite pow2_succ.
      change (inject_Z 9007199254740992)
        with (2 * inject_Z 4503599627370496).
      ring.
    + rewrite <- HY1.
      setoid_replace (Y1 * pow2 e1 - (1 # 2) * pow2 e1)
        with ((Y1 - (1#2)) * pow2 e1) by ring.
      apply Qmult_le_compat_r; lra.
    + rewrite <- HY1.
      setoid_replace (Y1 * pow2 e1 + (1 # 2) * pow2 e1)
        with ((Y1 + (1#2)) * pow2 e1) by ring.
      apply Qmult_le_compat_r; lra.
  - rewrite shr_noop by lia. cbn [shr_m].
    rewrite shr_m_of_loc. clearbody m'.
    exists (inject_Z m' * pow2 e1)%Q.
    assert (Hp := pow2_pos e1).
    assert (Hbounds :
      Y * pow2 e0 - (1 # 2) * pow2 e1 <= inject_Z m' * pow2 e1
      /\ inject_Z m' * pow2 e1 <= Y * pow2 e0 + (1 # 2) * pow2 e1).
    { rewrite <- HY1. split.
      - setoid_replace (Y1 * pow2 e1 - (1 # 2) * pow2 e1)
          with ((Y1 - (1#2)) * pow2 e1) by ring.
        apply Qmult_le_compat_r; lra.
      - setoid_replace (Y1 * pow2 e1 + (1 # 2) * pow2 e1)
          with ((Y1 + (1#2)) * pow2 e1) by ring.
        apply Qmult_le_compat_r; lra. }
    destruct m' as [|p|p] eqn:Em'; [| |lia].
    + split; [reflexivity|]. split; [cbn [toQ]; ring|]. exact Hbounds.
    + destruct (Z.leb_spec e1 (F64.emax - F64.prec)) as [_|Hbad];
        [|unfold F64.emax, F64.prec in Hbad; lia].
      split; [|split; [cbn [toQ]; ring|exact Hbounds]].
      unfold isDouble. cbn [F64.isFinite valid_binary andb bounded].
      unfold canonical_mantissa. apply andb_true_intro. split.
      * apply Z.eqb_eq. specialize (Hcanon ltac:(lia)).
        cbn [Zdigits2] in Hcanon, Hnot, Hn2. lia.
      * apply Z.leb_le. unfold F64.emax, F64.prec. lia.
Qed.

Lemma unitRoundoff_pow2 : pow2 (-53) == unitRoundoff.
Proof. reflexivity. Qed.

Lemma tiny_pos : 0 < tiny.
Proof. apply pow2_pos. Qed.

Lemma half_ulp_bound (D : Z) (X : Q) :
  (pow2 (D - 1) <= X \/ fexp F64.prec F64.emax D = (-1074)%Z) -> 0 <= X ->
  (1 # 2) * pow2 (fexp F64.prec F64.emax D) <= unitRoundoff * X + tiny.
Proof.
  intros HX H0.
  pose proof tiny_pos as Ht.
  assert (Hu : 0 < unitRoundoff) by reflexivity.
  assert (Hux : 0 <= unitRoundoff * X) by (apply Qmult_le_0_compat; lra).
  assert (Htiny : (1 # 2) * pow2 (-1074) == tiny).
  { unfold tiny. replace (-1075)%Z with (-1074 - 1)%Z by lia.
    now rewrite pow2_pred. }
  assert (Hcases : fexp F64.prec F64.emax D = (-1074)%Z
                   \/ (fexp F64.prec F64.emax D = (D - 53)%Z
                       /\ pow2 (D - 1) <= X)).
  { rewrite fexp_eq in *. destruct HX as [HX|HX]; [|now left].
    destruct (Z.max_spec (D - 53) (-1074)) as [[Hlt Hmax]|[Hge Hmax]];
      rewrite Hmax; auto. }
  clear HX. destruct Hcases as [->|[-> HX]].
  - rewrite Htiny. lra.
  - replace (D - 53)%Z with (-53 + (D - 1) + 1)%Z by lia.
    rewrite pow2_succ, pow2_add, unitRoundoff_pow2.
    assert (unitRoundoff * pow2 (D - 1) <= unitRoundoff * X).
    { apply Qmult_le_l; assumption. }
    lra.
Qed.

Lemma binary_round_aux_error (s : bool) (m0 e0 : Z) (l : location) (Y : Q) :
  rec_inb (shr_record_of_loc m0 l) Y ->
  (e0 <= fexp F64.prec F64.emax (Zdigits2 m0 + e0))%Z ->
  Y * pow2 e0 < pow2 1023 ->
  exists a : Q,
    isDouble (binary_round_aux F64.prec F64.emax s m0 e0 l) = true
    /\ toQ (binary_round_aux F64.prec F64.emax s m0 e0 l) == signQ s * a
    /\ Y * pow2 e0 - (unitRoundoff * (Y * pow2 e0) + tiny) <= a
    /\ a <= Y * pow2 e0 + (unitRoundoff * (Y * pow2 e0) + tiny).
Proof.
  intros HY Hn Hov.
  destruct (@binary_round_aux_spec s m0 e0 l Y HY Hn Hov) as (a & Hd & Hv & Hlo & Hhi).
  exists a. split; [assumption|]. split; [assumption|].
  assert (Hm0 : (0 <= m0)%Z).
  { destruct HY as [Hm _]. now rewrite shr_m_of_loc in Hm. }
  pose proof (rec_inb_bounds HY) as [HYlo HYhi]. rewrite shr_m_of_loc in HYlo, HYhi.
  assert (HY0 : 0 <= Y).
  { rewrite Zle_Qle in Hm0. change (inject_Z 0) with 0 in Hm0. lra. }
  assert (HX0 : 0 <= Y * pow2 e0).
  { apply Qmult_le_0_compat; [assumption|apply Qlt_le_weak, pow2_pos]. }
  assert (Hb : (1 # 2) * pow2 (fexp F64.prec F64.emax (Zdigits2 m0 + e0))
               <= unitRoundoff * (Y * pow2 e0) + tiny).
  { apply half_ulp_bound; [|assumption].
    destruct (Z.eq_dec m0 0) as [->|Hnz].
    - right. cbn [Zdigits2] in *. rewrite fexp_eq in *. lia.
    - left. replace (Zdigits2 m0 + e0 - 1)%Z with ((Zdigits2 m0 - 1) + e0)%Z by lia.
      rewrite pow2_add. apply Qmult_le_compat_r; [|apply Qlt_le_weak, pow2_pos].
      pose proof (@Zdigits2_lower m0 ltac:(lia)). lra. }
  split; lra.
Qed.

(** Aligning two mantissas on the smaller exponent. *)

Lemma iter_xO_value (m d : positive) :
  Zpos (Pos.iter xO m d) = (Zpos m * 2 ^ Zpos d)%Z.
Proof.
  induction d as [|d IH] using Pos.peano_ind.
  - cbn. lia.
  - rewrite Pos.iter_succ, Pos2Z.inj_xO, IH, Pos2Z.inj_succ, Z.pow_succ_r by lia.
    lia.
Qed.

Lemma iter_xO_digits (m d : positive) :
  Zpos (digits2_pos (Pos.iter xO m d)) = (Zpos (digits2_pos m) + Zpos d)%Z.
Proof.
  induction d as [|d IH] using Pos.peano_ind.
  - cbn [Pos.iter digits2_pos]. lia.
  - rewrite Pos.iter_succ. cbn [digits2_pos]. rewrite Pos2Z.inj_succ, IH. lia.
Qed.

Lemma shl_align_spec (mx : positive) (ex ex' : Z) :
  inject_Z (Zpos (fst (shl_align mx ex ex'))) * pow2 (snd (shl_align mx ex ex'))
  == inject_Z (Zpos mx) * pow2 ex
  /\ snd (shl_align mx ex ex') = Z.min ex ex'
  /\ (Zpos (digits2_pos (fst (shl_align mx ex ex')))
      + snd (shl_align mx ex ex')
      = Zpos (digits2_pos mx) + ex)%Z.
Proof.
  unfold shl_align. destruct (ex' - ex)%Z as [|d|d] eqn:Hd; cbn [fst snd].
  - split; [reflexivity|]. split; lia.
  - split; [reflexivity|]. split; lia.
  - rewrite iter_xO_value, iter_xO_digits, inject_Z_mult.
    split; [|split; lia].
    rewrite <- pow2_Z by lia. rewrite <- Qmult_assoc, <- pow2_add.
    now replace (Zpos d + ex')%Z with ex by lia.
Qed.

Lemma binary_round_error (s : bool) (m : positive) (e : Z) :
  inject_Z (Zpos m) * pow2 e < pow2 1023 ->
  exists a : Q,
    isDouble (binary_round F64.prec F64.emax s m e) = true
    /\ toQ (binary_round F64.prec F64.emax s m e) == signQ s * a
    /\ inject_Z (Zpos m) * pow2 e
       - (unitRoundoff * (inject_Z (Zpos m) * pow2 e) + tiny) <= a
    /\ a <= inject_Z (Zpos m) * pow2 e
            + (unitRoundoff * (inject_Z (Zpos m) * pow2 e) + tiny).
Proof.
  intros Hov. unfold binary_round.
  destruct (shl_align_spec m e (fexp F64.prec F64.emax (Zpos (digits2_pos m) + e)))
    as (Hv & Hs & Hd).
  destruct (shl_align m e _) as [mz ez]. cbn [fst snd] in *.
  assert (Hn : (ez <= fexp F64.prec F64.emax (Zdigits2 (Zpos mz) + ez))%Z).
  { cbn [Zdigits2]. rewrite Hd, Hs. lia. }
  assert (HY : rec_inb (shr_record_of_loc (Zpos mz) loc_Exact) (inject_Z (Zpos mz))).
  { split; cbn; [lia|reflexivity]. }
  assert (Hov' : inject_Z (Zpos mz) * pow2 ez < pow2 1023) by (rewrite Hv; exact Hov).
  destruct (@binary_round_aux_error s _ _ _ _ HY Hn Hov') as (a & H1 & H2 & H3 & H4).
  exists a. rewrite Hv in H3, H4. auto.
Qed.

Lemma signQ_cond_Zopp (s : bool) (z : Z) :
  inject_Z (cond_Zopp s z) == signQ s * inject_Z z.
Proof. destruct s; cbn [cond_Zopp signQ]; [rewrite inject_Z_opp|]; ring. Qed.

(** Rounding the number [z * 2^e]. *)
Lemma binary_normalize_error (z e : Z) (sz : bool) (M : Q) :
  - M <= inject_Z z * pow2 e -> inject_Z z * pow2 e <= M -> M < pow2 1023 ->
  isDouble (binary_normalize F64.prec F64.emax z e sz) = true
  /\ inject_Z z * pow2 e - (unitRoundoff * M + tiny)
     <= toQ (binary_normalize F64.prec F64.emax z e sz)
  /\ toQ (binary_normalize F64.prec F64.emax z e sz)
     <= inject_Z z * pow2 e + (unitRoundoff * M + tiny).
Proof.
  intros Hlo Hhi HM.
  pose proof tiny_pos as Ht. pose proof (pow2_pos e) as Hp.
  assert (Hu : 0 < unitRoundoff) by reflexivity.
  assert (HM0 : 0 <= M) by lra.
  assert (HuM : 0 <= unitRoundoff * M) by (apply Qmult_le_0_compat; lra).
  destruct z as [|p|p]; cbn [binary_normalize].
  - split; [reflexivity|]. cbn [toQ]. change (inject_Z 0) with 0. lra.
  - destruct (@binary_round_error false p e ltac:(lra)) as (a & H1 & H2 & H3 & H4).
    split; [assumption|]. rewrite H2. cbn [signQ].
    assert (Hx : unitRoundoff * (inject_Z (Zpos p) * pow2 e) <= unitRoundoff * M).
    { apply Qmult_le_l; assumption. }
    split; lra.
  - assert (Hneg : inject_Z (Zneg p) == - inject_Z (Zpos p)).
    { change (Zneg p) with (- Zpos p)%Z. now rewrite inject_Z_opp. }
    rewrite Hneg in *.
    destruct (@binary_round_error true p e ltac:(lra)) as (a & H1 & H2 & H3 & H4).
    split; [assumption|]. rewrite H2. cbn [signQ].
    assert (Hx : unitRoundoff * (inject_Z (Zpos p) * pow2 e) <= unitRoundoff * M).
    { apply Qmult_le_l; [assumption|lra]. }
    split; lra.
Qed.

Lemma isDouble_cases (x : F64.float) :
  isDouble x = true ->
  (exists s, x = S754_zero s)
  \/ (exists s m e, x = S754_finite s m e
                    /\ bounded F64.prec F64.emax m e = true).
Proof.
  destruct x as [s|s| |s m e]; cbn; try discriminate; intros H.
  - left. now exists s.
  - right. now exists s, m, e.
Qed.

Lemma isDouble_not_NaN (x : F64.float) : isDouble x = true -> isNaN x = false.
Proof. now destruct x. Qed.

Lemma signQ_xorb (a b : bool) : signQ (xorb a b) == signQ a * signQ b.
Proof. now destruct a, b. Qed.

Lemma signQ_negb (a : bool) : signQ (negb a) == - signQ a.
Proof. now destruct a. Qed.

Lemma mantissa_pos (m : positive) (e : Z) : 0 < inject_Z (Zpos m) * pow2 e.
Proof.
  apply Qmult_lt_0_compat; [|apply pow2_pos].
  change 0 with (inject_Z 0). rewrite <- Zlt_Qlt. lia.
Qed.

(** A positive number compares above zero. *)
Lemma gtb_zero (x : F64.float) :
  isDouble x = true -> 0 < toQ x -> gtb x (of_Z 0) = true.
Proof.
  destruct x as [s|s| |[] m e]; cbn; try discriminate; intros _ H;
    try reflexivity; try lra.
  pose proof (mantissa_pos m e). lra.
Qed.

Lemma aligned_sum (sx sy : bool) (mx my : positive) (ex ey : Z) :
  let ez := Z.min ex ey in
  inject_Z (cond_Zopp sx (Zpos (fst (shl_align mx ex ez)))
            + cond_Zopp sy (Zpos (fst (shl_align my ey ez)))) * pow2 ez
  == toQ (S754_finite sx mx ex) + toQ (S754_finite sy my ey).
Proof.
  intros ez. cbn [toQ].
  destruct (shl_align_spec mx ex ez) as (Hvx & Hsx & _).
  destruct (shl_align_spec my ey ez) as (Hvy & Hsy & _).
  replace (snd (shl_align mx ex ez)) with ez in Hvx by (unfold ez in *; lia).
  replace (snd (shl_align my ey ez)) with ez in Hvy by (unfold ez in *; lia).
  rewrite inject_Z_plus, !signQ_cond_Zopp, <- Hvx, <- Hvy. ring.
Qed.

Lemma add_error (x y : F64.float) (M : Q) :
  isDouble x = true -> isDouble y = true ->
  - M <= toQ x + toQ y -> toQ x + toQ y <= M -> M < pow2 1023 ->
  isDouble (add x y) = true
  /\ toQ x + toQ y - (unitRoundoff * M + tiny) <= toQ (add x y)
  /\ toQ (add x y) <= toQ x + toQ y + (unitRoundoff * M + tiny).
Proof.
  intros Hx Hy Hlo Hhi HM.
  pose proof tiny_pos as Ht.
  assert (Hu : 0 < unitRoundoff) by reflexivity.
  assert (HuM : 0 <= unitRoundoff * M) by (apply Qmult_le_0_compat; lra).
  change (add x y) with (SFadd F64.prec F64.emax x y).
  destruct (isDouble_cases _ Hx) as [[sx ->]|(sx & mx & ex & -> & Hbx)];
    destruct (isDouble_cases _ Hy) as [[sy ->]|(sy & my & ey & -> & Hby)].
  - destruct sx, sy; cbn; (split; [reflexivity|]); lra.
  - cbn [SFadd]. split; [assumption|]. cbn [toQ] in *. lra.
  - cbn [SFadd]. split; [assumption|]. cbn [toQ] in *. lra.
  - cbn [SFadd]. cbv zeta.
    pose proof (aligned_sum sx sy mx my ex ey) as Hsum. cbv zeta in Hsum.
    rewrite <- Hsum in *.
    now apply binary_normalize_error.
Qed.

Lemma aligned_difference (sx sy : bool) (mx my : positive) (ex ey : Z) :
  let ez := Z.min ex ey in
  inject_Z (cond_Zopp sx (Zpos (fst (shl_align mx ex ez)))
            - cond_Zopp sy (Zpos (fst (shl_align my ey ez)))) * pow2 ez
  == toQ (S754_finite sx mx ex) - toQ (S754_finite sy my ey).
Proof.
  intros ez. cbn [toQ].
  destruct (shl_align_spec mx ex ez) as (Hvx & Hsx & _).
  destruct (shl_align_spec my ey ez) as (Hvy & Hsy & _).
  replace (snd (shl_align mx ex ez)) with ez in Hvx by (unfold ez in *; lia).
  replace (snd (shl_align my ey ez)) with ez in Hvy by (unfold ez in *; lia).
  unfold Z.sub. rewrite inject_Z_plus, inject_Z_opp, !signQ_cond_Zopp, <- Hvx, <- Hvy.
  ring.
Qed.

Lemma sub_error (x y : F64.float) (M : Q) :
  isDouble x = true -> isDouble y = true ->
  - M <= toQ x - toQ y -> toQ x - toQ y <= M -> M < pow2 1023 ->
  isDouble (sub x y) = true
  /\ toQ x - toQ y - (unitRoundoff * M + tiny) <= toQ (sub x y)
  /\ toQ (sub x y) <= toQ x - toQ y + (unitRoundoff * M + tiny).
Proof.
  intros Hx Hy Hlo Hhi HM.
  pose proof tiny_pos as Ht.
  assert (Hu : 0 < unitRoundoff) by reflexivity.
  assert (HuM : 0 <= unitRoundoff * M) by (apply Qmult_le_0_compat; lra).
  change (sub x y) with (SFsub F64.prec F64.emax x y).
  destruct (isDouble_cases _ Hx) as [[sx ->]|(sx & mx & ex & -> & Hbx)];
    destruct (isDouble_cases _ Hy) as [[sy ->]|(sy & my & ey & -> & Hby)].
  - destruct sx, sy; cbn; (split; [reflexivity|]); lra.
  - cbn [SFsub]. split; [assumption|]. cbn [toQ] in *.
    pose proof (signQ_negb sy). split; nra.
  - cbn [SFsub]. split; [assumption|]. cbn [toQ] in *. lra.
  - cbn [SFsub]. cbv zeta.
    pose proof (aligned_difference sx sy mx my ex ey) as Hsum. cbv zeta in Hsum.
    rewrite <- Hsum in *.
    now apply binary_normalize_error.
Qed.

Lemma bounded_canonical (m : positive) (e : Z) :
  bounded F64.prec F64.emax m e = true ->
  (e = Z.max (Zpos (digits2_pos m) + e - 53) (-1074) /\ e <= 971)%Z.
Proof.
  unfold bounded, canonical_mantissa. intros H.
  apply andb_prop in H as [Hc Hb]. apply Z.eqb_eq in Hc. apply Z.leb_le in Hb.
  rewrite fexp_eq in Hc. unfold F64.emax, F64.prec in Hb. lia.
Qed.

Lemma mul_digits (mx my : positive) :
  (Zpos (digits2_pos mx) + Zpos (digits2_pos my) - 1
   <= Zdigits2 (Zpos (mx * my)))%Z.
Proof.
  apply Zdigits2_ge; [lia|].
  pose proof (@Zdigits2_lower (Zpos mx) ltac:(lia)) as Hx.
  pose proof (@Zdigits2_lower (Zpos my) ltac:(lia)) as Hy.
  cbn [Zdigits2] in Hx, Hy.
  replace (Zpos (digits2_pos mx) + Zpos (digits2_pos my) - 1 - 1)%Z
    with ((Zpos (digits2_pos mx) - 1) + (Zpos (digits2_pos my) - 1))%Z by lia.
  rewrite pow2_add, Pos2Z.inj_mul, inject_Z_mult.
  pose proof (pow2_pos (Zpos (digits2_pos mx) - 1)).
  pose proof (pow2_pos (Zpos (digits2_pos my) - 1)).
  apply Qle_trans with (inject_Z (Zpos mx) * pow2 (Zpos (digits2_pos my) - 1)).
  - apply Qmult_le_compat_r; lra.
  - apply Qmult_le_l; lra.
Qed.

Lemma mul_error (x y : F64.float) (M : Q) :
  isDouble x = true -> isDouble y = true ->
  - M <= toQ x * toQ y -> toQ x * toQ y <= M -> M < pow2 1023 ->
  isDouble (mul x y) = true
  /\ toQ x * toQ y - (unitRoundoff * M + tiny) <= toQ (mul x y)
  /\ toQ (mul x y) <= toQ x * toQ y + (unitRoundoff * M + tiny).
Proof.
  intros Hx Hy Hlo Hhi HM.
  pose proof tiny_pos as Ht.
  assert (Hu : 0 < unitRoundoff) by reflexivity.
  assert (HuM : 0 <= unitRoundoff * M) by (apply Qmult_le_0_compat; lra).
  change (mul x y) with (SFmul F64.prec F64.emax x y).
  destruct (isDouble_cases _ Hx) as [[sx ->]|(sx & mx & ex & -> & Hbx)];
    destruct (isDouble_cases _ Hy) as [[sy ->]|(sy & my & ey & -> & Hby)];
    try (cbn [SFmul toQ] in *; split; [reflexivity|]; split; lra).
  cbn [SFmul].
  apply bounded_canonical in Hbx, Hby.
  pose proof (mul_digits mx my) as Hd.
  set (A := inject_Z (Zpos mx) * pow2 ex) in *.
  set (B := inject_Z (Zpos my) * pow2 ey) in *.
  assert (HA : 0 < A) by apply mantissa_pos.
  assert (HB : 0 < B) by apply mantissa_pos.
  assert (HP : inject_Z (Zpos (mx * my)) * pow2 (ex + ey) == A * B).
  { unfold A, B. rewrite Pos2Z.inj_mul, inject_Z_mult, pow2_add. ring. }
  assert (HAB : 0 < A * B) by (apply Qmult_lt_0_compat; assumption).
  assert (HPM : A * B <= M).
  { cbn [toQ] in Hlo, Hhi. fold A B in Hlo, Hhi.
    destruct sx, sy; cbn [signQ] in Hlo, Hhi; lra. }
  assert (HY : rec_inb (shr_record_of_loc (Zpos (mx * my)) loc_Exact)
                       (inject_Z (Zpos (mx * my)))).
  { split; cbn; [lia|reflexivity]. }
  destruct (@binary_round_aux_error (xorb sx sy) (Zpos (mx * my)) (ex + ey)
              loc_Exact _ HY) as (a & H1 & H2 & H3 & H4).
  - rewrite fexp_eq. lia.
  - rewrite HP. lra.
  - split; [assumption|]. rewrite H2, signQ_xorb. rewrite HP in H3, H4.
    cbn [toQ]. fold A B.
    assert (HuP : unitRoundoff * (A * B) <= unitRoundoff * M).
    { apply Qmult_le_l; assumption. }
    destruct sx, sy; cbn [signQ]; split; lra.
Qed.

Lemma ratio_compare (t N R c : Q) :
  0 < N -> t * N == R ->
  (R < c * N -> t < c) /\ (R == c * N -> t == c) /\ (c * N < R -> c < t).
Proof.
  intros HN Ht. repeat split; intros H.
  - apply Qmult_lt_r with (z := N); [assumption|]. now rewrite Ht.
  - apply Qmult_inj_r with (z := N); [lra|]. now rewrite Ht.
  - apply Qmult_lt_r with (z := N); [assumption|]. now rewrite Ht.
Qed.

Lemma new_location_inb (nb r q : Z) (t : Q) :
  (0 < nb)%Z -> (0 <= r < nb)%Z -> (0 <= q)%Z ->
  t * inject_Z nb == inject_Z r ->
  rec_inb (shr_record_of_loc q (new_location nb r)) (inject_Z q + t).
Proof.
  intros Hnb Hr Hq Ht.
  assert (HN : 0 < inject_Z nb).
  { change 0 with (inject_Z 0). now rewrite <- Zlt_Qlt. }
  destruct (ratio_compare (1 # 2) HN Ht) as (Hlt & Heq & Hgt).
  destruct (ratio_compare 0 HN Ht) as (_ & Hz & Hpos).
  assert (H2 : inject_Z (2 * r) == 2 * inject_Z r) by now rewrite inject_Z_mult.
  assert (H2' : inject_Z (2 * r + 1) == 2 * inject_Z r + 1).
  { now rewrite inject_Z_plus, inject_Z_mult. }
  assert (Hloc : new_location nb r
                 = if Z.eqb r 0 then loc_Exact
                   else if Z.even nb
                        then loc_Inexact (Z.compare (2 * r) nb)
                        else loc_Inexact
                               match Z.compare (2 * r + 1) nb with
                               | Gt => Gt
                               | _ => Lt
                               end).
  { unfold new_location, new_location_even, new_location_odd.
    change (IntDef.Z.even nb) with (Z.even nb).
    destruct (Z.even nb); destruct r; reflexivity. }
  split; [now rewrite shr_m_of_loc|]. rewrite Hloc.
  destruct (Z.eqb_spec r 0) as [Hr0|Hr0].
  - assert (Ht0 : t == 0).
    { apply Hz. rewrite Hr0. change (inject_Z 0) with 0. ring. }
    cbn; lra.
  - assert (Htpos : 0 < t).
    { apply Hpos. ring_simplify.
      change 0 with (inject_Z 0). rewrite <- Zlt_Qlt. lia. }
    destruct (Z.even nb) eqn:Heven.
    + destruct (Z.compare_spec (2 * r) nb) as [Hc|Hc|Hc]; cbn.
      * assert (t == 1 # 2).
        { apply Heq. rewrite <- Hc, H2. ring. }
        lra.
      * assert (t < 1 # 2).
        { apply Hlt. rewrite Zlt_Qlt, H2 in Hc. lra. }
        lra.
      * assert ((1 # 2) < t).
        { apply Hgt. rewrite Zlt_Qlt, H2 in Hc. lra. }
        assert (t < 1).
        { destruct (ratio_compare 1 HN Ht) as (H1 & _ & _). apply H1.
          destruct Hr as [_ Hr]. rewrite Zlt_Qlt in Hr. lra. }
        lra.
    + assert (Hodd : (2 * r <> nb)%Z).
      { intros <-. rewrite Z.even_mul in Heven. discriminate. }
      destruct (Z.compare_spec (2 * r + 1) nb) as [Hc|Hc|Hc]; cbn.
      * assert (t < 1 # 2).
        { apply Hlt. assert (Hc' : (2 * r < nb)%Z) by lia.
          rewrite Zlt_Qlt, H2 in Hc'. lra. }
        lra.
      * assert (t < 1 # 2).
        { apply Hlt. assert (Hc' : (2 * r < nb)%Z) by lia.
          rewrite Zlt_Qlt, H2 in Hc'. lra. }
        lra.
      * assert ((1 # 2) < t).
        { apply Hgt. assert (Hc' : (nb < 2 * r)%Z) by lia.
          rewrite Zlt_Qlt, H2 in Hc'. lra. }
        assert (t < 1).
        { destruct (ratio_compare 1 HN Ht) as (H1 & _ & _). apply H1.
          destruct Hr as [_ Hr]. rewrite Zlt_Qlt in Hr. lra. }
        lra.
Qed.

Lemma div_core_spec (mx my : positive) (ex ey : Z) :
  let '(q, e', l) :=
    SFdiv_core_binary F64.prec F64.emax (Zpos mx) ex (Zpos my) ey in
  exists Y : Q,
    rec_inb (shr_record_of_loc q l) Y
    /\ (Y * pow2 e') * (inject_Z (Zpos my) * pow2 ey)
       == inject_Z (Zpos mx) * pow2 ex
    /\ (e' <= fexp F64.prec F64.emax (Zdigits2 q + e'))%Z.
Proof.
  unfold SFdiv_core_binary. cbv zeta. cbn [Zdigits2].
  set (d1 := Zpos (digits2_pos mx)). set (d2 := Zpos (digits2_pos my)).
  set (e' := Z.min (fexp F64.prec F64.emax (d1 + ex - (d2 + ey))) (ex - ey)).
  set (s := (ex - ey - e')%Z).
  assert (Hs : (0 <= s)%Z) by (unfold s, e'; lia).
  set (m' := match s with
             | 0%Z => Zpos mx
             | Zpos _ => Z.shiftl (Zpos mx) s
             | Zneg _ => 0%Z
             end).
  assert (Hm' : m' = (Zpos mx * 2 ^ s)%Z).
  { unfold m'. destruct s as [|p|p] eqn:Es; [simpl; lia| |lia].
    now rewrite Z.shiftl_mul_pow2 by lia. }
  pose proof (Z_div_mod m' (Zpos my) ltac:(lia)) as Hdiv.
  destruct (Z.div_eucl m' (Zpos my)) as [q r]. destruct Hdiv as [Hqr Hr].
  assert (Hpow : (0 < 2 ^ s)%Z) by (apply Z.pow_pos_nonneg; lia).
  assert (Hq : (0 <= q)%Z) by nia.
  set (N := inject_Z (Zpos my)).
  assert (HN : 0 < N).
  { unfold N. change 0 with (inject_Z 0). rewrite <- Zlt_Qlt. lia. }
  set (t := inject_Z r / N).
  assert (Ht : t * N == inject_Z r) by (unfold t; field; lra).
  exists (inject_Z q + t).
  assert (HYN : (inject_Z q + t) * N == inject_Z (Zpos mx) * pow2 s).
  { rewrite pow2_Z by assumption. rewrite <- inject_Z_mult, <- Hm', Hqr.
    rewrite inject_Z_plus, inject_Z_mult. fold N. lra. }
  split; [now apply new_location_inb|]. split.
  - setoid_replace ((inject_Z q + t) * pow2 e' * (N * pow2 ey))
      with (((inject_Z q + t) * N) * (pow2 e' * pow2 ey)) by ring.
    rewrite HYN, <- pow2_add, <- Qmult_assoc, <- pow2_add.
    now replace (s + (e' + ey))%Z with ex by (unfold s; lia).
  - (* the quotient has enough digits *)
    rewrite fexp_eq. unfold e' at 1. rewrite fexp_eq.
    destruct (Z.le_gt_cases 0 (d1 - 1 + s - d2)) as [Hk|Hk].
    + assert (Hdq : (d1 + s - d2 <= Zdigits2 q)%Z).
      { apply Zdigits2_ge; [assumption|].
        replace (d1 + s - d2 - 1)%Z with (d1 - 1 + s - d2)%Z by lia.
        pose proof (@Zdigits2_lower (Zpos mx) ltac:(lia)) as Hlx.
        pose proof (@Zdigits2_upper (Zpos my) ltac:(lia)) as Huy.
        cbn [Zdigits2] in Hlx, Huy. fold d1 in Hlx. fold d2 N in Huy.
        (* 2^k <= Y, hence 2^k <= q *)
        assert (HY : pow2 (d1 - 1 + s - d2) <= inject_Z q + t).
        { apply Qmult_le_r with (z := pow2 d2); [apply pow2_pos|].
          rewrite <- pow2_add.
          replace (d1 - 1 + s - d2 + d2)%Z with ((d1 - 1) + s)%Z by lia.
          rewrite pow2_add.
          apply Qle_trans with (inject_Z (Zpos mx) * pow2 s).
          - apply Qmult_le_compat_r; [assumption|].
            apply Qlt_le_weak, pow2_pos.
          - rewrite <- HYN. apply Qmult_le_l; [|lra].
            assert (0 <= inject_Z q).
            { change 0 with (inject_Z 0). now rewrite <- Zle_Qle. }
            assert (0 <= inject_Z r).
            { change 0 with (inject_Z 0). rewrite <- Zle_Qle. lia. }
            destruct (Qlt_le_dec 0 (inject_Z q + t)) as [Hp|Hp];
              [assumption|].
            exfalso.
            assert (Hc : (inject_Z q + t) * N <= 0 * N).
            { apply Qmult_le_compat_r; lra. }
            assert (0 < inject_Z (Zpos mx) * pow2 s).
            { apply mantissa_pos. }
            lra. }
        rewrite pow2_Z in HY |- * by lia.
        assert (Ht1 : t < 1).
        { destruct (ratio_compare 1 HN Ht) as (H1 & _ & _). apply H1.
          destruct Hr as [_ Hr]. rewrite Zlt_Qlt in Hr. fold N in Hr. lra. }
        assert (Hlt : inject_Z (2 ^ (d1 - 1 + s - d2)) < inject_Z (q + 1)).
        { rewrite inject_Z_plus. change (inject_Z 1) with 1. lra. }
        rewrite <- Zlt_Qlt in Hlt. rewrite <- Zle_Qle. lia. }
      unfold s in Hdq. lia.
    + pose proof (Zdigits2_nonneg q). unfold s in Hk.
      assert (He' : e' = Z.min (Z.max (d1 + ex - (d2 + ey) - 53) (-1074))
                               (ex - ey)) by reflexivity.
      lia.
Qed.

Lemma signQ_sq (s : bool) : signQ s * signQ s == 1.
Proof. now destruct s. Qed.

Lemma div_error (x y : F64.float) (X M : Q) :
  isDouble x = true -> isDouble y = true -> ~ toQ y == 0 ->
  X * toQ y == toQ x -> - M <= X -> X <= M -> M < pow2 1023 ->
  isDouble (div x y) = true
  /\ X - (unitRoundoff * M + tiny) <= toQ (div x y)
  /\ toQ (div x y) <= X + (unitRoundoff * M + tiny).
Proof.
  intros Hx Hy Hy0 HX Hlo Hhi HM.
  pose proof tiny_pos as Ht.
  assert (Hu : 0 < unitRoundoff) by reflexivity.
  assert (HuM : 0 <= unitRoundoff * M) by (apply Qmult_le_0_compat; lra).
  change (div x y) with (SFdiv F64.prec F64.emax x y).
  destruct (isDouble_cases _ Hy) as [[sy ->]|(sy & my & ey & -> & Hby)];
    [exfalso; apply Hy0; reflexivity|].
  destruct (isDouble_cases _ Hx) as [[sx ->]|(sx & mx & ex & -> & Hbx)].
  - cbn [SFdiv]. split; [reflexivity|]. cbn [toQ] in HX |- *.
    apply Qmult_integral in HX. destruct HX as [HX|HX]; [|contradiction].
    lra.
  - cbn [SFdiv].
    pose proof (div_core_spec mx my ex ey) as Hcore.
    destruct (SFdiv_core_binary F64.prec F64.emax (Zpos mx) ex (Zpos my) ey)
      as [[q e'] l].
    destruct Hcore as (Y & HY & Hval & Hn).
    set (A := inject_Z (Zpos mx) * pow2 ex) in *.
    set (B := inject_Z (Zpos my) * pow2 ey) in *.
    assert (HA : 0 < A) by apply mantissa_pos.
    assert (HB : 0 < B) by apply mantissa_pos.
    set (P := Y * pow2 e') in *.
    assert (HXP : X == signQ sx * signQ sy * P).
    { apply Qmult_inj_r with (z := toQ (S754_finite sy my ey)); [assumption|].
      rewrite HX. cbn [toQ]. fold A B.
      setoid_replace (signQ sx * signQ sy * P * (signQ sy * B))
        with ((signQ sy * signQ sy) * signQ sx * (P * B)) by ring.
      rewrite signQ_sq, Hval. ring. }
    assert (HP0 : 0 <= P).
    { destruct (Qlt_le_dec P 0) as [Hneg|]; [|assumption]. exfalso.
      assert (P * B <= 0 * B) by (apply Qmult_le_compat_r; lra). lra. }
    assert (HPM : P <= M).
    { destruct sx, sy; cbn [signQ] in HXP; lra. }
    destruct (@binary_round_aux_error (xorb sx sy) q e' l Y HY Hn)
      as (a & H1 & H2 & H3 & H4).
    + fold P. lra.
    + split; [assumption|]. rewrite H2, signQ_xorb. fold P in H3, H4.
      assert (HuP : unitRoundoff * P <= unitRoundoff * M).
      { apply Qmult_le_l; assumption. }
      destruct sx, sy; cbn [signQ] in *; split; lra.
Qed.
End Rounding.

(** ** Moving averages of prices on a line

    On prices that follow a line [a + b * i] of slope [b > 0], the EMA of
    window [W] trails the line by [b * (W - 1) / 2], up to the rounding
    errors; EMA(12) therefore stays above EMA(26). *)

Section Sums.
Local Open Scope Q_scope.

Lemma inject_nat_succ (n : nat) :
  inject_Z (Z.of_nat (S n)) == inject_Z (Z.of_nat n) + 1.
Proof. rewrite Nat2Z.inj_succ. unfold Z.succ. now rewrite inject_Z_plus. Qed.

Lemma inject_nat_nonneg (n : nat) : 0 <= inject_Z (Z.of_nat n).
Proof. change 0 with (inject_Z 0). rewrite <- Zle_Qle. lia. Qed.

Lemma fold_add_error (xs : list F64.float) :
  forall (acc : F64.float) (Ab Pb M : Q),
    isDouble acc = true -> - Ab <= toQ acc -> toQ acc <= Ab ->
    Forall (fun x => isDouble x = true /\ - Pb <= toQ x /\ toQ x <= Pb) xs ->
    0 <= Ab -> 0 <= Pb -> 0 <= M ->
    Ab + inject_Z (Z.of_nat (length xs)) * (Pb + (unitRoundoff * M + tiny))
    <= M ->
    M < pow2 1023 ->
    isDouble (fold_left add xs acc) = true
    /\ toQ acc + sumQ xs
       - inject_Z (Z.of_nat (length xs)) * (unitRoundoff * M + tiny)
       <= toQ (fold_left add xs acc)
    /\ toQ (fold_left add xs acc)
       <= toQ acc + sumQ xs
          + inject_Z (Z.of_nat (length xs)) * (unitRoundoff * M + tiny).
Proof.
  induction xs as [|x xs IH];
    intros acc Ab Pb M Hacc Hlo Hhi Hxs HAb HPb HM0 HM Hov.
  - cbn [fold_left sumQ fold_right length]. split; [assumption|].
    change (inject_Z (Z.of_nat 0)) with 0. lra.
  - cbn [fold_left sumQ fold_right length] in *. fold (sumQ xs).
    rewrite inject_nat_succ in *.
    pose proof (inject_nat_nonneg (length xs)) as Hn.
    pose proof tiny_pos as Ht.
    assert (Hu : 0 < unitRoundoff) by reflexivity.
    assert (HuM : 0 <= unitRoundoff * M) by (apply Qmult_le_0_compat; lra).
    set (n := inject_Z (Z.of_nat (length xs))) in *.
    set (E := unitRoundoff * M + tiny) in *.
    assert (HnP : 0 <= n * (Pb + E)).
    { apply Qmult_le_0_compat; [assumption|]. unfold E. lra. }
    assert (HnE : 0 <= n * E).
    { apply Qmult_le_0_compat; [assumption|]. unfold E. lra. }
    inversion Hxs as [|x' xs' [Hx [Hxlo Hxhi]] Hxs']; subst x' xs'.
    assert (HE : 0 <= E) by (unfold E; lra).
    assert (HEdef : E == unitRoundoff * M + tiny) by reflexivity.
    clearbody n E.
    destruct (@add_error acc x M Hacc Hx) as (Ha & Halo & Hahi);
      [lra|lra|assumption|].
    rewrite <- HEdef in Halo, Hahi.
    destruct (IH (add acc x) (Ab + Pb + E) Pb M Ha) as (Hr & Hrlo & Hrhi);
      try assumption; try lra.
    + rewrite <- HEdef. lra.
    + rewrite <- HEdef in Hrlo, Hrhi. split; [assumption|]. split; lra.
Qed.

Lemma sumQ_line (a b tau : Q) (xs : list F64.float) :
  forall s : nat,
    (forall t, (t < length xs)%nat ->
               exists p, nth_error xs t = Some p
                         /\ lineAt a b (s + t) - tau <= toQ p
                         /\ toQ p <= lineAt a b (s + t) + tau) ->
    sumLine a b s (length xs) - inject_Z (Z.of_nat (length xs)) * tau
    <= sumQ xs
    /\ sumQ xs
       <= sumLine a b s (length xs) + inject_Z (Z.of_nat (length xs)) * tau.
Proof.
  induction xs as [|x xs IH]; intros s Hxs.
  - cbn [sumQ fold_right length sumLine].
    change (inject_Z (Z.of_nat 0)) with 0. lra.
  - cbn [sumQ fold_right length sumLine]. fold (sumQ xs).
    rewrite inject_nat_succ.
    destruct (Hxs 0%nat ltac:(cbn; lia)) as (p & Hp & Hlo & Hhi).
    cbn in Hp. injection Hp as <-. rewrite Nat.add_0_r in Hlo, Hhi.
    destruct (IH (S s)) as [IHlo IHhi].
    { intros t Ht. destruct (Hxs (S t) ltac:(cbn; lia)) as (p & Hp & H1 & H2).
      exists p. cbn in Hp. rewrite <- Nat.add_succ_comm in H1, H2. auto. }
    split; lra.
Qed.
End Sums.

Section OnALine.
Local Open Scope Q_scope.
Variables (a b P : Q) (prices : list F64.float).
Hypothesis Hb : 0 < b.
Hypothesis Hsmall : 1152921504606846976 * tiny <= b.
Hypothesis HbP : b <= P.
Hypothesis Hratio : P <= ratio * b.
Hypothesis Hbig : 64 * P <= pow2 1023.
Hypothesis Hline : followsLine a b P prices.

Lemma lineAt_succ (i : nat) : lineAt a b (S i) == lineAt a b i + b.
Proof. unfold lineAt. rewrite inject_nat_succ. ring. Qed.

Lemma price_at (i : nat) :
  (i < length prices)%nat ->
  near (get prices (Z.of_nat i)) (lineAt a b i) (tolerance b).
Proof.
  intros Hi. destruct (Hline Hi) as [(p & Hp & Hd & Hlo & Hhi) _].
  rewrite (get_nth _ _ Hp). now split.
Qed.

Lemma seed_near (W : nat) (lam : Q) :
  (W = 12 \/ W = 26)%nat -> (W <= length prices)%nat ->
  sumLine a b 0 W
  == inject_Z (Z.of_nat W) * (lineAt a b (W - 1) - lam * b) ->
  near (mean (firstn W prices)) (lineAt a b (W - 1) - lam * b) (2 * b).
Proof.
  intros HW Hlen Hsum.
  pose proof tiny_pos as Ht.
  set (xs := firstn W prices).
  assert (Hxlen : length xs = W) by (unfold xs; rewrite length_firstn; lia).
  assert (Hnth : forall t, (t < W)%nat -> nth_error xs t = nth_error prices t).
  { intros t Htw. unfold xs. rewrite nth_error_firstn.
    now destruct (Nat.ltb_spec t W); [|lia]. }
  assert (Hall : Forall (fun x => isDouble x = true
                                  /\ - (P + tolerance b) <= toQ x
                                  /\ toQ x <= P + tolerance b) xs).
  { apply Forall_forall. intros x Hin. apply In_nth_error in Hin as [t Hx].
    assert (Htw : (t < W)%nat).
    { rewrite <- Hxlen. apply nth_error_Some. now rewrite Hx. }
    rewrite Hnth in Hx by assumption.
    destruct (@Hline t ltac:(lia)) as [(p & Hp & Hd & Hlo & Hhi) [Hm1 Hm2]].
    rewrite Hx in Hp. injection Hp as <-. split; [assumption|]. split; lra. }
  assert (HsumQ := @sumQ_line a b (tolerance b) xs 0%nat).
  destruct HsumQ as [Hslo Hshi].
  { intros t Htw. rewrite Hxlen in Htw. rewrite Hnth by assumption.
    destruct (@Hline t ltac:(lia)) as [(p & Hp & Hd & Hlo & Hhi) _].
    exists p. auto. }
  rewrite Hxlen, Hsum in Hslo, Hshi.
  set (M := 32 * P).
  assert (toQ0 : toQ (of_Z 0 : F64.float) == 0) by reflexivity.
  assert (HP0 : 0 < P) by lra.
  assert (HM0 : 0 <= M) by (unfold M; lra).
  assert (HPb : 0 <= P + tolerance b) by (unfold tolerance; lra).
  assert (HMov : M < pow2 1023) by (unfold M; lra).
  assert (Hbudget :
    0 + inject_Z (Z.of_nat (length xs))
        * (P + tolerance b + (unitRoundoff * M + tiny)) <= M).
  { rewrite Hxlen. unfold M, ratio, tolerance, unitRoundoff in *.
    destruct HW as [-> | ->];
      [change (inject_Z (Z.of_nat 12)) with 12
      |change (inject_Z (Z.of_nat 26)) with 26]; lra. }
  destruct (@fold_add_error xs (@of_Z F64.float binary64 0) 0
              (P + tolerance b) M
              ltac:(reflexivity) ltac:(rewrite toQ0; lra)
              ltac:(rewrite toQ0; lra)
              Hall ltac:(lra) HPb HM0 Hbudget HMov)
    as (Hf & Hflo & Hfhi).
  clear Hbudget.
  rewrite Hxlen, toQ0 in Hflo, Hfhi.
  unfold mean. rewrite Hxlen.
  set (total := fold_left add xs (of_Z 0)) in *.
  set (T := lineAt a b (W - 1) - lam * b) in *.
  assert (HT : - P <= T /\ T <= P).
  { (* the target is the mean of the first W values of the line *)
    clear Hflo Hfhi.
    destruct HW as [-> | ->]; cbn [sumLine] in Hsum;
      [change (inject_Z (Z.of_nat 12)) with 12 in *
      |change (inject_Z (Z.of_nat 26)) with 26 in *];
      [pose proof (@Hline 0%nat ltac:(lia)) as [_ [L0 U0]];
       pose proof (@Hline 11%nat ltac:(lia)) as [_ [L1 U1]]
      |pose proof (@Hline 0%nat ltac:(lia)) as [_ [L0 U0]];
       pose proof (@Hline 25%nat ltac:(lia)) as [_ [L1 U1]]];
      unfold lineAt in *; cbn [Z.of_nat Pos.of_succ_nat Pos.succ] in *;
      unfold T in *; clearbody xs total; unfold lineAt in *;
      cbn [Nat.sub Z.of_nat Pos.of_succ_nat Pos.succ] in *;
      unfold inject_Z in *; split; lra. }
  destruct HW as [-> | ->].
  - change (inject_Z (Z.of_nat 12)) with 12 in *.
    change (Z.of_nat 12) with 12%Z.
    destruct (@div_error total (of_Z 12) (toQ total * (1 # 12)) (4 * P))
      as (Hd & Hdlo & Hdhi); try reflexivity; try assumption.
    + discriminate.
    + assert (H12 : toQ (of_Z 12 : F64.float) == 12) by reflexivity.
      rewrite H12. field.
    + unfold tolerance, M, ratio, unitRoundoff in *. lra.
    + unfold tolerance, M, ratio, unitRoundoff in *. lra.
    + lra.
    + split; [assumption|].
      unfold tolerance, M, ratio, unitRoundoff in *. split; lra.
  - change (inject_Z (Z.of_nat 26)) with 26 in *.
    change (Z.of_nat 26) with 26%Z.
    destruct (@div_error total (of_Z 26) (toQ total * (1 # 26)) (4 * P))
      as (Hd & Hdlo & Hdhi); try reflexivity; try assumption.
    + discriminate.
    + assert (H26 : toQ (of_Z 26 : F64.float) == 26) by reflexivity.
      rewrite H26. field.
    + unfold tolerance, M, ratio, unitRoundoff in *. lra.
    + unfold tolerance, M, ratio, unitRoundoff in *. lra.
    + lra.
    + split; [assumption|].
      unfold tolerance, M, ratio, unitRoundoff in *. split; lra.
Qed.

Lemma step_near (W : Z) (lam : Q) (i : nat) (p E : F64.float) :
  (W = 12%Z /\ lam == 11 # 2) \/ (W = 26%Z /\ lam == 25 # 2) ->
  - P <= lineAt a b (S i) -> lineAt a b (S i) <= P ->
  near p (lineAt a b (S i)) (tolerance b) ->
  near E (lineAt a b i - lam * b) (2 * b) ->
  near (emaStep W p E) (lineAt a b (S i) - lam * b) (2 * b).
Proof.
  intros HW Hlo Hhi (Hp & Hplo & Hphi) (HE & HElo & HEhi).
  pose proof tiny_pos as Ht. unfold near. rewrite lineAt_succ in *.
  set (L := lineAt a b i) in *. clearbody L.
  unfold emaStep.
  assert (Hk : exists kq : Q,
             isDouble (emaMultiplier W : F64.float) = true
             /\ toQ (emaMultiplier W : F64.float) == kq
             /\ ((lam == 11 # 2
                  /\ kq == 1385722962267845 # 9007199254740992)
                 \/ (lam == 25 # 2
                     /\ kq == 667199944795629 # 9007199254740992))).
  { destruct HW as [[-> Hl]|[-> Hl]].
    - exists (1385722962267845 # 9007199254740992).
      split; [reflexivity|]. split; [reflexivity|]. left. now split.
    - exists (667199944795629 # 9007199254740992).
      split; [reflexivity|]. split; [reflexivity|]. right. now split. }
  destruct Hk as (kq & Hkd & Hkv & Hk). clear HW.
  set (k := emaMultiplier W : F64.float) in *. clearbody k.
  unfold tolerance, unitRoundoff, ratio in *.
  destruct (@sub_error p E (32 * b) Hp HE) as (Hd & Hdlo & Hdhi).
  { destruct Hk as [(Hl & _)|(Hl & _)]; rewrite Hl in *; lra. }
  { destruct Hk as [(Hl & _)|(Hl & _)]; rewrite Hl in *; lra. }
  { lra. }
  set (d := sub p E) in *. clearbody d. unfold unitRoundoff in Hdlo, Hdhi.
  destruct (@mul_error d k (32 * b) Hd Hkd) as (Hm & Hmlo & Hmhi).
  { rewrite Hkv.
    destruct Hk as [(Hl & Hq)|(Hl & Hq)]; rewrite Hl, Hq in *; lra. }
  { rewrite Hkv.
    destruct Hk as [(Hl & Hq)|(Hl & Hq)]; rewrite Hl, Hq in *; lra. }
  { lra. }
  set (t := mul d k) in *. clearbody t. rewrite Hkv in Hmlo, Hmhi.
  unfold unitRoundoff in Hmlo, Hmhi.
  destruct (@add_error t E (P + 32 * b) Hm HE) as (Hr & Hrlo & Hrhi).
  { destruct Hk as [(Hl & Hq)|(Hl & Hq)]; rewrite Hl, Hq in *; lra. }
  { destruct Hk as [(Hl & Hq)|(Hl & Hq)]; rewrite Hl, Hq in *; lra. }
  { lra. }
  split; [assumption|].
  unfold unitRoundoff in Hrlo, Hrhi.
  destruct Hk as [(Hl & Hq)|(Hl & Hq)]; rewrite Hl, Hq in *; split; lra.
Qed.
End OnALine.

Section LastOfLine.
Local Open Scope Q_scope.

Lemma truthy_positive (x : F64.float) :
  isDouble x = true -> 0 < toQ x -> truthy x = true.
Proof.
  destruct x as [s|s| |[] m e]; cbn; try discriminate; intros _ H;
    try reflexivity; try lra.
Qed.

Lemma last_of_filter {A : Type} (f : A -> bool) (xs : list A) (x : A) :
  nth_error xs (length xs - 1) = Some x -> f x = true ->
  at_ (filter f xs) (Z.of_nat (length (filter f xs)) - 1) = Some x.
Proof.
  intros Hnth Hf. rewrite at_last.
  assert (Hrev : exists rest, rev xs = x :: rest).
  { destruct (rev xs) as [|y rest] eqn:Hr.
    - apply (f_equal (@rev A)) in Hr. rewrite rev_involutive in Hr.
      subst xs. destruct (length (@nil A) - 1)%nat; discriminate.
    - exists rest. f_equal.
      apply (f_equal (@rev A)) in Hr. rewrite rev_involutive in Hr.
      subst xs. cbn [rev] in Hnth. rewrite length_app in Hnth.
      cbn [length] in Hnth.
      rewrite nth_error_app2 in Hnth by lia.
      replace (length (rev rest) + 1 - 1 - length (rev rest))%nat with 0%nat
        in Hnth by lia.
      cbn in Hnth. congruence. }
  destruct Hrev as [rest Hrev].
  assert (Hfr : rev (filter f xs) = filter f (rev xs)).
  { clear. induction xs as [|y xs IH]; [reflexivity|].
    cbn [filter rev]. rewrite filter_app. cbn [filter].
    destruct (f y); cbn [rev]; rewrite IH; [reflexivity|].
    now rewrite app_nil_r. }
  rewrite Hfr, Hrev. cbn [filter]. now rewrite Hf.
Qed.
End LastOfLine.

Section OnALineMacd.
Local Open Scope Q_scope.
Variables (a b P : Q) (prices : list F64.float).
Hypothesis Hb : 0 < b.
Hypothesis Hsmall : 1152921504606846976 * tiny <= b.
Hypothesis HbP : b <= P.
Hypothesis Hratio : P <= ratio * b.
Hypothesis Hbig : 64 * P <= pow2 1023.
Hypothesis Hline : followsLine a b P prices.

Lemma ema_near (W : Z) (lam : Q) :
  (W = 12%Z /\ lam == 11 # 2) \/ (W = 26%Z /\ lam == 25 # 2) ->
  forall k : nat,
    (Z.to_nat W - 1 + k < length prices)%nat ->
    near (get (calculateEMA prices W) (Z.of_nat (Z.to_nat W - 1 + k)))
         (lineAt a b (Z.to_nat W - 1 + k) - lam * b) (2 * b).
Proof.
  intros HW.
  assert (HWn : (Z.to_nat W = 12 \/ Z.to_nat W = 26)%nat
                /\ Z.of_nat (Z.to_nat W) = W).
  { destruct HW as [[-> _]|[-> _]]; split; auto. }
  destruct HWn as [HWn HWz].
  induction k as [|k IH]; intros Hk.
  - rewrite Nat.add_0_r in *.
    assert (Hseed : get (calculateEMA prices W) (Z.of_nat (Z.to_nat W - 1))
                    = mean (firstn (Z.to_nat W) prices)).
    { unfold get. replace (Z.of_nat (Z.to_nat W - 1)) with (W - 1)%Z by lia.
      rewrite calculateEMA_seed; [reflexivity|]. lia. }
    rewrite Hseed.
    destruct HW as [[-> Hl]|[-> Hl]].
    + assert (Hn : near (mean (firstn 12 prices))
                        (lineAt a b (12 - 1) - lam * b) (2 * b)).
      { apply seed_near with (P := P); try assumption.
        cbn [sumLine Nat.sub]. unfold lineAt.
        cbn [Z.of_nat Pos.of_succ_nat Pos.succ]. unfold inject_Z.
        rewrite Hl. ring. }
      exact Hn.
    + assert (Hn : near (mean (firstn 26 prices))
                        (lineAt a b (26 - 1) - lam * b) (2 * b)).
      { apply seed_near with (P := P); try assumption.
        cbn [sumLine Nat.sub]. unfold lineAt.
        cbn [Z.of_nat Pos.of_succ_nat Pos.succ]. unfold inject_Z.
        rewrite Hl. ring. }
      exact Hn.
  - replace (Z.to_nat W - 1 + S k)%nat with (S (Z.to_nat W - 1 + k)) in * by lia.
    set (i := (Z.to_nat W - 1 + k)%nat) in *.
    assert (Hstep : get (calculateEMA prices W) (Z.of_nat (S i))
                    = emaStep W (get prices (Z.of_nat (S i)))
                              (get (calculateEMA prices W) (Z.of_nat i))).
    { unfold get at 1. rewrite calculateEMA_step.
      - cbn [toNumber]. do 2 f_equal. lia.
      - lia.
      - unfold i. lia. }
    rewrite Hstep.
    destruct (@Hline (S i) Hk) as [_ [Hlo Hhi]].
    apply step_near with (P := P); try assumption.
    + now apply price_at with (P := P).
    + apply IH. lia.
Qed.

Lemma macd_positive_on_line :
  (26 <= length prices)%nat ->
  gtb (MACD.macd (calculateMACD prices)) (of_Z 0) = true.
Proof.
  intros Hlen.
  set (i := (length prices - 1)%nat).
  assert (H12 := @ema_near 12 (11 # 2) ltac:(left; split; [reflexivity|reflexivity])
                   (i - 11)%nat).
  assert (H26 := @ema_near 26 (25 # 2) ltac:(right; split; [reflexivity|reflexivity])
                   (i - 25)%nat).
  change (Z.to_nat 12 - 1)%nat with 11%nat in H12.
  change (Z.to_nat 26 - 1)%nat with 25%nat in H26.
  replace (11 + (i - 11))%nat with i in H12 by (unfold i; lia).
  replace (25 + (i - 25))%nat with i in H26 by (unfold i; lia).
  specialize (H12 ltac:(unfold i; lia)). specialize (H26 ltac:(unfold i; lia)).
  destruct H12 as (Hd12 & Hlo12 & Hhi12). destruct H26 as (Hd26 & Hlo26 & Hhi26).
  set (e12 := get (calculateEMA prices 12) (Z.of_nat i)) in *.
  set (e26 := get (calculateEMA prices 26) (Z.of_nat i)) in *.
  pose proof tiny_pos as Ht.
  destruct (@sub_error e12 e26 (16 * b) Hd12 Hd26) as (Hm & Hmlo & Hmhi);
    [lra|lra|lra|].
  assert (Hpos : 0 < toQ (sub e12 e26)).
  { unfold unitRoundoff in *. lra. }
  assert (Hnth : nth_error (macdLineOf prices) (length (macdLineOf prices) - 1)
                 = Some (sub e12 e26)).
  { rewrite macdLineOf_length. fold i. rewrite macdLineOf_nth by (unfold i; lia).
    cbv zeta. fold e12 e26.
    now rewrite (isDouble_not_NaN _ Hd12), (isDouble_not_NaN _ Hd26). }
  unfold calculateMACD. cbv zeta. cbn [MACD.macd]. unfold validMacdOf.
  rewrite (last_of_filter _ _ Hnth)
    by (now rewrite (isDouble_not_NaN _ Hm)).
  unfold orZero. rewrite (truthy_positive _ Hm Hpos).
  now apply gtb_zero.
Qed.
End OnALineMacd.

Section FromTheLine.
Local Open Scope Q_scope.

Lemma nearLine_follows (a b : Q) (prices : list F64.float) :
  (26 <= length prices)%nat ->
  pow2 (-1015) <= b -> nearLine a b prices ->
  exists P : Q,
    0 < b
    /\ 1152921504606846976 * tiny <= b
    /\ b <= P
    /\ P <= ratio * b
    /\ 64 * P <= pow2 1023
    /\ followsLine a b P prices.
Proof.
  intros Hlen Hlo Hon.
  pose proof (pow2_pos (-1015)) as Hp. pose proof tiny_pos as Ht.
  assert (Hb : 0 < b) by lra.
  assert (Hsmall : 1152921504606846976 * tiny <= b).
  { apply Qle_trans with (pow2 (-1015)); [|assumption].
    unfold tiny.
    setoid_replace 1152921504606846976 with (pow2 60) by reflexivity.
    rewrite <- pow2_add. apply pow2_le. lia. }
  assert (H64 : 64 * pow2 1017 == pow2 1023).
  { setoid_replace 64 with (pow2 6) by reflexivity.
    now rewrite <- pow2_add. }
  assert (Hat : forall i, (i < length prices)%nat ->
             exists p, nth_error prices i = Some p
                       /\ isDouble p = true
                       /\ (lineAt a b i - tolerance b <= toQ p
                           /\ toQ p <= lineAt a b i + tolerance b)
                       /\ (- (ratio * b) <= lineAt a b i
                           /\ lineAt a b i <= ratio * b)
                       /\ (- pow2 1017 <= lineAt a b i
                           /\ lineAt a b i <= pow2 1017)).
  { intros i Hi.
    destruct (nth_error prices i) as [p|] eqn:Hp';
      [|apply nth_error_None in Hp'; lia].
    exists p. split; [reflexivity|]. exact (Hon i p Hp'). }
  assert (Hb1017 : b <= pow2 1017).
  { destruct (Hat 0%nat ltac:(lia)) as (p0 & _ & _ & _ & _ & H0).
    destruct (Hat 25%nat ltac:(lia)) as (p25 & _ & _ & _ & _ & H25).
    unfold lineAt in H0, H25. cbn [Z.of_nat Pos.of_succ_nat Pos.succ] in *.
    unfold inject_Z in *. pose proof (pow2_pos 1017). lra. }
  assert (Hfollows : forall P : Q,
             (forall i, (i < length prices)%nat ->
                        - P <= lineAt a b i /\ lineAt a b i <= P) ->
             followsLine a b P prices).
  { intros P HP i Hi. destruct (Hat i Hi) as (p & Hp' & Hd & Hv & _ & _).
    split; [|now apply HP].
    exists p. repeat split; try assumption; tauto. }
  destruct (Qlt_le_dec (ratio * b) (pow2 1017)) as [Hcase|Hcase].
  - exists (ratio * b).
    split; [exact Hb|]. split; [exact Hsmall|].
    split; [unfold ratio; lra|]. split; [lra|]. split; [lra|].
    apply Hfollows. intros i Hi.
    destruct (Hat i Hi) as (p & _ & _ & _ & Hm & _). exact Hm.
  - exists (pow2 1017).
    split; [exact Hb|]. split; [exact Hsmall|].
    split; [exact Hb1017|]. split; [exact Hcase|]. split; [lra|].
    apply Hfollows. intros i Hi.
    destruct (Hat i Hi) as (p & _ & _ & _ & _ & Hm). exact Hm.
Qed.

(** Prices that are doubles exactly on the line are along it. *)
Lemma nearLine_exact (a b : Q) (prices : list F64.float) :
  0 <= b ->
  (forall (i : nat) (p : F64.float),
      nth_error prices i = Some p ->
      isDouble p = true
      /\ toQ p == lineAt a b i
      /\ (- (ratio * b) <= toQ p /\ toQ p <= ratio * b)
      /\ (- pow2 1017 <= toQ p /\ toQ p <= pow2 1017)) ->
  nearLine a b prices.
Proof.
  intros Hb Hon i p Hp. destruct (Hon i p Hp) as (Hd & Hv & Hm & Hm').
  pose proof tiny_pos as Ht. rewrite <- Hv.
  split; [exact Hd|]. split; [unfold tolerance; lra|]. tauto.
Qed.

(** The steep line of prices [2^1017 * i] consists of doubles on a line
    that stays within [2^48] times its slope; only its prices above
    [2^1017] keep it out of the sequences of [nearLine]. *)
Example steepLine_exceeds_the_bound :
  (forall (i : nat) (p : F64.float),
      nth_error steepLine i = Some p ->
      isDouble p = true
      /\ toQ p == lineAt 0 (pow2 1017) i
      /\ - (ratio * pow2 1017) <= toQ p
      /\ toQ p <= ratio * pow2 1017)
  /\ pow2 (-1015) <= pow2 1017
  /\ exists p, nth_error steepLine 39 = Some p /\ pow2 1017 < toQ p.
Proof.
  split; [|split].
  - remember steepLine as prices eqn:Hprices. vm_compute in Hprices.
    subst prices. intros i p.
    do 40 (destruct i as [|i];
           [intros [= <-]; repeat split; vm_compute;
            (reflexivity || discriminate)|]).
    destruct i; discriminate.
  - vm_compute. discriminate.
  - remember steepLine as prices eqn:Hprices. vm_compute in Hprices.
    subst prices. eexists. split; [reflexivity|]. vm_compute. reflexivity.
Qed.


End FromTheLine.

(** ** The claims *)

Section Claims.
Local Open Scope Z_scope.

(** C1. For every price sequence of length N and every window W with
    1 <= W <= N, [calculateSMA] returns N elements; the element at each
    index i < W-1 is NaN (not applicable) and the element at each index
    i >= W-1 is the arithmetic mean of prices[i-W+1 .. i], the sum being
    taken from left to right in double arithmetic.  In particular
    calculateSMA([1,2,3,4,5], 3) = [NaN, NaN, 2, 3, 4]. *)
Theorem calculateSMA_window_means :
  (forall (prices : list F64.float) (W : Z),
      1 <= W <= Z.of_nat (length prices) ->
      length (calculateSMA prices W) = length prices
      /\ (forall i, 0 <= i < W - 1 ->
                    at_ (calculateSMA prices W) i = Some NaN)
      /\ (forall i, W - 1 <= i < Z.of_nat (length prices) ->
                    at_ (calculateSMA prices W) i
                    = Some (mean (window prices i W))))
  /\ calculateSMA (map of_Z [1; 2; 3; 4; 5]) 3
     = [NaN; NaN; of_Z 2; of_Z 3; of_Z 4 : F64.float].
Proof.
  split; [|vm_compute; reflexivity].
  intros prices W HW. split; [apply calculateSMA_length|]. split.
  - intros i Hi. apply calculateSMA_before; lia.
  - intros i Hi. apply calculateSMA_mean; lia.
Qed.

(** C1 on six prices with W = 2, at index 3. *)
Lemma calculateSMA_window_means_witness :
  at_ (calculateSMA (map of_Z [3; 1; 4; 1; 5; 9] : list F64.float) 2) 3
  = Some (mean (window (map of_Z [3; 1; 4; 1; 5; 9]) 3 2)).
Proof.
  apply (proj1 calculateSMA_window_means
               (map of_Z [3; 1; 4; 1; 5; 9]) 2); simpl; lia.
Defined.

(** C2, as stated: three prices equal to the double 0.1 and W = 3 give
    an EMA seed that is not 0.1. *)
Lemma ema_seed_of_tenths_is_not_a_tenth :
  startsConstant [tenth; tenth; tenth] 3 tenth
  /\ at_ (calculateEMA [tenth; tenth; tenth] 3) (3 - 1)
     = Some (S754_finite false 7205759403792795 (-56))
  /\ at_ (calculateEMA [tenth; tenth; tenth] 3) (3 - 1) <> Some tenth.
Proof.
  split; [|split].
  - intros j Hj.
    assert (Hcases : j = 0 \/ j = 1 \/ j = 2) by lia.
    destruct Hcases as [->|[->| ->]]; reflexivity.
  - vm_compute. reflexivity.
  - vm_compute. discriminate.
Qed.

(** C2, amended. For every price sequence of length N >= W >= 1,
    [calculateEMA] returns N elements whose first W-1 entries are NaN,
    whose entry at index W-1 is the simple average of the first W prices,
    and whose entry at every index i > W-1 is
    (price[i] - ema[i-1]) * k + ema[i-1] with k = 2/(W+1).  If the first W
    prices all equal v, the entry at W-1 is the average of W copies of v as
    double arithmetic computes it; that average is v in exact arithmetic,
    and in doubles for instance for every whole v from 1 to 300 with
    W = 9, 12 or 26. *)
Theorem calculateEMA_recurrence_and_seed :
  (forall (prices : list F64.float) (W : Z),
      1 <= W <= Z.of_nat (length prices) ->
      length (calculateEMA prices W) = length prices
      /\ (forall i, 0 <= i < W - 1 ->
                    at_ (calculateEMA prices W) i = Some NaN)
      /\ at_ (calculateEMA prices W) (W - 1)
         = Some (mean (firstn (Z.to_nat W) prices))
      /\ (forall i, W - 1 < i < Z.of_nat (length prices) ->
                    at_ (calculateEMA prices W) i
                    = Some (emaStep W (get prices i)
                                    (get (calculateEMA prices W) (i - 1))))
      /\ (forall v, startsConstant prices W v ->
                    at_ (calculateEMA prices W) (W - 1)
                    = Some (mean (repeat v (Z.to_nat W)))))
  /\ (forall (prices : list Exact.t) (W : Z) (v : Qc),
         1 <= W <= Z.of_nat (length prices) ->
         startsConstant prices W (Exact.XVal v) ->
         at_ (calculateEMA prices W) (W - 1) = Some (Exact.XVal v))
  /\ (forall (v : Z) (W : nat),
         In v wholePrices -> In W emaWindows ->
         mean (repeat (of_Z v : F64.float) W) = of_Z v).
Proof.
  split; [|split].
  3: { intros v W Hv HW. apply same_eq.
       assert (Hall : forallb (fun v => forallb (seedIsExact v) emaWindows)
                              wholePrices = true) by (vm_compute; reflexivity).
       rewrite forallb_forall in Hall. specialize (Hall v Hv).
       rewrite forallb_forall in Hall. exact (Hall W HW). }
  - intros prices W HW. split; [apply calculateEMA_length|].
    split; [intros i Hi; apply calculateEMA_before; lia|].
    split; [now apply calculateEMA_seed|].
    split; [intros i Hi; apply calculateEMA_step; lia|].
    intros v Hv. now apply calculateEMA_constant_seed.
  - intros prices W v HW Hv.
    rewrite (calculateEMA_constant_seed HW Hv), mean_repeat by lia.
    reflexivity.
Qed.

(** C2 in exact arithmetic on the prices 7, 7, 9 with W = 2. *)
Lemma calculateEMA_recurrence_and_seed_witness :
  at_ (calculateEMA (map of_Z [7; 7; 9] : list Exact.t) 2) (2 - 1)
  = Some (Exact.XVal (Exact.qz 7)).
Proof.
  apply (proj1 (proj2 calculateEMA_recurrence_and_seed)
               (map of_Z [7; 7; 9]) 2 (Exact.qz 7)).
  - simpl. lia.
  - intros j Hj. assert (Hcases : j = 0 \/ j = 1) by lia.
    destruct Hcases as [->| ->]; reflexivity.
Defined.

(** C3, as stated: on the 26 prices 1, 2, ..., 26 the signal line is not
    empty, its last value is NaN, and the signal returned is 0. *)
Lemma signal_is_zero_when_signal_line_ends_in_NaN :
  signalLineOf oneTo26 = [NaN]
  /\ MACD.signal (calculateMACD oneTo26) = of_Z 0
  /\ MACD.signal (macdSpec oneTo26) = NaN
  /\ calculateMACD oneTo26 <> macdSpec oneTo26.
Proof.
  repeat split; try (vm_compute; reflexivity). vm_compute. discriminate.
Qed.

(** C3, amended. For every price sequence [calculateMACD] computes EMA(12)
    and EMA(26) over the full sequence, forms the MACD line as
    EMA12[i] - EMA26[i] where both are defined (NaN otherwise), drops the
    NaN entries, takes EMA(9) of the compacted sequence as the signal line,
    and returns macd = the last value of the compacted line and signal = the
    last value of the signal line, each replaced by 0 when the sequence is
    empty or that last value is NaN or zero, and histogram = macd - signal.
    It agrees with the plain last values whenever both sequences are empty
    or end in a number other than zero; for fewer than 26 prices it returns
    macd = 0, signal = 0, histogram = 0. *)
Theorem calculateMACD_compacts_then_falls_back (prices : list F64.float) :
  calculateMACD prices = macdFallback prices
  /\ (keepsLast (compact (macdLineSpec prices)) ->
      keepsLast (calculateEMA (compact (macdLineSpec prices)) 9) ->
      calculateMACD prices = macdSpec prices)
  /\ ((length prices < 26)%nat ->
      calculateMACD prices
      = {| MACD.macd := of_Z 0; MACD.signal := of_Z 0;
           MACD.histogram := of_Z 0 |}).
Proof.
  split; [apply calculateMACD_fallback|].
  split; [apply calculateMACD_spec_when_kept|].
  intros Hlen. now rewrite calculateMACD_short.
Qed.

(** C3 on three prices. *)
Lemma calculateMACD_compacts_then_falls_back_witness :
  calculateMACD (map of_Z [10; 11; 12] : list F64.float)
  = {| MACD.macd := of_Z 0; MACD.signal := of_Z 0; MACD.histogram := of_Z 0 |}.
Proof.
  apply (proj2 (proj2 (calculateMACD_compacts_then_falls_back
                         (map of_Z [10; 11; 12])))).
  simpl. lia.
Defined.

(** C4, as stated: no price and snapshot drive the score before the clamp
    above 100, and none drive it below 0. *)
Lemma no_rawScore_outside_0_100 :
  ~ (exists (currentPrice : F64.float) indicators,
        gtb (rawScore currentPrice indicators) (of_Z 100) = true)
  /\ ~ (exists (currentPrice : F64.float) indicators,
           ltb (rawScore currentPrice indicators) (of_Z 0) = true).
Proof.
  split; intros (currentPrice & indicators & Hout);
    destruct (scorer_range currentPrice indicators)
      as (n & _ & _ & _ & _ & Hhi & Hlo); congruence.
Qed.

(** C4, amended. Combining all bullish adjustments gives the score 95 and
    combining all bearish adjustments gives 5, before and after the clamp;
    these are the extremes, the score before the clamp always being a whole
    number from 5 to 95, so the clamp never changes it, and overallScore is
    always an integer. *)
Theorem extreme_scores_95_and_5 :
  (allVotes bullish oversold buy (analyzeStock (of_Z 110) allBullish)
   /\ gtb (of_Z 110) (toNumber (sma200 allBullish)) = true
   /\ rawScore (of_Z 110) allBullish = of_Z 95
   /\ Signals.overallScore (analyzeStock (of_Z 110) allBullish) = of_Z 95)
  /\ (allVotes bearish overbought sell (analyzeStock (of_Z 80) allBearish)
      /\ gtb (of_Z 80) (toNumber (sma200 allBearish)) = false
      /\ rawScore (of_Z 80) allBearish = of_Z 5
      /\ Signals.overallScore (analyzeStock (of_Z 80) allBearish) = of_Z 5)
  /\ (forall (currentPrice : F64.float) indicators,
         exists n : Z,
           (5 <= n <= 95)%Z
           /\ rawScore currentPrice indicators = of_Z n
           /\ Signals.overallScore (analyzeStock currentPrice indicators)
              = of_Z n).
Proof.
  split; [|split].
  - vm_compute. auto 10.
  - vm_compute. auto 10.
  - intros currentPrice indicators.
    destruct (scorer_range currentPrice indicators)
      as (n & Hn & Hraw & _ & Hscore & _).
    exists n. auto.
Qed.

(** C5, as stated: with sma20, sma50 and sma200 all present and the price
    above sma200, the score carries no sma200 adjustment when sma20 is
    zero; nor does it when sma200 is present as NaN, as in the snapshot
    [calculateIndicators] returns for 60 bars. *)
Lemma sma200_adjustment_skipped_on_zero :
  (sma20 zeroSma20 = Some (of_Z 0) /\ sma50 zeroSma20 = Some (of_Z 5)
   /\ sma200 zeroSma20 = Some (of_Z 5)
   /\ gtb (of_Z 10) (toNumber (sma200 zeroSma20)) = true
   /\ rawScore (of_Z 10) zeroSma20 = of_Z 50
   /\ ~ sma200Adjusted (of_Z 10) zeroSma20)
  /\ (sma20 shortHistory = Some (of_Z 100)
      /\ sma50 shortHistory = Some (of_Z 100)
      /\ sma200 shortHistory = Some NaN
      /\ rawScore (of_Z 110) shortHistory = of_Z 40
      /\ ~ sma200Adjusted (of_Z 110) shortHistory).
Proof.
  split.
  - repeat split. unfold sma200Adjusted. vm_compute. discriminate.
  - repeat split; try (vm_compute; reflexivity).
    unfold sma200Adjusted. vm_compute. discriminate.
Qed.

(** C5, amended. For every current price and every snapshot in which
    sma20, sma50 and sma200 are all truthy (defined, not NaN and not zero),
    the scorer applies the sma200 adjustment: 10 points up when the price
    is above sma200, 10 points down otherwise, whichever trend label
    (bullish, bearish or neutral) the block chose. *)
Theorem sma200_adjustment_when_truthy (currentPrice : F64.float)
        (indicators : TechnicalIndicators F64.float) :
  truthyO (sma20 indicators) = true ->
  truthyO (sma50 indicators) = true ->
  truthyO (sma200 indicators) = true ->
  sma200Adjusted currentPrice indicators.
Proof.
  intros H20 H50 H200. unfold sma200Adjusted, rawScore, analyzeStock.
  pose proof (scoreAndLabels_adjustments currentPrice indicators) as Hs.
  destruct (scoreAndLabels currentPrice indicators) as [[[score t] r] m].
  destruct Hs as [-> _]. unfold afterSmaBlock, smaGuard.
  rewrite H20, H50, H200.
  cbn [andb Signals.trend Signals.rsiSignal Signals.macdSignal].
  pose proof (adjustments_in_range t r m
                (gtb currentPrice (toNumber (sma200 indicators))) true) as Hr.
  cbv zeta in Hr. destruct Hr as (_ & Hz & Hsum & _).
  rewrite Hz at 1. rewrite Hsum. f_equal. lia.
Qed.

(** C5 on the all-bullish snapshot at the price 110. *)
Lemma sma200_adjustment_when_truthy_witness :
  sma200Adjusted (of_Z 110) allBullish.
Proof.
  apply sma200_adjustment_when_truthy; reflexivity.
Defined.

(** C6. For every price sequence of length >= period+1 whose
    last [period] day-over-day differences are all >= 0 with at least one
    > 0, [calculateRSI] returns exactly 100. *)
Theorem calculateRSI_100_without_losses (prices : list F64.float)
        (period : option Z) :
  let P := rsiPeriod period in
  let n := Z.of_nat (length prices) in
  P + 1 <= n ->
  (forall i, n - P <= i < n -> geb (change prices i) (of_Z 0) = true) ->
  (exists i, n - P <= i < n /\ gtb (change prices i) (of_Z 0) = true) ->
  calculateRSI prices period = of_Z 100.
Proof.
  intros P n Hn Hnonneg (i0 & Hi0 & _).
  assert (HP : 1 <= P) by lia.
  rewrite calculateRSI_recent by assumption. fold P.
  set (cs := map _ _).
  assert (Hcs : Forall (fun c => geb c (of_Z 0) = true) cs).
  { apply Forall_forall. intros c Hc. apply in_map_iff in Hc as (i & <- & Hi).
    apply in_seq in Hi. apply Hnonneg. lia. }
  pose proof (tally_no_loss (of_Z 0) Hcs) as Hloss.
  change (of_Z 0, of_Z 0) with (of_Z 0 : F64.float, F64.zero).
  destruct (fold_left tally cs (of_Z 0 : F64.float, F64.zero))
    as [gains losses].
  cbn [snd] in Hloss. subst losses.
  rewrite div_zero_positive by (apply ofZ_positive; lia). reflexivity.
Qed.

(** C6 on the prices 5, 4, 6, 6 with period 2: the last two differences
    are 2 and 0. *)
Lemma calculateRSI_100_without_losses_witness :
  calculateRSI (map of_Z [5; 4; 6; 6] : list F64.float) (Some 2) = of_Z 100.
Proof.
  apply calculateRSI_100_without_losses; simpl.
  - lia.
  - intros i Hi. assert (Hcases : i = 2 \/ i = 3) by lia.
    destruct Hcases as [->| ->]; reflexivity.
  - exists 2. split; [lia|reflexivity].
Defined.

(** C7. For every price sequence with fewer than period+1 points (period
    defaulting to 14) [calculateRSI] returns exactly 50; it is a value, not
    an error.  For instance 10 prices give 50 with period 14, passed or
    defaulted. *)
Theorem calculateRSI_50_when_short :
  (forall (prices : list F64.float) (period : option Z),
      Z.of_nat (length prices) < rsiPeriod period + 1 ->
      calculateRSI prices period = of_Z 50)
  /\ (forall prices : list F64.float,
         length prices = 10%nat ->
         calculateRSI prices None = of_Z 50
         /\ calculateRSI prices (Some 14) = of_Z 50).
Proof.
  assert (Hshort : forall (prices : list F64.float) (period : option Z),
             Z.of_nat (length prices) < rsiPeriod period + 1 ->
             calculateRSI prices period = of_Z 50).
  { intros prices period Hlen. unfold calculateRSI. cbv zeta.
    now destruct (Z.ltb_spec (Z.of_nat (length prices))
                             (rsiPeriod period + 1)); [|lia]. }
  split; [exact Hshort|].
  intros prices Hlen. split; apply Hshort; rewrite Hlen; simpl; lia.
Qed.

(** C7 on ten prices with period 14. *)
Lemma calculateRSI_50_when_short_witness :
  calculateRSI (map of_Z [1; 2; 3; 4; 5; 6; 7; 8; 9; 10] : list F64.float)
               (Some 14)
  = of_Z 50.
Proof.
  apply (proj1 calculateRSI_50_when_short). simpl. lia.
Defined.

(** C8. [calculateIndicators] on an empty sequence of bars returns the
    snapshot with every field absent, and [analyzeStock] on that snapshot
    returns neutral, neutral, neutral and the score 50 for every price. *)
Theorem empty_bars_neutral_50 :
  let snapshot := calculateIndicators (@nil (StockPrice F64.float)) in
  (sma20 snapshot = None /\ sma50 snapshot = None /\ sma200 snapshot = None
   /\ ema12 snapshot = None /\ ema26 snapshot = None /\ rsi snapshot = None
   /\ macd snapshot = None /\ macdSignal snapshot = None
   /\ macdHistogram snapshot = None)
  /\ forall currentPrice : F64.float,
       analyzeStock currentPrice snapshot
       = {| Signals.trend := neutralTrend;
            Signals.rsiSignal := neutralRsi;
            Signals.macdSignal := neutralMacd;
            Signals.overallScore := of_Z 50 |}.
Proof.
  split.
  - repeat split.
  - intros currentPrice. vm_compute. reflexivity.
Qed.




(** C10. For every current price and every snapshot the score before the
    clamp is a whole number n with 5 <= n <= 95; the clamp to [0, 100]
    returns it unchanged, and the returned overallScore is that same
    integer. *)
Theorem rawScore_between_5_and_95 (currentPrice : F64.float)
        (indicators : TechnicalIndicators F64.float) :
  exists n : Z,
    (5 <= n <= 95)%Z
    /\ rawScore currentPrice indicators = of_Z n
    /\ clamp (rawScore currentPrice indicators)
       = rawScore currentPrice indicators
    /\ Signals.overallScore (analyzeStock currentPrice indicators) = of_Z n.
Proof.
  destruct (scorer_range currentPrice indicators)
    as (n & Hn & Hraw & Hclamp & Hscore & _).
  exists n. auto.
Qed.

End Claims.


(** * Further properties of the code *)

(** ** Appended prices, short series and the trailing window *)

Section LaterPrices.
Context {num : Type} `{JSNumber num}.

Lemma forRange_agree {St : Type} (b b' : nat -> St -> St) (n : nat) (s : St) :
  (forall i r, (i < n)%nat -> b i r = b' i r) ->
  forRange 0 n b s = forRange 0 n b' s.
Proof.
  induction n as [|n IH]; intros Hb; [reflexivity|].
  rewrite !forRange_succ, IH by (intros; apply Hb; lia). apply Hb. lia.
Qed.

Lemma slice_app_prefix {A : Type} (arr more : list A) (a b : Z) :
  (0 <= a)%Z -> (0 <= b <= Z.of_nat (length arr))%Z ->
  slice (arr ++ more) a b = slice arr a b.
Proof.
  intros Ha Hb. unfold slice, relIndex. rewrite length_app.
  destruct (Z.ltb_spec a 0); [lia|]. destruct (Z.ltb_spec b 0); [lia|].
  rewrite !(Z.min_l b) by lia.
  destruct (Z.le_gt_cases a (Z.of_nat (length arr))) as [Hle|Hgt].
  - rewrite !Z.min_l by lia. rewrite skipn_app, firstn_app, length_skipn.
    replace (Z.to_nat (b - a) - (length arr - Z.to_nat a))%nat with 0%nat by lia.
    now rewrite firstn_O, app_nil_r.
  - replace (Z.to_nat (b - Z.min a (Z.of_nat (length arr + length more))))
      with 0%nat by lia.
    replace (Z.to_nat (b - Z.min a (Z.of_nat (length arr)))) with 0%nat by lia.
    reflexivity.
Qed.

Lemma get_app_prefix (arr more : list num) (i : Z) :
  (i < Z.of_nat (length arr))%Z -> get (arr ++ more) i = get arr i.
Proof.
  intros Hi. unfold get, at_. destruct (Z.ltb_spec i 0); [reflexivity|].
  now rewrite nth_error_app1 by lia.
Qed.

Lemma calculateSMA_causal (prices more : list num) (W : Z) :
  firstn (length prices) (calculateSMA (prices ++ more) W)
  = calculateSMA prices W.
Proof.
  unfold calculateSMA. rewrite length_app.
  rewrite pushLoop_prefix
    with (g := fun i (_ : list num) => smaEntry (prices ++ more) W i);
    [|intros i r; unfold smaEntry; now destruct (_ <? _)%Z|lia].
  apply forRange_agree. intros i r Hi. cbv zeta.
  destruct (_ <? _)%Z eqn:Hlt; [reflexivity|].
  apply Z.ltb_ge in Hlt. now rewrite slice_app_prefix by lia.
Qed.

Lemma calculateEMA_causal (prices more : list num) (W : Z) :
  firstn (length prices) (calculateEMA (prices ++ more) W)
  = calculateEMA prices W.
Proof.
  unfold calculateEMA. cbv zeta. rewrite length_app.
  rewrite pushLoop_prefix with (g := emaEntry (prices ++ more) W);
    [|apply calculateEMA_pushes|lia].
  apply forRange_agree. intros i r Hi. cbv zeta.
  destruct (_ <? _)%Z eqn:Hlt; [reflexivity|].
  destruct (Z.eqb_spec (Z.of_nat i) (W - 1)) as [Heq|Hne].
  - now rewrite slice_app_prefix by lia.
  - now rewrite get_app_prefix by lia.
Qed.

Lemma nth_error_all_repeat {A : Type} (l : list A) (x : A) :
  (forall i, (i < length l)%nat -> nth_error l i = Some x) ->
  l = repeat x (length l).
Proof.
  intros Hall. apply nth_error_ext. intros i.
  destruct (Nat.lt_ge_cases i (length l)) as [Hi|Hi].
  - rewrite Hall by assumption. symmetry. now apply nth_error_repeat.
  - transitivity (@None A); [|symmetry]; apply nth_error_None;
      rewrite ?repeat_length; lia.
Qed.

Lemma calculateSMA_short (prices : list num) (W : Z) :
  (Z.of_nat (length prices) < W)%Z ->
  calculateSMA prices W = repeat NaN (length prices).
Proof.
  intros HW.
  transitivity (repeat (NaN : num) (length (calculateSMA prices W)));
    [|now rewrite calculateSMA_length].
  apply nth_error_all_repeat. intros i Hi. rewrite calculateSMA_length in Hi.
  rewrite calculateSMA_nth by assumption. unfold smaEntry.
  now destruct (Z.ltb_spec (Z.of_nat i) (W - 1)); [|lia].
Qed.

Lemma calculateEMA_short (prices : list num) (W : Z) :
  (Z.of_nat (length prices) < W)%Z ->
  calculateEMA prices W = repeat NaN (length prices).
Proof.
  intros HW.
  transitivity (repeat (NaN : num) (length (calculateEMA prices W)));
    [|now rewrite calculateEMA_length].
  apply nth_error_all_repeat. intros i Hi. rewrite calculateEMA_length in Hi.
  rewrite calculateEMA_nth by assumption. unfold emaEntry.
  now destruct (Z.ltb_spec (Z.of_nat i) (W - 1)); [|lia].
Qed.

Lemma map_seq_shift {A : Type} (f g : nat -> A) (a b n : nat) :
  (forall t, (t < n)%nat -> f (a + t)%nat = g (b + t)%nat) ->
  map f (seq a n) = map g (seq b n).
Proof.
  revert a b. induction n as [|n IH]; intros a b Hfg; [reflexivity|].
  simpl. f_equal.
  - specialize (Hfg 0%nat ltac:(lia)). now rewrite !Nat.add_0_r in Hfg.
  - apply IH. intros t Ht. specialize (Hfg (S t) ltac:(lia)).
    now rewrite !Nat.add_succ_r in Hfg.
Qed.

Lemma get_skipn (arr : list num) (k : nat) (j : Z) :
  (0 <= j)%Z -> get (skipn k arr) j = get arr (j + Z.of_nat k).
Proof.
  intros Hj. unfold get, at_.
  destruct (Z.ltb_spec j 0); [lia|]. destruct (Z.ltb_spec (j + Z.of_nat k) 0); [lia|].
  rewrite nth_error_skipn. do 2 f_equal. lia.
Qed.

(** RSI reads only the last [period + 1] prices. *)
Lemma calculateRSI_trailing (prices : list num) (period : option Z) :
  let P := rsiPeriod period in
  (1 <= P)%Z -> (P + 1 <= Z.of_nat (length prices))%Z ->
  calculateRSI prices period
  = calculateRSI (sliceFrom prices (- (P + 1))) period.
Proof.
  intros P HP Hn.
  rewrite sliceFrom_last by lia.
  set (k := (length prices - Z.to_nat (P + 1))%nat).
  assert (Hlen : length (skipn k prices) = Z.to_nat (P + 1))
    by (rewrite length_skipn; lia).
  rewrite (calculateRSI_recent prices period) by assumption.
  rewrite (calculateRSI_recent (skipn k prices) period) by (fold P; lia).
  fold P. rewrite Hlen.
  replace (Z.to_nat (P + 1) - Z.to_nat P)%nat with 1%nat by lia.
  rewrite (@map_seq_shift _
             (fun i => change prices (Z.of_nat i))
             (fun i => change (skipn k prices) (Z.of_nat i))
             (length prices - Z.to_nat P) 1 (Z.to_nat P)); [reflexivity|].
  intros t Ht. unfold change. rewrite !get_skipn by lia.
  f_equal; f_equal; lia.
Qed.

Lemma at_last_repeat_NaN (k : nat) :
  orZero (at_ (repeat (NaN : num) k) (Z.of_nat (length (repeat (NaN : num) k)) - 1))
  = of_Z 0.
Proof.
  rewrite at_last. destruct k as [|k]; [reflexivity|].
  rewrite rev_repeat. cbn [repeat]. unfold orZero, truthy.
  now rewrite isNaN_NaN.
Qed.

Lemma validMacdOf_length (prices : list num) :
  (length (validMacdOf prices) <= length prices - 25)%nat.
Proof.
  unfold validMacdOf.
  rewrite <- (firstn_skipn 25 (macdLineOf prices)), filter_app, length_app.
  assert (Hfirst : filter (fun v => negb (isNaN v)) (firstn 25 (macdLineOf prices)) = []).
  { assert (Hall : Forall (fun v => negb (isNaN v) = false) (firstn 25 (macdLineOf prices))).
    { apply Forall_forall. intros v Hv. apply In_nth_error in Hv as [i Hi].
      assert (Hi25 : (i < 25)%nat).
      { assert (Hl : (i < length (firstn 25 (macdLineOf prices)))%nat)
          by (apply nth_error_Some; congruence).
        rewrite length_firstn in Hl. lia. }
      rewrite nth_error_firstn in Hi.
      destruct (Nat.ltb_spec i 25); [|lia].
      assert (Hlt : (i < length prices)%nat).
      { rewrite <- macdLineOf_length. apply nth_error_Some. congruence. }
      rewrite macdLineOf_nth in Hi by assumption. injection Hi as <-. cbv zeta.
      rewrite (get_nth _ _ (calculateEMA_nth prices 26 Hlt)). unfold emaEntry.
      destruct (Z.ltb_spec (Z.of_nat i) (26 - 1)); [|lia].
      now rewrite isNaN_NaN, orb_true_r, isNaN_NaN. }
    induction Hall as [|v l Hv _ IH]; [reflexivity|]. simpl. now rewrite Hv. }
  rewrite Hfirst. cbn [length plus].
  etransitivity; [apply filter_length_le|].
  rewrite length_skipn, macdLineOf_length. lia.
Qed.

(** Below 34 prices the signal line has no defined entry. *)
Lemma calculateMACD_no_signal (prices : list num) :
  (length prices < 34)%nat ->
  MACD.signal (calculateMACD prices) = of_Z 0
  /\ MACD.histogram (calculateMACD prices)
     = sub (MACD.macd (calculateMACD prices)) (of_Z 0).
Proof.
  intros Hlen.
  assert (Hsig : MACD.signal (calculateMACD prices) = of_Z 0).
  { unfold calculateMACD, signalLineOf. cbn [MACD.signal].
    pose proof (validMacdOf_length prices) as Hv.
    rewrite calculateEMA_short by lia. apply at_last_repeat_NaN. }
  split; [exact Hsig|].
  unfold calculateMACD in *. cbn [MACD.signal MACD.histogram MACD.macd] in *.
  now rewrite Hsig.
Qed.

End LaterPrices.

(** ** The snapshot, the scorer and the quote *)

Section Pipeline.
Context {num : Type} `{JSNumber num}.

Lemma at_last_some {A : Type} (arr : list A) :
  arr <> [] -> at_ arr (Z.of_nat (length arr) - 1) <> None.
Proof.
  intros Hne. rewrite at_last. destruct (rev arr) eqn:Hrev; [|discriminate].
  apply (f_equal (@rev A)) in Hrev. rewrite rev_involutive in Hrev.
  contradiction.
Qed.

Lemma at_last_repeat {A : Type} (x : A) (k : nat) :
  (1 <= k)%nat ->
  at_ (repeat x k) (Z.of_nat (length (repeat x k)) - 1) = Some x.
Proof.
  intros Hk. rewrite at_last, rev_repeat. destruct k; [lia|reflexivity].
Qed.

Lemma calculateRSI_short (prices : list num) (period : option Z) :
  (Z.of_nat (length prices) < rsiPeriod period + 1)%Z ->
  calculateRSI prices period = of_Z 50.
Proof.
  intros Hlen. unfold calculateRSI. cbv zeta.
  now destruct (Z.ltb_spec (Z.of_nat (length prices)) (rsiPeriod period + 1));
    [|lia].
Qed.

(** With fewer than 200 bars sma200 is missing or NaN and the
    moving-average block is skipped. *)
Lemma smaGuard_short (bars : list (StockPrice num)) :
  (length bars < 200)%nat -> smaGuard (calculateIndicators bars) = false.
Proof.
  intros Hlen. unfold smaGuard, calculateIndicators.
  destruct (Nat.eqb_spec (length bars) 0) as [H0|Hne].
  - reflexivity.
  - cbv zeta. cbn [sma20 sma50 sma200].
    rewrite (@calculateSMA_short _ _ (map (@close num) bars) 200)
      by (rewrite length_map; lia).
    rewrite at_last_repeat by (rewrite length_map; lia).
    unfold truthyO at 3. unfold truthy. rewrite isNaN_NaN. cbn [orb negb].
    now rewrite andb_false_r.
Qed.

Lemma getSMAArrays_lengths (bars : list (StockPrice num)) :
  length (SMAArrays.sma20 (getSMAArrays bars)) = length bars
  /\ length (SMAArrays.sma50 (getSMAArrays bars)) = length bars.
Proof.
  unfold getSMAArrays. cbn [SMAArrays.sma20 SMAArrays.sma50].
  now rewrite !calculateSMA_length, length_map.
Qed.

Lemma analyzeStock_without_averages (currentPrice : num)
      (indicators : TechnicalIndicators num) :
  smaGuard indicators = false ->
  exists r m,
    analyzeStock currentPrice indicators
    = {| Signals.trend := neutralTrend;
         Signals.rsiSignal := r;
         Signals.macdSignal := m;
         Signals.overallScore :=
           Math_round (Math_max (of_Z 0)
                         (Math_min (of_Z 100)
                            (applyMacd m (applyRsi r (of_Z 50))))) |}.
Proof.
  intros Hg. unfold analyzeStock.
  pose proof (scoreAndLabels_adjustments currentPrice indicators) as Hs.
  destruct (scoreAndLabels currentPrice indicators) as [[[score t] r] m].
  destruct Hs as [-> Ht]. rewrite (Ht Hg).
  unfold afterSmaBlock. rewrite Hg. now exists r, m.
Qed.

Lemma orNull_truthy (v : option num) (x : num) :
  orNull v = Some x -> truthy x = true.
Proof.
  destruct v as [y|]; [|discriminate]. cbn [orNull].
  destruct (truthy y) eqn:Hy; [|discriminate]. now intros [= <-].
Qed.

Lemma orNullS_nonempty (v : option string) (s : string) :
  orNullS v = Some s -> s <> EmptyString.
Proof.
  unfold orNullS. destruct v as [t|]; cbn [truthyS]; [|discriminate].
  destruct (String.eqb_spec t EmptyString); cbn [negb]; [discriminate|].
  now intros [= <-].
Qed.

Lemma orElseS_nonempty (a : option string) (b : string) :
  b <> EmptyString -> orElseS a b <> EmptyString.
Proof.
  intros Hb. destruct a as [s|]; cbn [orElseS truthyS]; [|assumption].
  now destruct (String.eqb_spec s EmptyString).
Qed.

Lemma truthyO_toNumber (v : option num) :
  truthyO v = true -> v = Some (toNumber v) /\ truthy (toNumber v) = true.
Proof.
  destruct v as [x|]; [|discriminate]. cbn. auto.
Qed.

End Pipeline.

(** ** NaN, zero and fixed points in double arithmetic *)

Section Binary64More.
Local Open Scope Z_scope.

Lemma sub_self (v : F64.float) :
  F64.isFinite v = true -> sub v v = F64.zero.
Proof.
  destruct v as [[]|s| |s m e]; try discriminate; intros _; try reflexivity.
  cbn. now rewrite Z.sub_diag.
Qed.

Lemma sub_zero_r (x : F64.float) : sub x F64.zero = x.
Proof. now destruct x as [[]|s| |s m e]. Qed.

Lemma add_NaN_l (x : F64.float) : add (NaN : F64.float) x = NaN.
Proof. reflexivity. Qed.

Lemma add_NaN_r (x : F64.float) : add x (NaN : F64.float) = NaN.
Proof. now destruct x. Qed.

Lemma fold_add_NaN (xs : list F64.float) :
  fold_left add xs (NaN : F64.float) = NaN.
Proof. induction xs as [|x xs IH]; [reflexivity|exact IH]. Qed.

Lemma sum_with_NaN (xs : list F64.float) (s : F64.float) :
  In (NaN : F64.float) xs -> fold_left add xs s = NaN.
Proof.
  revert s. induction xs as [|x xs IH]; intros s Hin; [destruct Hin|].
  destruct Hin as [Hx|Hin].
  - subst x. cbn [fold_left]. rewrite add_NaN_r. apply fold_add_NaN.
  - cbn [fold_left]. now apply IH.
Qed.

Lemma mean_with_NaN (xs : list F64.float) :
  In (NaN : F64.float) xs -> mean xs = NaN.
Proof. intros Hin. unfold mean. now rewrite sum_with_NaN. Qed.

Lemma emaStep_NaN_price (W : Z) (previous : F64.float) :
  emaStep W NaN previous = NaN.
Proof. reflexivity. Qed.

Lemma emaStep_NaN_previous (W : Z) (price : F64.float) :
  emaStep W price NaN = NaN.
Proof.
  unfold emaStep. destruct price; cbn; now destruct (emaMultiplier W).
Qed.

Lemma emaStep_fixed (W : Z) (v : F64.float) :
  F64.isFinite (emaMultiplier W) = true ->
  F64.isFinite v = true -> v <> S754_zero true ->
  emaStep W v v = v.
Proof.
  intros Hk Hv Hneg. unfold emaStep. rewrite sub_self by assumption.
  destruct (emaMultiplier W) as [sk|sk| |sk mk ek]; try discriminate;
    destruct v as [[]|s| |s m e]; try discriminate; try congruence;
    cbn; try reflexivity; now destruct sk.
Qed.

Lemma orZero_not_NaN (v : option F64.float) : isNaN (orZero v) = false.
Proof.
  destruct v as [x|]; [|reflexivity]. unfold orZero, truthy.
  destruct (isNaN x) eqn:Hx; [reflexivity|].
  cbn [orb negb]. now destruct (eqb x (of_Z 0)).
Qed.

Lemma shr_fexp_nonneg (m e : Z) (l : location) :
  0 <= m -> 0 <= shr_m (fst (shr_fexp F64.prec F64.emax m e l)).
Proof.
  intros Hm. unfold shr_fexp, shr.
  destruct (fexp F64.prec F64.emax (Zdigits2 m + e) - e) as [|q|q];
    cbn [fst]; rewrite ?shr_record_of_loc_m; try assumption.
  rewrite iter_shr_1_m by (rewrite shr_record_of_loc_m; assumption).
  rewrite shr_record_of_loc_m. apply Z.div_pos; lia.
Qed.

Lemma binary_round_aux_not_NaN (s : bool) (m e : Z) (l : location) :
  0 <= m -> binary_round_aux F64.prec F64.emax s m e l <> S754_nan.
Proof.
  intros Hm. unfold binary_round_aux.
  pose proof (shr_fexp_nonneg e l Hm) as Hm1.
  destruct (shr_fexp F64.prec F64.emax m e l) as [mrs1 e1]. cbn [fst] in Hm1.
  assert (Hr : 0 <= round_nearest_even (shr_m mrs1) (loc_of_shr_record mrs1)).
  { destruct (loc_of_shr_record mrs1) as [|[]]; cbn [round_nearest_even];
      try lia. destruct (Z.even (shr_m mrs1)); lia. }
  pose proof (shr_fexp_nonneg e1 loc_Exact Hr) as Hm2.
  destruct (shr_fexp F64.prec F64.emax _ e1 loc_Exact) as [mrs2 e2].
  cbn [fst] in Hm2. destruct (shr_m mrs2); try lia; try discriminate.
  now destruct (_ <=? _).
Qed.

Lemma binary_normalize_not_NaN (z e : Z) (sz : bool) :
  binary_normalize F64.prec F64.emax z e sz <> S754_nan.
Proof.
  destruct z as [|p|p]; cbn [binary_normalize]; [discriminate| |];
    unfold binary_round;
    destruct (shl_align _ _ _) as [mz ez];
    apply binary_round_aux_not_NaN; lia.
Qed.

Lemma sub_finite_not_NaN (a b : F64.float) :
  F64.isFinite a = true -> F64.isFinite b = true -> isNaN (sub a b) = false.
Proof.
  destruct a as [sa|sa| |sa ma ea]; try discriminate;
    destruct b as [sb|sb| |sb mb eb]; try discriminate; intros _ _.
  - now destruct sa, sb.
  - reflexivity.
  - reflexivity.
  - cbn [sub binary64 SFsub].
    match goal with
    | |- isNaN ?x = false =>
        pose proof (binary_normalize_not_NaN
                      (cond_Zopp sa (Zpos (fst (shl_align ma ea (Z.min ea eb))))
                       - cond_Zopp sb (Zpos (fst (shl_align mb eb (Z.min ea eb)))))
                      (Z.min ea eb) false) as Hn
    end.
    destruct (binary_normalize _ _ _ _ _); try reflexivity. congruence.
Qed.

Lemma not_leb_zero (x : F64.float) :
  isNaN x = false -> leb x (of_Z 0) = false -> gtb x (of_Z 0) = true.
Proof.
  destruct x as [s|[]| |[] m e]; cbn; intros; (discriminate || reflexivity).
Qed.

Lemma isNaN_is_NaN (x : F64.float) : isNaN x = true -> x = NaN.
Proof. destruct x; cbn; (discriminate || reflexivity). Qed.

Lemma sub_NaN_l (x : F64.float) : sub (NaN : F64.float) x = NaN.
Proof. now destruct x. Qed.

Lemma sub_NaN_r (x : F64.float) : sub x (NaN : F64.float) = NaN.
Proof. now destruct x. Qed.

Lemma truthy_not_NaN (x : F64.float) : truthy x = true -> isNaN x = false.
Proof. unfold truthy. now destruct (isNaN x). Qed.

Lemma nanToZero_not_NaN (x : F64.float) : isNaN (nanToZero x) = false.
Proof. unfold nanToZero. now destruct (isNaN x) eqn:Hx. Qed.

Lemma nanToZero_sub_self (v : F64.float) : nanToZero (sub v v) = of_Z 0.
Proof.
  destruct (F64.isFinite v) eqn:Hv.
  - now rewrite sub_self.
  - destruct v as [s|[]| |s m e]; try discriminate; reflexivity.
Qed.

Lemma percent_of_no_gain (v : F64.float) :
  nanToZero (if gtb v (of_Z 0) then mul (div (sub v v) v) (of_Z 100)
             else of_Z 0) = of_Z 0.
Proof.
  destruct (gtb v (of_Z 0)) eqn:Hg; [|reflexivity].
  destruct v as [s|[]| |[] m e]; try discriminate; try reflexivity.
  rewrite sub_self by reflexivity. now rewrite div_zero_positive.
Qed.

Lemma calculateRSI_no_loss (prices : list F64.float) (period : option Z) :
  let P := rsiPeriod period in
  let n := Z.of_nat (length prices) in
  1 <= P -> P + 1 <= n ->
  (forall i, n - P <= i < n -> geb (change prices i) (of_Z 0) = true) ->
  calculateRSI prices period = of_Z 100.
Proof.
  intros P n HP Hn Hnonneg.
  rewrite calculateRSI_recent by assumption. fold P.
  set (cs := map _ _).
  assert (Hcs : Forall (fun c => geb c (of_Z 0) = true) cs).
  { apply Forall_forall. intros c Hc. apply in_map_iff in Hc as (i & <- & Hi).
    apply in_seq in Hi. apply Hnonneg. lia. }
  pose proof (tally_no_loss (of_Z 0) Hcs) as Hloss.
  change (of_Z 0, of_Z 0) with (of_Z 0 : F64.float, F64.zero).
  destruct (fold_left tally cs (of_Z 0 : F64.float, F64.zero))
    as [gains losses].
  cbn [snd] in Hloss. subst losses.
  rewrite div_zero_positive by (apply ofZ_positive; lia). reflexivity.
Qed.

Lemma fetchStockQuote_truthy_price (lookup : string -> QuoteReply F64.float)
      (symbol : string) (q : StockQuote.t F64.float) :
  fetchStockQuote lookup symbol = Some q ->
  truthy (StockQuote.currentPrice q) = true.
Proof.
  unfold fetchStockQuote.
  destruct (lookup symbol) as [|[quote|]]; try discriminate.
  destruct (truthyO (Quote.regularMarketPrice quote)) eqn:Hp; cbn [negb];
    [|discriminate].
  intros [= <-]. cbn [StockQuote.currentPrice]. now apply truthyO_toNumber.
Qed.

End Binary64More.

(** ** The properties *)

Section Further.
Local Open Scope Z_scope.

(** X1. [calculateSMA] looks at no later price: computing the averages of
    a series extended by any further prices and keeping the entries of the
    original length gives the averages of the original series. *)
Theorem calculateSMA_appending (prices more : list F64.float) (W : Z) :
  firstn (length prices) (calculateSMA (prices ++ more) W)
  = calculateSMA prices W.
Proof. apply calculateSMA_causal. Qed.

(** X2. [calculateEMA] looks at no later price either: the entries of a
    series do not change when prices are appended to it. *)
Theorem calculateEMA_appending (prices more : list F64.float) (W : Z) :
  firstn (length prices) (calculateEMA (prices ++ more) W)
  = calculateEMA prices W.
Proof. apply calculateEMA_causal. Qed.

(** X3. When the series is shorter than the window, [calculateSMA] and
    [calculateEMA] both return NaN at every index. *)
Theorem averages_without_history (prices : list F64.float) (W : Z) :
  Z.of_nat (length prices) < W ->
  calculateSMA prices W = repeat NaN (length prices)
  /\ calculateEMA prices W = repeat NaN (length prices).
Proof.
  intros HW. split; [now apply calculateSMA_short|now apply calculateEMA_short].
Qed.

(** X3 on three prices and a window of 20. *)
Lemma averages_without_history_witness :
  calculateSMA (map of_Z [4; 5; 6] : list F64.float) 20 = repeat NaN 3
  /\ calculateEMA (map of_Z [4; 5; 6] : list F64.float) 20 = repeat NaN 3.
Proof.
  apply (@averages_without_history (map of_Z [4; 5; 6]) 20). simpl. lia.
Defined.

(** X4. With at least P+1 prices, [calculateRSI] depends on the last P+1
    prices only: it returns the same value on [prices.slice(-(P+1))]. *)
Theorem calculateRSI_reads_trailing_prices (prices : list F64.float)
        (period : option Z) :
  let P := rsiPeriod period in
  1 <= P -> P + 1 <= Z.of_nat (length prices) ->
  calculateRSI prices period
  = calculateRSI (sliceFrom prices (- (P + 1))) period.
Proof. apply calculateRSI_trailing. Qed.

(** X4 on five prices with P = 2. *)
Lemma calculateRSI_reads_trailing_prices_witness :
  calculateRSI (map of_Z [9; 1; 5; 4; 6] : list F64.float) (Some 2)
  = calculateRSI (sliceFrom (map of_Z [9; 1; 5; 4; 6]) (- (2 + 1))) (Some 2).
Proof.
  apply (@calculateRSI_reads_trailing_prices (map of_Z [9; 1; 5; 4; 6])
           (Some 2));
    simpl; lia.
Defined.

(** X5. When the last P+1 prices are one and the same finite number,
    [calculateRSI] returns 100: no gains and no losses counts as no
    losses. *)
Theorem calculateRSI_100_on_flat_prices (prices : list F64.float)
        (period : option Z) (v : F64.float) :
  let P := rsiPeriod period in
  let n := Z.of_nat (length prices) in
  1 <= P -> P + 1 <= n ->
  F64.isFinite v = true ->
  (forall i, n - P - 1 <= i < n -> at_ prices i = Some v) ->
  calculateRSI prices period = of_Z 100.
Proof.
  intros P n HP Hn Hv Hflat. apply calculateRSI_no_loss; try assumption.
  fold P n. intros i Hi. unfold change, get.
  rewrite !Hflat by lia. cbn [toNumber]. now rewrite sub_self.
Qed.

(** X5 on the prices 3, 8, 8, 8 with P = 2. *)
Lemma calculateRSI_100_on_flat_prices_witness :
  calculateRSI (map of_Z [3; 8; 8; 8] : list F64.float) (Some 2) = of_Z 100.
Proof.
  apply (@calculateRSI_100_on_flat_prices
           (map of_Z [3; 8; 8; 8]) (Some 2) (of_Z 8)); simpl.
  - lia.
  - lia.
  - reflexivity.
  - intros i Hi. assert (Hc : i = 1 \/ i = 2 \/ i = 3) by lia.
    destruct Hc as [->|[->| ->]]; reflexivity.
Defined.

(** X6. The [macd] and [signal] fields of [calculateMACD] are never NaN,
    whatever the prices. *)
Theorem calculateMACD_never_NaN (prices : list F64.float) :
  isNaN (MACD.macd (calculateMACD prices)) = false
  /\ isNaN (MACD.signal (calculateMACD prices)) = false.
Proof. split; apply orZero_not_NaN. Qed.

(** X7. With fewer than 34 prices the signal line has no value: [signal]
    is 0 and [histogram] equals [macd]. *)
Theorem calculateMACD_without_signal (prices : list F64.float) :
  (length prices < 34)%nat ->
  MACD.signal (calculateMACD prices) = of_Z 0
  /\ MACD.histogram (calculateMACD prices) = MACD.macd (calculateMACD prices).
Proof.
  intros Hlen. destruct (calculateMACD_no_signal prices Hlen) as [Hs Hh].
  split; [exact Hs|]. rewrite Hh. apply sub_zero_r.
Qed.

(** X7 on the prices 1, 2, ..., 26. *)
Lemma calculateMACD_without_signal_witness :
  MACD.signal (calculateMACD oneTo26) = of_Z 0
  /\ MACD.histogram (calculateMACD oneTo26) = MACD.macd (calculateMACD oneTo26).
Proof.
  apply (@calculateMACD_without_signal oneTo26). simpl. lia.
Defined.

(** X8. A NaN price is never forgotten by [calculateEMA]: every entry
    from the index of the NaN price on (and from W-1 on) is NaN. *)
Theorem calculateEMA_NaN_is_permanent (prices : list F64.float) (W j : Z) :
  1 <= W -> 0 <= j -> at_ prices j = Some NaN ->
  forall i, j <= i -> W - 1 <= i < Z.of_nat (length prices) ->
            at_ (calculateEMA prices W) i = Some NaN.
Proof.
  intros HW Hj Hnan.
  assert (Hjn : j < Z.of_nat (length prices)).
  { destruct (Z.lt_ge_cases j (Z.of_nat (length prices))); [assumption|].
    rewrite at_outside in Hnan by lia. discriminate. }
  assert (Hfrom : forall k : nat,
             Z.max j (W - 1) + Z.of_nat k < Z.of_nat (length prices) ->
             at_ (calculateEMA prices W) (Z.max j (W - 1) + Z.of_nat k)
             = Some NaN).
  { induction k as [|k IH]; intros Hk.
    - rewrite Z.add_0_r in *. destruct (Z.max_spec j (W - 1)) as [[Hlt ->]|[Hge ->]].
      + rewrite calculateEMA_seed by lia. f_equal. apply mean_with_NaN.
        apply nth_error_In with (n := Z.to_nat j).
        rewrite nth_error_firstn.
        destruct (Nat.ltb_spec (Z.to_nat j) (Z.to_nat W)); [|lia].
        unfold at_ in Hnan. now destruct (Z.ltb_spec j 0); [lia|].
      + destruct (Z.eq_dec j (W - 1)) as [->|Hne].
        * rewrite calculateEMA_seed by lia. f_equal. apply mean_with_NaN.
          apply nth_error_In with (n := Z.to_nat (W - 1)).
          rewrite nth_error_firstn.
          destruct (Nat.ltb_spec (Z.to_nat (W - 1)) (Z.to_nat W)); [|lia].
          unfold at_ in Hnan. now destruct (Z.ltb_spec (W - 1) 0); [lia|].
        * rewrite calculateEMA_step by lia. unfold get at 1.
          now rewrite Hnan.
    - rewrite calculateEMA_step by lia.
      replace (Z.max j (W - 1) + Z.of_nat (S k) - 1)
        with (Z.max j (W - 1) + Z.of_nat k) by lia.
      unfold get at 2. rewrite IH by lia. cbn [toNumber].
      now rewrite emaStep_NaN_previous. }
  intros i Hi HiW.
  replace i with (Z.max j (W - 1) + Z.of_nat (Z.to_nat (i - Z.max j (W - 1))))
    by lia.
  apply Hfrom. lia.
Qed.

(** X8 on four prices, the second being NaN, with W = 2. *)
Lemma calculateEMA_NaN_is_permanent_witness :
  at_ (calculateEMA [of_Z 1; NaN; of_Z 3; of_Z 4 : F64.float] 2) 3 = Some NaN.
Proof.
  apply (@calculateEMA_NaN_is_permanent
           [of_Z 1; NaN; of_Z 3; of_Z 4] 2 1); try reflexivity; simpl; lia.
Defined.

(** X9. A NaN price at index j makes the entry of [calculateSMA] NaN at
    every index i whose window holds it: W-1 <= i and j <= i < j + W. *)
Theorem calculateSMA_NaN_in_window (prices : list F64.float) (W j i : Z) :
  1 <= W -> 0 <= j -> at_ prices j = Some NaN ->
  j <= i < j + W -> W - 1 <= i < Z.of_nat (length prices) ->
  at_ (calculateSMA prices W) i = Some NaN.
Proof.
  intros HW Hj Hnan Hij Hi.
  rewrite calculateSMA_mean by lia. f_equal. apply mean_with_NaN.
  unfold window. apply nth_error_In with (n := Z.to_nat (j - (i - W + 1))).
  rewrite nth_error_firstn.
  destruct (Nat.ltb_spec (Z.to_nat (j - (i - W + 1))) (Z.to_nat W)); [|lia].
  rewrite nth_error_skipn. unfold at_ in Hnan.
  destruct (Z.ltb_spec j 0); [lia|]. rewrite <- Hnan. f_equal. lia.
Qed.

(** X9 on four prices, the second being NaN, with W = 2. *)
Lemma calculateSMA_NaN_in_window_witness :
  at_ (calculateSMA [of_Z 1; NaN; of_Z 3; of_Z 4 : F64.float] 2) 2 = Some NaN.
Proof.
  apply (@calculateSMA_NaN_in_window
           [of_Z 1; NaN; of_Z 3; of_Z 4] 2 1 2); try reflexivity; simpl; lia.
Defined.

(** X10. Once an entry of [calculateEMA] equals a finite price v (other
    than -0) and the later prices all equal v, the later entries all equal
    v: the recurrence (v - v) * k + v loses nothing in double arithmetic,
    k = 2/(W+1) being finite. *)
Theorem calculateEMA_stays_on_flat_prices (prices : list F64.float)
        (W j : Z) (v : F64.float) :
  F64.isFinite (emaMultiplier W : F64.float) = true ->
  F64.isFinite v = true -> v <> S754_zero true ->
  0 <= j -> W - 1 <= j ->
  at_ (calculateEMA prices W) j = Some v ->
  (forall i, j < i < Z.of_nat (length prices) -> at_ prices i = Some v) ->
  forall i, j <= i < Z.of_nat (length prices) ->
            at_ (calculateEMA prices W) i = Some v.
Proof.
  intros Hk Hv Hneg Hj HjW Hseed Hflat.
  assert (Hfrom : forall k : nat,
             j + Z.of_nat k < Z.of_nat (length prices) ->
             at_ (calculateEMA prices W) (j + Z.of_nat k) = Some v).
  { induction k as [|k IH]; intros Hlt.
    - now rewrite Z.add_0_r.
    - rewrite calculateEMA_step by lia.
      replace (j + Z.of_nat (S k) - 1) with (j + Z.of_nat k) by lia.
      unfold get. rewrite IH, Hflat by lia. cbn [toNumber].
      now rewrite emaStep_fixed. }
  intros i Hi. replace i with (j + Z.of_nat (Z.to_nat (i - j))) by lia.
  apply Hfrom. lia.
Qed.

(** X10 on four prices of 100 with W = 2. *)
Lemma calculateEMA_stays_on_flat_prices_witness :
  at_ (calculateEMA (map of_Z [100; 100; 100; 100] : list F64.float) 2) 3
  = Some (of_Z 100).
Proof.
  apply (@calculateEMA_stays_on_flat_prices
           (map of_Z [100; 100; 100; 100]) 2 1 (of_Z 100));
    try reflexivity; try (simpl; lia).
  - discriminate.
  - intros i Hi. simpl in Hi. assert (Hc : i = 2 \/ i = 3) by lia.
    destruct Hc as [->| ->]; reflexivity.
Defined.

(** X11. On a non-empty history [calculateIndicators] fills the six
    average and RSI fields, its [sma20] and [sma50] are the last entries of
    the two series of [getSMAArrays], and its MACD fields hold numbers with
    macd and signal not NaN and histogram = macd - signal. *)
Theorem calculateIndicators_on_bars (bars : list (StockPrice F64.float)) :
  bars <> [] ->
  let snapshot := calculateIndicators bars in
  let series := getSMAArrays bars in
  let last := Z.of_nat (length bars) - 1 in
  (sma20 snapshot <> None /\ sma50 snapshot <> None
   /\ sma200 snapshot <> None /\ ema12 snapshot <> None
   /\ ema26 snapshot <> None /\ rsi snapshot <> None)
  /\ sma20 snapshot = at_ (SMAArrays.sma20 series) last
  /\ sma50 snapshot = at_ (SMAArrays.sma50 series) last
  /\ (exists m s h,
         macd snapshot = Some m /\ macdSignal snapshot = Some s
         /\ macdHistogram snapshot = Some h
         /\ isNaN m = false /\ isNaN s = false /\ h = sub m s).
Proof.
  intros Hne snapshot series last.
  unfold snapshot, series, last, calculateIndicators, getSMAArrays.
  destruct (Nat.eqb_spec (length bars) 0) as [H0|_];
    [now destruct bars|].
  cbv zeta.
  cbn [sma20 sma50 sma200 ema12 ema26 rsi macd macdSignal macdHistogram
       SMAArrays.sma20 SMAArrays.sma50].
  assert (Hclose : map (@close F64.float) bars <> [])
    by (destruct bars; [contradiction|discriminate]).
  assert (Hsma : forall W, calculateSMA (map (@close F64.float) bars) W <> []).
  { intros W Hnil. apply (f_equal (@length _)) in Hnil.
    rewrite calculateSMA_length in Hnil. now destruct bars. }
  assert (Hema : forall W, calculateEMA (map (@close F64.float) bars) W <> []).
  { intros W Hnil. apply (f_equal (@length _)) in Hnil.
    rewrite calculateEMA_length in Hnil. now destruct bars. }
  split; [|split; [|split]].
  - repeat split; try (apply at_last_some; auto); discriminate.
  - now rewrite calculateSMA_length, length_map.
  - now rewrite calculateSMA_length, length_map.
  - do 3 eexists. repeat split; apply orZero_not_NaN.
Qed.

(** X11 on a single bar. *)
Lemma calculateIndicators_on_bars_witness :
  sma20 (calculateIndicators [barAt (of_Z 7)])
  = at_ (SMAArrays.sma20 (getSMAArrays [barAt (of_Z 7)])) (1 - 1).
Proof.
  apply (@calculateIndicators_on_bars [barAt (of_Z 7)]). discriminate.
Defined.

(** X12. The two series of [getSMAArrays] have one entry per bar, so the
    chart can pair them with the bars by index; the entry at index i is NaN
    below 19 (49 for sma50) and the mean of the 20 (50) closes ending at i
    from there on. *)
Theorem getSMAArrays_chart_series (bars : list (StockPrice F64.float)) :
  let series := getSMAArrays bars in
  let closes := map (@close F64.float) bars in
  length (SMAArrays.sma20 series) = length bars
  /\ length (SMAArrays.sma50 series) = length bars
  /\ forall i, 0 <= i < Z.of_nat (length bars) ->
       at_ (SMAArrays.sma20 series) i
       = Some (if i <? 19 then NaN else mean (window closes i 20))
       /\ at_ (SMAArrays.sma50 series) i
          = Some (if i <? 49 then NaN else mean (window closes i 50)).
Proof.
  intros series closes.
  destruct (getSMAArrays_lengths bars) as [H20 H50].
  split; [exact H20|]. split; [exact H50|].
  intros i Hi. unfold series, getSMAArrays.
  cbn [SMAArrays.sma20 SMAArrays.sma50]. fold closes.
  assert (Hlen : length closes = length bars) by apply length_map.
  split.
  - destruct (Z.ltb_spec i 19).
    + apply calculateSMA_before; lia.
    + apply calculateSMA_mean; lia.
  - destruct (Z.ltb_spec i 49).
    + apply calculateSMA_before; lia.
    + apply calculateSMA_mean; lia.
Qed.

(** X12 on two bars, at index 1. *)
Lemma getSMAArrays_chart_series_witness :
  at_ (SMAArrays.sma20 (getSMAArrays [barAt (of_Z 7); barAt (of_Z 8)])) 1
  = Some NaN.
Proof.
  apply (proj2 (proj2 (getSMAArrays_chart_series
                         [barAt (of_Z 7); barAt (of_Z 8)])) 1).
  simpl. lia.
Defined.



(** X14. With fewer than 200 stored bars the trend is neutral and the
    score is a whole number from 30 to 70; the page can show a strong buy
    signal only when the RSI is oversold and the MACD says buy, and advise
    caution only when the RSI is overbought and the MACD says sell. *)
Theorem under_200_bars_no_trend (quote : option (StockQuote.t F64.float))
        (prices : list (StockPrice F64.float)) :
  (length prices < 200)%nat ->
  let '(_, _, signals, _) := analysisOf quote prices in
  Signals.trend signals = neutralTrend
  /\ (exists n, 30 <= n <= 70 /\ Signals.overallScore signals = of_Z n)
  /\ (signalHeadline (Signals.overallScore signals)
      = "Strong Buy Signal"%string ->
      Signals.rsiSignal signals = oversold
      /\ Signals.macdSignal signals = buy)
  /\ (recommendation (Signals.overallScore signals)
      = "Exercise Caution"%string ->
      Signals.rsiSignal signals = overbought
      /\ Signals.macdSignal signals = sell).
Proof.
  intros Hlen. unfold analysisOf. cbv zeta.
  destruct (@analyzeStock_without_averages _ _
              (analysisPrice quote prices) (calculateIndicators (rev prices)))
    as (r & m & ->).
  { apply smaGuard_short. now rewrite length_rev. }
  cbn [Signals.trend Signals.rsiSignal Signals.macdSignal Signals.overallScore].
  split; [reflexivity|].
  destruct r, m;
    (split;
     [first [exists 30; split; [lia|vm_compute; reflexivity]
            |exists 40; split; [lia|vm_compute; reflexivity]
            |exists 50; split; [lia|vm_compute; reflexivity]
            |exists 60; split; [lia|vm_compute; reflexivity]
            |exists 70; split; [lia|vm_compute; reflexivity]]|]);
    split; vm_compute; intros Hs; (discriminate Hs || (split; reflexivity)).
Qed.

(** X14 on 60 flat bars and no quote. *)
Lemma under_200_bars_no_trend_witness :
  Signals.trend (snd (fst (analysisOf None (repeat (barAt (of_Z 100)) 60))))
  = neutralTrend.
Proof.
  pose proof (@under_200_bars_no_trend None (repeat (barAt (of_Z 100)) 60)) as Hs.
  specialize (Hs ltac:(vm_compute; lia)).
  destruct (analysisOf None (repeat (barAt (of_Z 100)) 60))
    as [[[chron snapshot] signals] series].
  exact (proj1 Hs).
Defined.

(** X15. [getMarketStatus] by the New York clock: pre-market from 4:00
    to 9:29 and open from 9:30 to 15:59 and after-hours from 16:00 to 19:59
    on Monday to Friday, closed at every other time and on Saturday and
    Sunday. *)
Theorem getMarketStatus_by_the_clock (day hours minutes : Z) :
  0 <= minutes < 60 ->
  let status := getMarketStatus day hours minutes in
  let weekday := day <> 0 /\ day <> 6 in
  (status = preMarket
   <-> weekday /\ (4 <= hours <= 8 \/ (hours = 9 /\ minutes < 30)))
  /\ (status = marketOpen
      <-> weekday /\ ((hours = 9 /\ 30 <= minutes) \/ 10 <= hours <= 15))
  /\ (status = afterHours <-> weekday /\ 16 <= hours <= 19)
  /\ (status = marketClosed
      <-> day = 0 \/ day = 6 \/ hours <= 3 \/ 20 <= hours).
Proof.
  intros Hm status weekday. unfold status, weekday, getMarketStatus.
  cbv zeta.
  destruct (Z.eqb_spec day 0); destruct (Z.eqb_spec day 6); cbn [orb];
    try (repeat split; intros; try discriminate; lia).
  destruct (Z.leb_spec 240 (hours * 60 + minutes));
    destruct (Z.ltb_spec (hours * 60 + minutes) 570);
    destruct (Z.leb_spec 570 (hours * 60 + minutes));
    destruct (Z.ltb_spec (hours * 60 + minutes) 960);
    destruct (Z.leb_spec 960 (hours * 60 + minutes));
    destruct (Z.ltb_spec (hours * 60 + minutes) 1200);
    cbn [andb]; try lia;
    repeat split; intros; try discriminate; try reflexivity; lia.
Qed.

(** X15 on a Wednesday at 9:30. *)
Lemma getMarketStatus_by_the_clock_witness :
  getMarketStatus 3 9 30 = marketOpen.
Proof.
  apply (proj1 (proj2 (@getMarketStatus_by_the_clock 3 9 30 ltac:(lia)))).
  lia.
Defined.

(** X16. [fetchMarketIndices] returns the six indices in the order of
    its table whatever the provider does; no figure of an entry is NaN, and
    an entry whose lookup threw or gave nothing holds zeros. *)
Theorem fetchMarketIndices_six_entries
        (lookup : string -> QuoteReply F64.float) :
  let results := fetchMarketIndices lookup in
  map (fun e => (IndexQuote.symbol e, IndexQuote.name e)) results
  = indexSymbols
  /\ length results = 6%nat
  /\ (forall e, In e results ->
        isNaN (IndexQuote.value e) = false
        /\ isNaN (IndexQuote.change e) = false
        /\ isNaN (IndexQuote.changePercent e) = false
        /\ isNaN (IndexQuote.previousClose e) = false)
  /\ (forall e, In e results ->
        (forall quote, lookup (IndexQuote.symbol e) <> Replied (Some quote)) ->
        IndexQuote.value e = of_Z 0 /\ IndexQuote.change e = of_Z 0
        /\ IndexQuote.changePercent e = of_Z 0
        /\ IndexQuote.previousClose e = of_Z 0).
Proof.
  intros results. unfold results, fetchMarketIndices.
  split; [|split; [|split]].
  - rewrite map_map. rewrite <- (map_id indexSymbols) at 2.
    apply map_ext. intros [symbol name].
    now destruct (lookup symbol) as [|[quote|]].
  - now rewrite length_map.
  - intros e Hin. apply in_map_iff in Hin.
    destruct Hin as ([symbol name] & <- & _).
    destruct (lookup symbol) as [|[quote|]];
      cbn [IndexQuote.value IndexQuote.change IndexQuote.changePercent
           IndexQuote.previousClose];
      repeat split; (apply orZero_not_NaN || reflexivity).
  - intros e Hin Hfail. apply in_map_iff in Hin.
    destruct Hin as ([symbol name] & <- & _).
    destruct (lookup symbol) as [|[quote|]] eqn:Hl; cbn in Hfail |- *;
      try (repeat split; reflexivity).
    exfalso. apply (Hfail quote). now rewrite Hl.
Qed.

(** X16 when every lookup throws. *)
Lemma fetchMarketIndices_six_entries_witness :
  Forall (fun e : IndexQuote.t F64.float => IndexQuote.value e = of_Z 0)
         (fetchMarketIndices (fun _ => Threw)).
Proof.
  apply Forall_forall. intros e Hin.
  apply (proj2 (proj2 (proj2
           (fetchMarketIndices_six_entries (fun _ => Threw)))) e Hin).
  discriminate.
Defined.

(** X17. [fetchStockQuote] returns null exactly when the lookup threw,
    gave nothing, or gave a quote whose price is missing, NaN or zero.  A
    result carries the price of the quote, which is neither zero nor NaN;
    its changes are not NaN; the name is not empty when the symbol is not;
    the sector is never the empty string and no optional figure of the stock
    is zero or NaN. *)
Theorem fetchStockQuote_result (lookup : string -> QuoteReply F64.float)
        (symbol : string) :
  match fetchStockQuote lookup symbol with
  | None =>
      forall quote, lookup symbol = Replied (Some quote) ->
                    truthyO (Quote.regularMarketPrice quote) = false
  | Some result =>
      exists quote,
        lookup symbol = Replied (Some quote)
        /\ Quote.regularMarketPrice quote
           = Some (StockQuote.currentPrice result)
        /\ truthy (StockQuote.currentPrice result) = true
        /\ isNaN (StockQuote.priceChange result) = false
        /\ isNaN (StockQuote.priceChangePercent result) = false
        /\ InsertStock.symbol (StockQuote.stock result) = Quote.symbol quote
        /\ (Quote.symbol quote <> EmptyString ->
            InsertStock.name (StockQuote.stock result) <> EmptyString)
        /\ InsertStock.sector (StockQuote.stock result) <> Some EmptyString
        /\ (forall field,
              In field [InsertStock.marketCap (StockQuote.stock result);
                        InsertStock.peRatio (StockQuote.stock result);
                        InsertStock.dividendYield (StockQuote.stock result);
                        InsertStock.fiftyTwoWeekHigh (StockQuote.stock result);
                        InsertStock.fiftyTwoWeekLow (StockQuote.stock result)] ->
              forall x, field = Some x -> truthy x = true)
  end.
Proof.
  unfold fetchStockQuote.
  destruct (lookup symbol) as [|[quote|]]; try discriminate.
  destruct (truthyO (Quote.regularMarketPrice quote)) eqn:Hp; cbn [negb].
  - exists quote. destruct (truthyO_toNumber _ Hp) as [Hsome Htrue].
    cbv zeta.
    cbn [StockQuote.currentPrice StockQuote.priceChange
         StockQuote.priceChangePercent StockQuote.stock InsertStock.symbol
         InsertStock.name InsertStock.sector InsertStock.marketCap
         InsertStock.peRatio InsertStock.dividendYield
         InsertStock.fiftyTwoWeekHigh InsertStock.fiftyTwoWeekLow].
    repeat split; try assumption; try apply orZero_not_NaN.
    + intros Hsym. now do 2 apply orElseS_nonempty.
    + intros Hs. now apply orNullS_nonempty in Hs.
    + intros field Hin x Hx. subst field.
      cbn [In] in Hin.
      destruct Hin as [Hf|[Hf|[Hf|[Hf|[Hf|[]]]]]];
        now apply orNull_truthy in Hf.
  - now intros q [= <-].
Qed.

(** X17 when the lookup throws. *)
Lemma fetchStockQuote_result_witness :
  fetchStockQuote (fun _ => @Threw F64.float) "AAPL" = None.
Proof.
  pose proof (fetchStockQuote_result (fun _ => @Threw F64.float) "AAPL") as Hr.
  destruct (fetchStockQuote (fun _ => @Threw F64.float) "AAPL") as [r|].
  - destruct Hr as (q & Hq & _). discriminate Hq.
  - reflexivity.
Defined.

(** X18. In POST /api/transactions, after the transaction row is inserted,
    a sale of finitely many shares from a holding of finitely many shares
    either deletes the holding, when the shares left are at most 0, or
    updates its shares to a number above 0 and leaves its average cost
    alone; selling exactly the shares held deletes the holding, and a sale
    without a holding makes no write to the holdings table. *)
Theorem selling_shrinks_or_deletes (existing : Holding.t F64.float)
        (data : TransactionData.t F64.float) :
  TransactionData.type data = "sell"%string ->
  F64.isFinite (Holding.shares existing) = true ->
  F64.isFinite (TransactionData.shares data) = true ->
  let newShares :=
    sub (Holding.shares existing) (TransactionData.shares data) in
  (holdingWrite (Some existing) data = DeleteHolding (Holding.id existing)
   /\ leb newShares (of_Z 0) = true
   \/ holdingWrite (Some existing) data
      = UpdateHolding (Holding.id existing) newShares None
      /\ gtb newShares (of_Z 0) = true)
  /\ (TransactionData.shares data = Holding.shares existing ->
      holdingWrite (Some existing) data = DeleteHolding (Holding.id existing))
  /\ holdingWrite None data = NoWrite.
Proof.
  intros Htype Hheld Hsold newShares. unfold holdingWrite. rewrite Htype.
  cbn [String.eqb Ascii.eqb Bool.eqb]. cbv zeta. fold newShares.
  split; [|split; [|reflexivity]].
  - destruct (leb newShares (of_Z 0)) eqn:Hle; [left; now split|right].
    split; [reflexivity|]. apply not_leb_zero; [|assumption].
    now apply sub_finite_not_NaN.
  - intros Hsame. unfold newShares. rewrite Hsame, sub_self by assumption.
    reflexivity.
Qed.

(** X18 on selling 10 of 10 shares. *)
Lemma selling_shrinks_or_deletes_witness :
  holdingWrite (Some tenShares) (sellOf (of_Z 10)) = DeleteHolding 1.
Proof.
  refine (proj1 (proj2 (@selling_shrinks_or_deletes tenShares (sellOf (of_Z 10))
                          _ _ _)) _); reflexivity.
Defined.

(** X19. When the shares held or the shares sold are NaN, the sale does
    not delete the holding: it stores NaN as its shares, NaN <= 0 being
    false. *)
Theorem selling_NaN_shares_keeps_holding (existing : Holding.t F64.float)
        (data : TransactionData.t F64.float) :
  TransactionData.type data = "sell"%string ->
  isNaN (Holding.shares existing) = true
  \/ isNaN (TransactionData.shares data) = true ->
  holdingWrite (Some existing) data
  = UpdateHolding (Holding.id existing) NaN None.
Proof.
  intros Htype Hnan. unfold holdingWrite. rewrite Htype.
  cbn [String.eqb Ascii.eqb Bool.eqb]. cbv zeta.
  assert (Hsub : sub (Holding.shares existing) (TransactionData.shares data)
                 = (NaN : F64.float)).
  { destruct Hnan as [Hn|Hn]; apply isNaN_is_NaN in Hn; rewrite Hn;
      [apply sub_NaN_l|apply sub_NaN_r]. }
  rewrite Hsub. reflexivity.
Qed.

(** X19 on selling NaN shares of a holding of 10. *)
Lemma selling_NaN_shares_keeps_holding_witness :
  holdingWrite (Some tenShares) (sellOf NaN) = UpdateHolding 1 NaN None.
Proof.
  apply (@selling_NaN_shares_keeps_holding tenShares (sellOf NaN) eq_refl).
  right. reflexivity.
Defined.

(** X20. The current price the analysis handler scores with is never
    NaN: it is the price of the quote whenever [fetchStockQuote] returned
    one, and otherwise the newest stored close, or 0 when that is missing,
    zero or NaN. *)
Theorem analysisPrice_sources (lookup : string -> QuoteReply F64.float)
        (symbol : string) (prices : list (StockPrice F64.float)) :
  let quote := fetchStockQuote lookup symbol in
  isNaN (analysisPrice quote prices) = false
  /\ analysisPrice quote prices
     = match quote with
       | Some q => StockQuote.currentPrice q
       | None => orZero (option_map (@close _) (hd_error prices))
       end.
Proof.
  intros quote. split.
  - unfold analysisPrice. cbv zeta.
    destruct (truthyO (option_map _ quote)) eqn:Hq.
    + apply truthy_not_NaN. now apply truthyO_toNumber.
    + destruct (truthyO (option_map _ (at_ prices 0))) eqn:Hp; [|reflexivity].
      apply truthy_not_NaN. now apply truthyO_toNumber.
  - destruct quote as [q|] eqn:Hfetch.
    + apply fetchStockQuote_truthy_price in Hfetch.
      unfold analysisPrice. cbn. now rewrite Hfetch.
    + unfold analysisPrice. cbn.
      destruct prices as [|p rest]; [reflexivity|]. cbn.
      now destruct (truthy (close p)).
Qed.

(** X21. The figures the dashboard and the portfolio add to a holding
    are never NaN; without a stored price and without a usable quote the
    holding is valued at its average cost and both its gain and its gain
    in percent are 0, whatever its shares and its cost. *)
Theorem holdingWithStock_figures (holding : Holding.t F64.float)
        (latestClose : option F64.float)
        (quote : option (StockQuote.t F64.float)) :
  let figures := holdingWithStock holding latestClose quote in
  (isNaN (HoldingWithStock.currentPrice figures) = false
   /\ isNaN (HoldingWithStock.totalValue figures) = false
   /\ isNaN (HoldingWithStock.gainLoss figures) = false
   /\ isNaN (HoldingWithStock.gainLossPercent figures) = false)
  /\ (latestClose = None ->
      truthyO (option_map (@StockQuote.currentPrice _) quote) = false ->
      HoldingWithStock.gainLoss figures = of_Z 0
      /\ HoldingWithStock.gainLossPercent figures = of_Z 0).
Proof.
  intros figures. unfold figures, holdingWithStock. cbv zeta.
  cbn [HoldingWithStock.currentPrice HoldingWithStock.totalValue
       HoldingWithStock.gainLoss HoldingWithStock.gainLossPercent].
  split.
  - repeat split; (apply orZero_not_NaN || apply nanToZero_not_NaN).
  - intros -> ->. split; [apply nanToZero_sub_self|apply percent_of_no_gain].
Qed.

(** X21 on a holding of 10 shares without any price. *)
Lemma holdingWithStock_figures_witness :
  HoldingWithStock.gainLoss (holdingWithStock tenShares None None) = of_Z 0.
Proof.
  refine (proj1 (proj2 (holdingWithStock_figures tenShares None None) _ _));
    reflexivity.
Defined.
End Further.
